(** * chroma-mcp: the file ingestion pipeline of [src/chroma_mcp/server.py]

    A shallow embedding of the chunker ([chunk_text]), the document tools
    ([chroma_add_documents], [chroma_update_documents]), the archive
    extractor ([extract_archive]) and the ingestion orchestrator
    ([chroma_add_documents_from_files]), followed by the properties the
    specification states about them; and, beyond the specification, of the
    file finders ([find_text_log_files], [find_vectorizable_files]), the
    validation of thought data ([validate_thought_data]) and the client
    singleton ([get_chroma_client]), with further properties of all of
    these.

    Python [str] values that are sliced and concatenated (file contents,
    buffers, documents) are lists of characters; identifiers and paths are
    [string]s, the keys of the finite maps that model the document store.
    Python [int]s that the caller supplies ([chunk_size], [overlap]) are
    [Z]; counters that start at zero and only grow are [nat]. *)

From stdpp Require Import gmap strings list fin_maps.
From Stdlib Require Import ZArith DecimalString DecimalNat Ascii.

Open Scope string_scope.
Open Scope list_scope.
Open Scope nat_scope.

Abbreviation text := (list ascii).

(** ** Errors and results *)

(** The exceptions the modelled code raises, one constructor per [raise]
    site (the message text is not modelled). *)
Inductive error :=
  | ChunkSizeNotPositive          (* chunk_text: "chunk_size must be positive" *)
  | OverlapNegative               (* chunk_text: "overlap must be non-negative" *)
  | EmptyDocuments                (* "The 'documents' list cannot be empty." *)
  | EmptyIds                      (* "The 'ids' list ... cannot be empty." *)
  | BlankId                       (* "IDs cannot be empty strings." *)
  | LengthMismatch                (* "Number of ids ... must match ..." *)
  | NothingToUpdate               (* "At least one of 'embeddings', ..." *)
  | DuplicateIds (ids : list string)  (* "The following IDs already exist ..." *)
  | CollectionMissing             (* get_collection on an unknown name *)
  | StoreRejected                 (* the store's own failure of add *)
  | AddFailed (cause : error)     (* "Failed to add documents to collection" *)
  | NoVectorizableInput           (* "No .csv, .txt, or .log files found ..." *)
  | OversizeArchive               (* "Archive ... is too large (>15MB)" *)
  | UnsupportedArchiveType        (* "Unsupported archive type: ..." *)
  | ExtractionFailed              (* the archive library fails on the file *)
  | OSError                       (* a missing file or a directory where a file is needed *)
  | CsvReadFailed                 (* pandas.read_csv fails *)
  | UnknownEncoding.              (* LookupError of open(..., encoding=...) *)

(** What a call does: return, raise, or still be running when the fuel
    that bounds a [while] loop is used up. *)
Inductive outcome (A : Type) :=
  | Returns (a : A)
  | Raises (e : error)
  | OutOfFuel.
Arguments Returns {A} a.
Arguments Raises {A} e.
Arguments OutOfFuel {A}.

(** ** Python sequence operations *)

Section Slicing.
Context {A : Type}.

(** [len(s)] *)
Definition py_len (s : list A) : Z := Z.of_nat (length s).

(** How a slice bound is read: a negative bound counts from the end, and
    every bound is clamped to [0, len]. *)
Definition slice_index (len i : Z) : Z :=
  if (i <? 0)%Z then Z.max (i + len) 0 else Z.min i len.

(** [s[start:stop]]; [None] is an omitted bound. *)
Definition py_slice (s : list A) (start stop : option Z) : list A :=
  let len := py_len s in
  let lo := from_option (slice_index len) 0%Z start in
  let hi := from_option (slice_index len) len stop in
  take (Z.to_nat (hi - lo)) (drop (Z.to_nat lo) s).
End Slicing.

(** ** Chunker: [chunk_text] *)

Section Chunker.
Context {A : Type}.

(** The [while start < text_length] loop. [emit start end] is what is
    appended to [chunks] for the window [start, end): the source appends
    [text[start:end]]; appending the window itself gives the trace of the
    cursor. *)
Fixpoint chunk_loop {B : Type} (emit : Z → Z → B) (fuel : nat)
    (text_length chunk_size overlap : Z) (start : Z) (chunks : list B)
    : option (list B) :=
  match fuel with
  | O => None
  | S fuel =>
      if (start <? text_length)%Z then
        let end_ := Z.min (start + chunk_size) text_length in
        let chunks := chunks ++ [emit start end_] in
        if (end_ =? text_length)%Z then Some chunks
        else chunk_loop emit fuel text_length chunk_size overlap
               (end_ - overlap) chunks
      else Some chunks
  end.

(** The two checks of the parameters that precede the loop, and the
    result of the loop. *)
Definition chunk_guard {B : Type} (chunk_size overlap : Z)
    (body : option (list B)) : outcome (list B) :=
  if (chunk_size <=? 0)%Z then Raises ChunkSizeNotPositive
  else if (overlap <? 0)%Z then Raises OverlapNegative
  else match body with
       | Some chunks => Returns chunks
       | None => OutOfFuel
       end.

(** [chunk_text]: the pieces [text[start:end]] of the windows. *)
Definition chunk_text (fuel : nat) (text : list A) (chunk_size overlap : Z)
    : outcome (list (list A)) :=
  chunk_guard chunk_size overlap
    (chunk_loop (λ start end_, py_slice text (Some start) (Some end_))
       fuel (py_len text) chunk_size overlap 0 []).

(** The windows [(start, end)] of the successive iterations. *)
Definition chunk_windows (fuel : nat) (text : list A) (chunk_size overlap : Z)
    : outcome (list (Z * Z)) :=
  chunk_guard chunk_size overlap
    (chunk_loop pair fuel (py_len text) chunk_size overlap 0 []).

(** Concatenation of the pieces, the leading [overlap] characters of
    every piece after the first dropped. *)
Definition reconstruct (overlap : Z) (pieces : list (list A)) : list A :=
  match pieces with
  | [] => []
  | p :: ps => p ++ concat (map (drop (Z.to_nat overlap)) ps)
  end.
End Chunker.

(** A string as the list of its characters. *)
Definition s2t : string → text := String.list_ascii_of_string.

(** ** Python string operations *)

(** Truth value of a sequence: [not xs]. *)
Definition py_not {A : Type} (xs : list A) : bool :=
  match xs with [] => true | _ => false end.

(** The characters [str.strip] removes among the code points below 256. *)
Definition is_space (c : ascii) : bool :=
  let n := nat_of_ascii c in
  (9 <=? n) && (n <=? 13) || (28 <=? n) && (n <=? 32)
  || (n =? 133) || (n =? 160).

(** [str.lstrip], and [str.strip]: both ends stripped. *)
Fixpoint lstrip (s : text) : text :=
  match s with
  | c :: s' => if is_space c then lstrip s' else s
  | [] => []
  end.

Definition strip (s : text) : text := reverse (lstrip (reverse (lstrip s))).

(** [str.lower] on the letters A to Z. *)
Definition lower_char (c : ascii) : ascii :=
  let n := nat_of_ascii c in
  if (65 <=? n) && (n <=? 90) then ascii_of_nat (n + 32) else c.

Definition lower (s : text) : text := map lower_char s.

(** [str.endswith] *)
Fixpoint endswith (s suffix : text) : bool :=
  if bool_decide (s = suffix) then true
  else match s with
       | [] => false
       | _ :: s' => endswith s' suffix
       end.

(** [str.join] *)
Fixpoint join (sep : text) (parts : list text) : text :=
  match parts with
  | [] => []
  | [p] => p
  | p :: ps => p ++ sep ++ join sep ps
  end.

(** [f"{i}"] for a non-negative [int]. *)
Definition dec (i : nat) : string := NilZero.string_of_uint (Nat.to_uint i).

(** ** [pathlib]: name, suffix and stem of a path *)

(** The final component: what follows the last separator. *)
Definition path_name (p : text) : text :=
  fold_left (λ name c, if Ascii.eqb c "/" then [] else name ++ [c]) p [].

(** [name.rfind('.')] *)
Definition rfind_dot (name : text) : option nat :=
  (fold_left (λ '(i, found) c,
               (S i, if Ascii.eqb c "." then Some i else found))
     name (0, None)).2.

(** [PurePath.suffix]: [name[i:]] if [0 < i < len(name) - 1]. *)
Definition name_suffix (name : text) : text :=
  match rfind_dot name with
  | Some i => if (0 <? i) && (i <? length name - 1) then drop i name else []
  | None => []
  end.

(** [PurePath.stem]: [name[:i]] if [0 < i < len(name) - 1]. *)
Definition name_stem (name : text) : text :=
  match rfind_dot name with
  | Some i => if (0 <? i) && (i <? length name - 1) then take i name else name
  | None => name
  end.

(** [pathlib.Path(p).suffix] and [pathlib.Path(p).stem]. *)
Definition suffix (p : string) : text := name_suffix (path_name (s2t p)).
Definition stem (p : string) : string :=
  String.string_of_list_ascii (name_stem (path_name (s2t p))).

(** ** State and exceptions *)

(** A computation over a state [S] that returns or raises; the state
    reached when an exception is raised is kept, as the effects a Python
    function had before it raised are. *)
Definition M (S A : Type) : Type := S → outcome A * S.

Definition ret {S A} (a : A) : M S A := λ s, (Returns a, s).
Definition raise {S A} (e : error) : M S A := λ s, (Raises e, s).
Definition bind {S A B} (m : M S A) (k : A → M S B) : M S B :=
  λ s, match m s with
       | (Returns a, s') => k a s'
       | (Raises e, s') => (Raises e, s')
       | (OutOfFuel, s') => (OutOfFuel, s')
       end.
Definition get_state {S} : M S S := λ s, (Returns s, s).
Definition modify {S} (f : S → S) : M S unit := λ s, (Returns tt, f s).

Notation "'let*' x := m 'in' k" := (bind m (λ x, k))
  (at level 10, x name, m at level 200, k at level 200).
Notation "'run' m 'in' k" := (bind m (λ _, k))
  (at level 10, m at level 200, k at level 200).

(** [try: m except Exception as e: h e] *)
Definition try_except {S A} (m : M S A) (h : error → M S A) : M S A :=
  λ s, match m s with
       | (Raises e, s') => h e s'
       | r => r
       end.

(** ** The document store *)

(** Metadata values and dictionaries. *)
Inductive meta_value := MStr (s : string) | MInt (i : Z).
Abbreviation metadata := (list (string * meta_value)).

Record document := {
  doc_text : text;
  doc_meta : option metadata;
}.

(** A collection maps ids to records; the store maps collection names to
    collections. The store is the state behind the process-wide client
    that [get_chroma_client] returns. *)
Abbreviation collection := (gmap string document).
Abbreviation store := (gmap string (gmap string document)).

(** The store is an external collaborator (the chromadb client); its
    operations are modelled from section 6 of the specification. *)

(** Modelled from the spec: [getOrCreateCollection(name) -> handle], the
    store's [get_or_create_collection]. It returns the collection of that
    name and creates it, empty, when there is none. *)
Definition get_or_create_collection (name : string) : M store unit :=
  λ st, match st !! name with
        | Some _ => (Returns tt, st)
        | None => (Returns tt, <[name := ∅]> st)
        end.

(** Modelled from the spec: the store's [get_collection], which fails on
    a name that has no collection. *)
Definition get_collection (name : string) : M store unit :=
  λ st, match st !! name with
        | Some _ => (Returns tt, st)
        | None => (Raises CollectionMissing, st)
        end.

(** The collection of a name; empty when there is none. *)
Definition collection_of (st : store) (name : string) : collection :=
  default ∅ (st !! name).

(** Modelled from the spec: [existingIds], the store's
    [Collection.get(include=[])["ids"]]: the ids present. *)
Definition collection_get_ids (name : string) : M store (list string) :=
  λ st, (Returns (map_to_list (collection_of st name)).*1, st).

(** The metadata of the [i]-th record: [metadatas[i]], or none when the
    list is [None]. *)
Definition nth_meta (metadatas : option (list metadata)) (i : nat)
    : option metadata :=
  ms ← metadatas; ms !! i.

(** The records [(ids[i], documents[i], metadatas[i])] put into a
    collection. *)
Definition add_records (ids : list string) (documents : list text)
    (metadatas : option (list metadata)) (c : collection) : collection :=
  foldl (λ c '(i, (id, d)),
           <[id := {| doc_text := d; doc_meta := nth_meta metadatas i |}]> c)
        c (imap pair (zip ids documents)).

(** Modelled from the spec: [insert], the store's [Collection.add]. It
    fails if any id already exists (and, the record lists having to be
    aligned, if the metadata list has another length than the ids);
    otherwise it inserts every record. *)
Definition collection_add (name : string) (documents : list text)
    (metadatas : option (list metadata)) (ids : list string) : M store unit :=
  λ st,
    let c := collection_of st name in
    if bool_decide (Exists (λ id, is_Some (c !! id)) ids) then
      (Raises StoreRejected, st)
    else if bool_decide (default (length ids) (length <$> metadatas)
                         ≠ length ids) then
      (Raises StoreRejected, st)
    else (Returns tt, <[name := add_records ids documents metadatas c]> st).

(** The records of the ids that exist replaced. *)
Definition update_records (ids : list string) (documents : list text)
    (metadatas : option (list metadata)) (c : collection) : collection :=
  foldl (λ c '(i, (id, d)),
           match c !! id with
           | Some _ =>
               <[id := {| doc_text := d; doc_meta := nth_meta metadatas i |}]> c
           | None => c
           end)
        c (imap pair (zip ids documents)).

(** Modelled from the spec: [update], the store's [Collection.update]. It
    replaces the records of the ids that exist and silently ignores the
    ids that do not. *)
Definition collection_update (name : string) (ids : list string)
    (metadatas : option (list metadata)) (documents : list text)
    : M store unit :=
  λ st, (Returns tt,
         <[name := update_records ids documents metadatas
                     (collection_of st name)]> st).

(** ** Document tools *)

(** [chroma_add_documents]. The value returned stands for the message
    "Successfully added {len(documents)} documents ...": [Collection.add]
    returns [None], so the checks of a dictionary result are skipped. *)
Definition chroma_add_documents (collection_name : string)
    (documents : list text) (ids : list string)
    (metadatas : option (list metadata)) : M store nat :=
  if py_not documents then raise EmptyDocuments
  else if py_not ids then raise EmptyIds
  else if existsb (λ id, py_not (strip (s2t id))) ids then raise BlankId
  else if negb (length ids =? length documents) then raise LengthMismatch
  else
    try_except
      (run get_or_create_collection collection_name in
       let* existing_ids := collection_get_ids collection_name in
       let duplicate_ids := filter (λ id, id ∈ existing_ids) ids in
       if negb (py_not duplicate_ids) then raise (DuplicateIds duplicate_ids)
       else
         run collection_add collection_name documents metadatas ids in
         ret (length documents))
      (λ e, raise (AddFailed e)).

(** [chroma_update_documents]. Its parameter [embeddings], which the
    ingestion never passes, is left out: it is [None], so the check that
    something is to be updated reads [metadatas] and [documents] only, and
    the check of the length of [embeddings] is skipped. *)
Definition chroma_update_documents (collection_name : string)
    (ids : list string) (metadatas : option (list metadata))
    (documents : option (list text)) : M store nat :=
  if py_not ids then raise EmptyIds
  else if bool_decide (metadatas = None ∧ documents = None) then
    raise NothingToUpdate
  else if bool_decide (default (length ids) (length <$> metadatas)
                       ≠ length ids) then raise LengthMismatch
  else if bool_decide (default (length ids) (length <$> documents)
                       ≠ length ids) then raise LengthMismatch
  else
    run get_collection collection_name in
    run collection_update collection_name ids metadatas
          (default [] documents) in
    ret (length ids).

(** ** The file system and the scratch directories *)

Inductive archive_format := Zip | Tar | Rar | SevenZ.

Local Unset Elimination Schemes.
(** A regular file, as the libraries the code calls see it:
    [f_size] is [st_size]; [f_chardet] is the encoding [chardet.detect]
    reports for its first 4096 bytes; [f_decode enc] is what reading it in
    text mode under [enc] with [errors='replace'] gives ([None]: [open]
    refuses the encoding); [f_csv] is what [pandas.read_csv] makes of it,
    row by row the values of the object-typed columns as strings ([None]:
    [read_csv] fails); [f_is_zipfile] and [f_is_tarfile] are
    [zipfile.is_zipfile] and [tarfile.is_tarfile]; [f_members fmt] is what
    opening it as an archive of format [fmt] and extracting it writes, in
    the order of [namelist()] / [getnames()], a member without a file being
    a directory ([None]: the library raises). *)
Inductive file := {
  f_size : Z;
  f_chardet : option string;
  f_decode : string → option text;
  f_csv : option (list (list text));
  f_is_zipfile : bool;
  f_is_tarfile : bool;
  f_members : archive_format → option (list (string * option file));
}.
Local Set Elimination Schemes.

Abbreviation tree := (list (string * option file)).

(** A node of the caller's file system; a directory comes with its size
    and with what [rglob("*")] enumerates beneath it. *)
Inductive node :=
  | File (f : file)
  | Dir (size : Z) (rglob : list string).

(** The caller's file system, which the ingestion only reads. *)
Record filesystem := {
  fs_resolve : string → string;          (* expanduser().resolve() *)
  fs_node : string → option node;
}.

(** What a call can change: the document store, the scratch directories
    that exist (each with the members extracted into it), the supply of
    names for new scratch directories, and what was printed. *)
Record world := {
  w_store : store;
  w_scratch : gmap nat tree;
  w_next_tmp : nat;
  w_stdout : list (string * error);
}.

(** Functional update of the store and of the scratch directories. *)
Definition with_store (f : store → store) (w : world) : world :=
  {| w_store := f (w_store w); w_scratch := w_scratch w;
     w_next_tmp := w_next_tmp w; w_stdout := w_stdout w |}.
Definition with_scratch (f : gmap nat tree → gmap nat tree) (w : world)
    : world :=
  {| w_store := w_store w; w_scratch := f (w_scratch w);
     w_next_tmp := w_next_tmp w; w_stdout := w_stdout w |}.

(** A computation on the store, run in a world. *)
Definition in_store {A} (m : M store A) : M world A :=
  λ w, let '(r, st) := m (w_store w) in (r, with_store (λ _, st) w).

(** A path the ingestion handles: a path of the caller's file system or a
    path inside the scratch directory [d]. *)
Inductive location :=
  | Host (p : string)
  | Scratch (d : nat) (rel : string).

(** [tmpdir.name] *)
Definition tmp_name (d : nat) : string := "/tmp/tmp" +:+ dec d.

(** The path as the string the source holds. *)
Definition path_str (p : location) : string :=
  match p with
  | Host s => s
  | Scratch d rel => tmp_name d +:+ "/" +:+ rel
  end.

(** [tempfile.TemporaryDirectory()]: a new, empty scratch directory,
    named from the supply. *)
Definition TemporaryDirectory : M world nat :=
  λ w, (Returns (w_next_tmp w),
        {| w_store := w_store w;
           w_scratch := <[w_next_tmp w := []]> (w_scratch w);
           w_next_tmp := S (w_next_tmp w);
           w_stdout := w_stdout w |}).

(** [tmpdir.cleanup()] *)
Definition cleanup (d : nat) (w : world) : world :=
  with_scratch (delete d) w.

(** [print(f"Failed to extract {abs_path}: {e}")] *)
Definition print (line : string * error) : M world unit :=
  λ w, (Returns tt,
        {| w_store := w_store w; w_scratch := w_scratch w;
           w_next_tmp := w_next_tmp w; w_stdout := w_stdout w ++ [line] |}).

(** [Path.is_file()] and [Path.is_dir()] *)
Definition is_file (fs : filesystem) (p : string) : bool :=
  match fs_node fs p with Some (File _) => true | _ => false end.
Definition is_dir (fs : filesystem) (p : string) : bool :=
  match fs_node fs p with Some (Dir _ _) => true | _ => false end.

(** [os.path.getsize] / [stat().st_size] *)
Definition getsize (fs : filesystem) (p : string) : option Z :=
  match fs_node fs p with
  | Some (File f) => Some (f_size f)
  | Some (Dir size _) => Some size
  | None => None
  end.

(** Inside a scratch directory: is member [name] beneath directory [dir]?
    is [rel] a directory? which files does [os.walk] find beneath it?
    which file is at [rel]? *)
Definition beneath (dir name : string) : bool :=
  let d := s2t dir in
  let d := if endswith d (s2t "/") then d else d ++ s2t "/" in
  bool_decide (take (length d) (s2t name) = d)
  && (length d <? length (s2t name)).

Definition tree_isdir (t : tree) (rel : string) : bool :=
  existsb (λ m, bool_decide (m.1 = rel) && bool_decide (m.2 = None :> option _)
                || beneath rel m.1) t.

Definition tree_walk (t : tree) (rel : string) : list string :=
  (filter (λ m, is_Some m.2 ∧ beneath rel m.1) t).*1.

Definition tree_file (t : tree) (rel : string) : option file :=
  last (omap (λ m, if bool_decide (m.1 = rel) then m.2 else None) t).

(** The regular file at a path, if there is one. *)
Definition lookup_file (fs : filesystem) (w : world) (p : location)
    : option file :=
  match p with
  | Host s => match fs_node fs s with Some (File f) => Some f | _ => None end
  | Scratch d rel => t ← w_scratch w !! d; tree_file t rel
  end.

(** ** Archive extraction: [extract_archive] *)

(** [with <open as fmt> as z: z.extractall(extract_dir); z.namelist()] *)
Definition extractall (fmt : archive_format) (f : file) (extract_dir : nat)
    : M world (list string) :=
  match f_members f fmt with
  | None => raise ExtractionFailed
  | Some members =>
      run modify (with_scratch (λ sc,
            <[extract_dir := default [] (sc !! extract_dir) ++ members]> sc)) in
      ret members.*1
  end.

(** [extract_archive]: the size check, the detection of the format, the
    extraction, and the flattening of the extracted directories. *)
Definition extract_archive (fs : filesystem) (archive_path : string)
    (extract_dir : nat) : M world (list location) :=
  match getsize fs archive_path with
  | None => raise OSError
  | Some size =>
      if (size >? 15 * 1024 * 1024)%Z then raise OversizeArchive
      else
        let* extracted_files :=
          match fs_node fs archive_path with
          | Some (File f) =>
              if f_is_zipfile f then extractall Zip f extract_dir
              else if f_is_tarfile f then extractall Tar f extract_dir
              else if endswith (lower (s2t archive_path)) (s2t ".rar")
              then extractall Rar f extract_dir
              else if endswith (lower (s2t archive_path)) (s2t ".7z")
              then extractall SevenZ f extract_dir
              else raise UnsupportedArchiveType
          | _ => raise OSError      (* tarfile.is_tarfile on a directory *)
          end in
        (* Flatten directories *)
        let* w := get_state in
        let t := default [] (w_scratch w !! extract_dir) in
        ret (flat_map (λ f, if tree_isdir t f
                            then Scratch extract_dir <$> tree_walk t f
                            else [Scratch extract_dir f])
               extracted_files)
  end.

(** ** Ingestion: [chroma_add_documents_from_files] *)

(** The constants of the call, and the suffixes it recognises. *)
Definition BATCH_SIZE : nat := 5000.
Definition CSV_CHUNK_ROWS : nat := 1000.

Definition ARCHIVE_SUFFIXES : list text :=
  s2t <$> [".zip"; ".tar"; ".gz"; ".tgz"; ".rar"; ".7z"].
Definition VECTORIZABLE_SUFFIXES : list text := s2t <$> [".csv"; ".txt"; ".log"].

(** The local variables of the call that its [finally] block reads, and
    the world. *)
Record frame := {
  fr_temp_dirs : list nat;
  fr_world : world;
}.

(** A computation on the world, run in a frame. *)
Definition in_world {A} (m : M world A) : M frame A :=
  λ fr, let '(r, w) := m (fr_world fr) in
        (r, {| fr_temp_dirs := fr_temp_dirs fr; fr_world := w |}).

(** [temp_dirs.append(tmpdir)] *)
Definition append_temp_dir (d : nat) : M frame unit :=
  modify (λ fr, {| fr_temp_dirs := fr_temp_dirs fr ++ [d];
                   fr_world := fr_world fr |}).

(** A [for] loop that threads an accumulator: [for x in xs: acc = f x acc]. *)
Fixpoint foldM {St A T} (f : A → T → M St T) (xs : list A) (acc : T)
    : M St T :=
  match xs with
  | [] => ret acc
  | x :: xs => let* acc := f x acc in foldM f xs acc
  end.

(** One iteration of [for path in file_or_dir_paths]. *)
Definition discover_path (fs : filesystem) (path : string)
    (all_files : list location) : M frame (list location) :=
  let abs_path := fs_resolve fs path in
  if is_file fs abs_path
     && bool_decide (lower (suffix abs_path) ∈ ARCHIVE_SUFFIXES) then
    if (default 0 (getsize fs abs_path) >? 15 * 1024 * 1024)%Z then
      ret all_files                                  (* skip large archives *)
    else
      let* tmpdir := in_world TemporaryDirectory in
      run append_temp_dir tmpdir in
      try_except
        (let* extracted := in_world (extract_archive fs abs_path tmpdir) in
         ret (all_files ++ extracted))
        (λ e, run in_world (print (abs_path, e)) in ret all_files)
  else if is_file fs abs_path then ret (all_files ++ [Host abs_path])
  else if is_dir fs abs_path then
    match fs_node fs abs_path with
    | Some (Dir _ rglob) =>
        ret (all_files ++ (Host <$> filter (λ f, is_file fs f) rglob))
    | _ => ret all_files
    end
  else ret all_files.

(** The loop [for path in file_or_dir_paths], from [all_files = []]. *)
Definition discover (fs : filesystem) (file_or_dir_paths : list string)
    : M frame (list location) :=
  foldM (discover_path fs) file_or_dir_paths [].

(** *** CSV files *)

(** [pd.read_csv(file_path, chunksize=n)]: the rows, [n] at a time. *)
Fixpoint chunks_of {A} (fuel n : nat) (rows : list A) : list (list A) :=
  match fuel, rows with
  | S fuel, _ :: _ => take n rows :: chunks_of fuel n (drop n rows)
  | _, _ => []
  end.

(** The chunks of a file: the fuel is the number of rows, enough as a
    chunk holds at least one row. *)
Definition read_csv_chunks {A} (n : nat) (rows : list A) : list (list A) :=
  chunks_of (length rows) n rows.

(** [range(0, stop, step)] *)
Definition range_step (stop step : nat) : list nat :=
  (λ k, k * step) <$> seq 0 ((stop + step - 1) / step).

(** The insert-or-update of one batch. *)
Definition reconcile_batch (collection_name : string)
    (batch_docs : list text) (batch_ids : list string)
    (batch_metadatas : list metadata) (total_added : nat) : M store nat :=
  (* Check which IDs already exist *)
  run get_or_create_collection collection_name in
  let* existing := collection_get_ids collection_name in
  let existing_csv_ids_set : gset string := list_to_set existing in
  let records := zip batch_docs (zip batch_ids batch_metadatas) in
  let new := filter (λ r, r.2.1 ∉ existing_csv_ids_set) records in
  let update := filter (λ r, r.2.1 ∈ existing_csv_ids_set) records in
  let* total_added :=
    if negb (py_not new) then
      run chroma_add_documents collection_name new.*1 new.*2.*1
            (Some new.*2.*2) in
      ret (total_added + length new)
    else ret total_added in
  if negb (py_not update) then
    run chroma_update_documents collection_name update.*2.*1
          (Some update.*2.*2) (Some update.*1) in
    ret total_added
  else ret total_added.

(** The body of [for chunk in pd.read_csv(...)]; [upload] is what is done
    with each batch (the source reconciles it with the store). *)
Definition csv_chunk {St T}
    (upload : list text → list string → list metadata → T → M St T)
    (file_path : string) (chunk : list (list text)) (acc : T) : M St T :=
  let text_data := join (s2t " ") <$> chunk in
  if py_not text_data then ret acc                   (* continue *)
  else
    let metadatas_csv :=
      (λ i, [("file", MStr file_path); ("row", MInt (Z.of_nat i))])
        <$> seq 0 (length text_data) in
    let ids :=
      (λ i, stem file_path +:+ "_row_" +:+ dec i)
        <$> seq 0 (length text_data) in
    (* Batch upload *)
    foldM (λ i acc,
             let batch_docs := take BATCH_SIZE (drop i text_data) in
             let batch_ids := take BATCH_SIZE (drop i ids) in
             let batch_metadatas := take BATCH_SIZE (drop i metadatas_csv) in
             upload batch_docs batch_ids batch_metadatas acc)
          (range_step (length text_data) BATCH_SIZE) acc.

(** The loop [for chunk in pd.read_csv(file_path, chunksize=CSV_CHUNK_ROWS)]. *)
Definition csv_file {St T}
    (upload : list text → list string → list metadata → T → M St T)
    (file_path : string) (rows : list (list text)) (acc : T) : M St T :=
  foldM (csv_chunk upload file_path) (read_csv_chunks CSV_CHUNK_ROWS rows) acc.

(** *** Text and log files *)

(** The lines [readline()] returns one after the other, each with its
    line end. *)
Fixpoint split_lines (line : text) (content : text) : list text :=
  match content with
  | [] => if py_not line then [] else [line]
  | c :: content =>
      if Ascii.eqb c "010" then (line ++ [c]) :: split_lines [] content
      else split_lines (line ++ [c]) content
  end.

(** The [while True] loop over the lines; [emit chunk_idx buffer] is what
    is done with each chunk (the source inserts or updates the record). *)
Fixpoint stream_loop {St T} (emit : nat → text → T → M St T)
    (chunk_size overlap : Z) (lines : list text) (buffer : text)
    (chunk_idx : nat) (acc : T) : M St T :=
  match lines with
  | [] =>
      (* End of file *)
      if negb (py_not buffer) then emit chunk_idx buffer acc else ret acc
  | line :: lines =>
      let buffer := buffer ++ line in
      if (py_len buffer >=? chunk_size)%Z then
        let* acc := emit chunk_idx buffer acc in
        let buffer :=
          if (overlap >? 0)%Z then py_slice buffer (Some (- overlap)%Z) None
          else [] in
        stream_loop emit chunk_size overlap lines buffer (S chunk_idx) acc
      else stream_loop emit chunk_size overlap lines buffer chunk_idx acc
  end.

(** The insert-or-update of one chunk. *)
Definition upsert_chunk (collection_name file_path : string)
    (existing_txt_ids_set : gset string) (chunk_idx : nat) (buffer : text)
    (total_added : nat) : M store nat :=
  let id0 := stem file_path +:+ "_chunk_" +:+ dec chunk_idx in
  let ids := [id0] in
  let metadatas_txt :=
    [[("file", MStr file_path); ("chunk_index", MInt (Z.of_nat chunk_idx))]] in
  if bool_decide (id0 ∈ existing_txt_ids_set) then
    run chroma_update_documents collection_name ids (Some metadatas_txt)
          (Some [buffer]) in
    ret total_added
  else
    run chroma_add_documents collection_name [buffer] ids
          (Some metadatas_txt) in
    ret (total_added + 1).

(** [detect_encoding]: [result['encoding'] or default]. *)
Definition detect_encoding (f : file) (default : string) : string :=
  match f_chardet f with
  | Some e => if bool_decide (e = "") then default else e
  | None => default
  end.

(** *** One file, all files, and the whole call *)

(** The body of [for file_path in vectorizable]; [read] gives the file at
    a path. *)
Definition process_file (read : location → option file)
    (collection_name : string) (chunk_size overlap : Z) (encoding : string)
    (file_path : location) (total_added : nat) : M store nat :=
  let ext := lower (suffix (path_str file_path)) in
  if bool_decide (ext = s2t ".csv") then
    (* Stream CSV in chunks *)
    match read file_path with
    | None => raise OSError
    | Some f =>
        match f_csv f with
        | None => raise CsvReadFailed
        | Some rows =>
            csv_file (reconcile_batch collection_name)
              (path_str file_path) rows total_added
        end
    end
  else
    (* Stream and chunk text file *)
    match read file_path with
    | None => raise OSError
    | Some f =>
        let file_encoding := detect_encoding f encoding in
        run get_or_create_collection collection_name in
        let* existing := collection_get_ids collection_name in
        let existing_txt_ids_set : gset string := list_to_set existing in
        match f_decode f file_encoding with
        | None => raise UnknownEncoding
        | Some content =>
            stream_loop
              (upsert_chunk collection_name (path_str file_path)
                 existing_txt_ids_set)
              chunk_size overlap (split_lines [] content) [] 0 total_added
        end
    end.

(** The [try] block. *)
Definition ingest_body (fs : filesystem) (collection_name : string)
    (file_or_dir_paths : list string) (chunk_size overlap : Z)
    (encoding : string) : M frame nat :=
  let* all_files := discover fs file_or_dir_paths in
  (* Now filter for .csv, .txt, .log *)
  let vectorizable :=
    filter (λ f, lower (suffix (path_str f)) ∈ VECTORIZABLE_SUFFIXES)
      all_files in
  if py_not vectorizable then raise NoVectorizableInput
  else
    let* fr := get_state in
    in_world (in_store
      (foldM (process_file (lookup_file fs (fr_world fr)) collection_name
                chunk_size overlap encoding)
         vectorizable 0)).

(** [chroma_add_documents_from_files]: the [try] block, then the
    [finally] block, which runs however the [try] block ended. The value
    returned is [total_added], the number in the confirmation message. The
    argument [metadatas] is never read by the source. *)
Definition chroma_add_documents_from_files (fs : filesystem)
    (collection_name : string) (file_or_dir_paths : list string)
    (chunk_size overlap : Z) (encoding : string)
    (metadatas : option (list metadata)) : M world nat :=
  λ w,
    let '(r, fr) :=
      ingest_body fs collection_name file_or_dir_paths chunk_size overlap
        encoding {| fr_temp_dirs := []; fr_world := w |} in
    (r, foldl (λ w tmpdir, cleanup tmpdir w) (fr_world fr) (fr_temp_dirs fr)).

(** ** What the two streaming paths emit *)

(** The ids of the records a CSV file yields, in order: the CSV loops with
    an [upload] that only records the ids of each batch. *)
Definition csv_row_ids (file_path : string) (rows : list (list text))
    : list string :=
  match csv_file (St := unit) (λ _ batch_ids _ acc, ret (acc ++ batch_ids))
          file_path rows [] tt with
  | (Returns ids, _) => ids
  | _ => []
  end.

(** The text payloads the text/log path emits, in order: the streaming
    loop with an [emit] that only records the buffer. *)
Definition stream_payloads (content : text) (chunk_size overlap : Z)
    : list text :=
  match stream_loop (St := unit) (λ _ buffer acc, ret (acc ++ [buffer]))
          chunk_size overlap (split_lines [] content) [] 0 [] tt with
  | (Returns payloads, _) => payloads
  | _ => []
  end.

(** ** Concrete files and worlds *)

(** A text file of the given content, which every encoding decodes. *)
Definition text_file (content : string) : file :=
  {| f_size := Z.of_nat (String.length content);
     f_chardet := Some "ascii";
     f_decode := λ _, Some (s2t content);
     f_csv := None;
     f_is_zipfile := false; f_is_tarfile := false;
     f_members := λ _, None |}.

(** A CSV file whose rows have the given string cells. *)
Definition csv_table (rows : list (list text)) : file :=
  {| f_size := Z.of_nat (length rows);
     f_chardet := Some "ascii";
     f_decode := λ _, Some [];
     f_csv := Some rows;
     f_is_zipfile := false; f_is_tarfile := false;
     f_members := λ _, None |}.

(** A zip archive of the given size with the given members. *)
Definition zip_file (size : Z) (members : tree) : file :=
  {| f_size := size;
     f_chardet := None;
     f_decode := λ _, Some [];
     f_csv := None;
     f_is_zipfile := true; f_is_tarfile := false;
     f_members := λ fmt, match fmt with Zip => Some members | _ => None end |}.

Definition example_fs : filesystem :=
  {| fs_resolve := id;
     fs_node := λ p,
       if String.eqb p "/data/a.txt" then Some (File (text_file "abcdefghij"))
       else if String.eqb p "/data/notes.log" then
         Some (File (text_file ("first line" +:+ String "010" "second line"
                                +:+ String "010" "")))
       else if String.eqb p "/data/t.csv" then
         Some (File (csv_table [[s2t "x"; s2t "y"]; [s2t "u"; s2t "v"];
                                [s2t "p"; s2t "q"]]))
       else if String.eqb p "/data/big.csv" then
         Some (File (csv_table (replicate 1000 [s2t "x"] ++ [[s2t "last"]])))
       else if String.eqb p "/data/pack.zip" then
         Some (File (zip_file 2048
           [("docs/", None);
            ("docs/a.txt", Some (text_file "abcdefghij"));
            ("t.csv", Some (csv_table [[s2t "x"]]));
            ("image.bin", Some (text_file "?"))]))
       else if String.eqb p "/data/exact.zip" then
         Some (File (zip_file (15 * 1024 * 1024)
                       [("a.txt", Some (text_file "abcdefghij"))]))
       else if String.eqb p "/data/huge.zip" then
         Some (File (zip_file (15 * 1024 * 1024 + 1)
                       [("a.txt", Some (text_file "abcdefghij"))]))
       else if String.eqb p "/data/junk.zip" then
         Some (File (zip_file 512 [("image.bin", Some (text_file "?"))]))
       else if String.eqb p "/data/bad.zip" then
         Some (File (zip_file 512
                       [("a.txt", Some (text_file "abcdefghij"));
                        ("broken.csv", Some (text_file "?"))]))
       else if String.eqb p "/data" then
         Some (Dir 4096 ["/data/a.txt"; "/data/notes.log"; "/data/t.csv";
                         "/data/pack.zip"])
       else None |}.

Definition empty_world : world :=
  {| w_store := ∅; w_scratch := ∅; w_next_tmp := 0; w_stdout := [] |}.

(** A first ingestion of a directory and an archive into an empty store. *)
Definition first_run : outcome nat * world :=
  chroma_add_documents_from_files example_fs "c" ["/data"; "/data/pack.zip"]
    4 1 "utf-8" None empty_world.

(** ** Notions used to state and prove the properties *)

Section Windows.
Context {A : Type}.

(** The piece of the text a window covers. *)
Definition window_slice (t : list A) (w : Z * Z) : list A :=
  py_slice t (Some w.1) (Some w.2).

(** The chain of windows the loop walks through from cursor [start]. *)
Inductive windows_from (len size ov : Z) : Z → list (Z * Z) → Prop :=
  | wf_none start :
      (len ≤ start)%Z → windows_from len size ov start []
  | wf_last start :
      (start < len)%Z → (len ≤ start + size)%Z →
      windows_from len size ov start [(start, len)]
  | wf_cons start ws :
      (start + size < len)%Z →
      windows_from len size ov (start + size - ov) ws →
      windows_from len size ov start ((start, start + size)%Z :: ws).
End Windows.

(** [w1] is [w] after scratch directories were created and filled: the
    store and the older scratch directories are as they were. *)
Definition extends (w w1 : world) : Prop :=
  w_store w1 = w_store w
  ∧ w_next_tmp w ≤ w_next_tmp w1
  ∧ ∀ d, d < w_next_tmp w → w_scratch w1 !! d = w_scratch w !! d.

(** What [extract_archive] decides from the file system alone: the
    error it raises or the members it extracts. *)
Definition archive_members (fs : filesystem) (archive_path : string)
    : error + tree :=
  match getsize fs archive_path with
  | None => inl OSError
  | Some size =>
      if (size >? 15 * 1024 * 1024)%Z then inl OversizeArchive
      else
        match fs_node fs archive_path with
        | Some (File f) =>
            let open fmt := from_option inr (inl ExtractionFailed)
                              (f_members f fmt) in
            if f_is_zipfile f then open Zip
            else if f_is_tarfile f then open Tar
            else if endswith (lower (s2t archive_path)) (s2t ".rar")
            then open Rar
            else if endswith (lower (s2t archive_path)) (s2t ".7z")
            then open SevenZ
            else inl UnsupportedArchiveType
        | _ => inl OSError
        end
  end.

(** The member names of a scratch directory, directories replaced by the
    files beneath them. *)
Definition flatten_names (t : tree) (names : list string) : list string :=
  flat_map (λ f, if tree_isdir t f then tree_walk t f else [f]) names.

(** What one input path turns out to be. *)
Inductive path_kind :=
  | Skipped                              (* oversize archive, or nothing *)
  | Plain (files : list string)          (* a file, or the files of a directory *)
  | Archive (r : error + tree).          (* an archive and its extraction *)

Definition classify (fs : filesystem) (path : string) : path_kind :=
  let abs_path := fs_resolve fs path in
  if is_file fs abs_path
     && bool_decide (lower (suffix abs_path) ∈ ARCHIVE_SUFFIXES) then
    if (default 0 (getsize fs abs_path) >? 15 * 1024 * 1024)%Z then Skipped
    else Archive (archive_members fs abs_path)
  else if is_file fs abs_path then Plain [abs_path]
  else match fs_node fs abs_path with
       | Some (Dir _ rglob) => Plain (filter (λ f, is_file fs f) rglob)
       | _ => Skipped
       end.

(** The candidates and the frame after an input path of a given kind. *)
Definition after_path (abs_path : string) (k : path_kind)
    (all_files : list location) (fr : frame) : list location * frame :=
  match k with
  | Skipped => (all_files, fr)
  | Plain files => (all_files ++ (Host <$> files), fr)
  | Archive r =>
      let d := w_next_tmp (fr_world fr) in
      let w := (TemporaryDirectory (fr_world fr)).2 in
      match r with
      | inr members =>
          (all_files ++ (Scratch d <$> flatten_names members members.*1),
           {| fr_temp_dirs := fr_temp_dirs fr ++ [d];
              fr_world := with_scratch (λ sc, <[d := members]> sc) w |})
      | inl e =>
          (all_files,
           {| fr_temp_dirs := fr_temp_dirs fr ++ [d];
              fr_world := (print (abs_path, e) w).2 |})
      end
  end.

(** The candidates that are ingested. *)
Definition vectorizable_of (all_files : list location) : list location :=
  filter (λ f, lower (suffix (path_str f)) ∈ VECTORIZABLE_SUFFIXES) all_files.

(** The ids present in a collection of the store. *)
Definition ids_in (st : gmap string (gmap string document)) (name : string)
    : gset string :=
  dom (collection_of st name).

(** What it means for a step [m] of the ingestion, which threads
    [total_added] through the store of collection [name], to insert or
    update the records of the ids [ids]: it touches no other collection;
    when it returns, the ids are present and no id was lost; when the ids
    are all present already, it returns, has added nothing and the ids
    present are the same. *)
Definition upserts (name : string) (ids : list string)
    (m : nat → M (gmap string (gmap string document)) nat) : Prop :=
  (∀ total st r st', m total st = (r, st') →
     ∀ other, other ≠ name → st' !! other = st !! other)
  ∧ (∀ total st total' st', m total st = (Returns total', st') →
       (∀ id, id ∈ ids → id ∈ ids_in st' name)
       ∧ ids_in st name ⊆ ids_in st' name)
  ∧ (∀ total st, (∀ id, id ∈ ids → id ∈ ids_in st name) →
       ∃ st', m total st = (Returns total, st')
              ∧ ids_in st' name = ids_in st name).

(** The ids the CSV path gives the rows of a file: per chunk of rows, per
    batch of the chunk. *)
Definition row_ids (file_stem : string) (n : nat) : list string :=
  (λ i, file_stem +:+ "_row_" +:+ dec i) <$> seq 0 n.

Definition ids_of_chunk (file_stem : string) (chunk : list (list text))
    : list string :=
  flat_map (λ i, take BATCH_SIZE (drop i (row_ids file_stem (length chunk))))
    (range_step (length chunk) BATCH_SIZE).

Definition ids_of_csv (file_stem : string) (rows : list (list text))
    : list string :=
  flat_map (ids_of_chunk file_stem) (read_csv_chunks CSV_CHUNK_ROWS rows).

(** The ids the text/log path gives the chunks of a file. *)
Fixpoint ids_of_stream (file_stem : string) (chunk_size overlap : Z)
    (lines : list text) (buffer : text) (chunk_idx : nat) : list string :=
  match lines with
  | [] =>
      if negb (py_not buffer) then [file_stem +:+ "_chunk_" +:+ dec chunk_idx]
      else []
  | line :: lines =>
      let buffer := buffer ++ line in
      if (py_len buffer >=? chunk_size)%Z then
        (file_stem +:+ "_chunk_" +:+ dec chunk_idx)
        :: ids_of_stream file_stem chunk_size overlap lines
             (if (overlap >? 0)%Z
              then py_slice buffer (Some (- overlap)%Z) None else [])
             (S chunk_idx)
      else ids_of_stream file_stem chunk_size overlap lines buffer chunk_idx
  end.

(** The ids of the records of a candidate file, if it can be read. *)
Definition ids_of_file (read : location → option file)
    (chunk_size overlap : Z) (encoding : string) (file_path : location)
    : option (list string) :=
  let file_stem := stem (path_str file_path) in
  if bool_decide (lower (suffix (path_str file_path)) = s2t ".csv") then
    f ← read file_path; rows ← f_csv f; Some (ids_of_csv file_stem rows)
  else
    f ← read file_path;
    content ← f_decode f (detect_encoding f encoding);
    Some (ids_of_stream file_stem chunk_size overlap
            (split_lines [] content) [] 0).

(** Two candidates, of two runs, that are the same file: the same path of
    the caller's file system, or the same member of scratch directories
    with the same contents. *)
Definition same_file (w w' : world) (l l' : location) : Prop :=
  match l, l' with
  | Host p, Host p' => p = p'
  | Scratch d rel, Scratch d' rel' =>
      rel = rel' ∧ d < w_next_tmp w ∧ d' < w_next_tmp w'
      ∧ w_scratch w !! d = w_scratch w' !! d'
  | _, _ => False
  end.

(** ** Further traces of the text/log path *)

(** The chunks the text/log path emits, each with its [chunk_idx]: the
    streaming loop with an [emit] that records both. *)
Definition stream_chunks (content : text) (chunk_size overlap : Z)
    : list (nat * text) :=
  match stream_loop (St := unit)
          (λ chunk_idx buffer acc, ret (acc ++ [(chunk_idx, buffer)]))
          chunk_size overlap (split_lines [] content) [] 0 [] tt with
  | (Returns chunks, _) => chunks
  | _ => []
  end.

(** What the streaming loop emits from a given point on, as a function
    of the lines left, the buffer and the index. *)
Fixpoint stream_trace (chunk_size overlap : Z) (lines : list text)
    (buffer : text) (chunk_idx : nat) : list (nat * text) :=
  match lines with
  | [] => if negb (py_not buffer) then [(chunk_idx, buffer)] else []
  | line :: lines =>
      let buffer := buffer ++ line in
      if (py_len buffer >=? chunk_size)%Z then
        (chunk_idx, buffer)
        :: stream_trace chunk_size overlap lines
             (if (overlap >? 0)%Z
              then py_slice buffer (Some (- overlap)%Z) None else [])
             (S chunk_idx)
      else stream_trace chunk_size overlap lines buffer chunk_idx
  end.

(** ** Further traces of the CSV path *)

(** The records [(document, (id, metadata))] a CSV file yields, in
    order: the CSV loops with an [upload] that only records the records of
    each batch. *)
Definition csv_records (file_path : string) (rows : list (list text))
    : list (text * (string * metadata)) :=
  match csv_file (St := unit)
          (λ batch_docs batch_ids batch_metadatas acc,
             ret (acc ++ zip batch_docs (zip batch_ids batch_metadatas)))
          file_path rows [] tt with
  | (Returns records, _) => records
  | _ => []
  end.

(** ** The file finders: [find_text_log_files], [find_vectorizable_files] *)

(** [find_text_log_files]: the [.txt] and [.log] files among the paths,
    directories searched recursively. *)
Definition find_text_log_files (fs : filesystem) (paths : list string)
    : list string :=
  foldl (λ result_files path,
           let abs_path := fs_resolve fs path in
           if is_file fs abs_path
              && bool_decide (lower (suffix abs_path)
                              ∈ s2t <$> [".txt"; ".log"]) then
             result_files ++ [abs_path]
           else if is_dir fs abs_path then
             match fs_node fs abs_path with
             | Some (Dir _ rglob) =>
                 foldl (λ result_files file,
                          if is_file fs file
                             && bool_decide (lower (suffix file)
                                             ∈ s2t <$> [".txt"; ".log"])
                          then result_files ++ [file] else result_files)
                   result_files rglob
             | _ => result_files
             end
           else result_files)
    [] paths.

(** [find_vectorizable_files]: the same for [.csv], [.txt] and [.log]. *)
Definition find_vectorizable_files (fs : filesystem) (paths : list string)
    : list string :=
  foldl (λ result_files path,
           let abs_path := fs_resolve fs path in
           if is_file fs abs_path
              && bool_decide (lower (suffix abs_path)
                              ∈ s2t <$> [".csv"; ".txt"; ".log"]) then
             result_files ++ [abs_path]
           else if is_dir fs abs_path then
             match fs_node fs abs_path with
             | Some (Dir _ rglob) =>
                 foldl (λ result_files file,
                          if is_file fs file
                             && bool_decide (lower (suffix file)
                                             ∈ s2t <$> [".csv"; ".txt"; ".log"])
                          then result_files ++ [file] else result_files)
                   result_files rglob
             | _ => result_files
             end
           else result_files)
    [] paths.

(** The path of a candidate that lies in the caller's file system. *)
Definition host_path (l : location) : option string :=
  match l with
  | Host p => Some p
  | Scratch _ _ => None
  end.

(** ** Accounting *)

(** What it means for a step [m] of the ingestion to keep the count: when
    it returns, [total_added] has grown by the number of records by which
    the collection [name] has grown; it raises nothing but a failure to
    read the file it is given; and it ends. *)
Definition counts (name : string)
    (m : nat → M (gmap string (gmap string document)) nat) : Prop :=
  ∀ total st r st', m total st = (r, st') →
    match r with
    | Returns total' =>
        total ≤ total'
        ∧ size (collection_of st' name)
          = size (collection_of st name) + (total' - total)
    | Raises e => e ∈ [OSError; CsvReadFailed; UnknownEncoding]
    | OutOfFuel => False
    end.

(** ** Thought data: [validate_thought_data] *)

(** The Python values the validation tells apart: [None], a [bool], an
    [int], a [str], or any other object, of which only the truth value
    matters. *)
Inductive py_value :=
  | PyNone
  | PyBool (b : bool)
  | PyInt (i : Z)
  | PyStr (s : string)
  | PyOther (truth : bool).

(** [bool(v)], as [not v] reads it. *)
Definition truthy (v : py_value) : bool :=
  match v with
  | PyNone => false
  | PyBool b => b
  | PyInt i => negb (i =? 0)%Z
  | PyStr s => negb (String.eqb s "")
  | PyOther truth => truth
  end.

(** [isinstance(v, str)], [isinstance(v, int)] (a [bool] is an [int]) and
    [isinstance(v, bool)]. *)
Definition isinstance_str (v : py_value) : bool :=
  match v with PyStr _ => true | _ => false end.
Definition isinstance_int (v : py_value) : bool :=
  match v with PyInt _ | PyBool _ => true | _ => false end.
Definition isinstance_bool (v : py_value) : bool :=
  match v with PyBool _ => true | _ => false end.

(** [d.get(key)]: the value, [None] when the key is missing. *)
Definition dict_get (d : gmap string py_value) (key : string) : py_value :=
  default PyNone (d !! key).

(** The [ValueError]s of the validation, one per [raise]. *)
Inductive thought_error :=
  | InvalidSessionId
  | InvalidThought
  | InvalidThoughtNumber
  | InvalidTotalThoughts
  | InvalidNextThoughtNeeded.

(** [validate_thought_data] *)
Definition validate_thought_data (input_data : gmap string py_value)
    : thought_error + gmap string py_value :=
  if negb (truthy (dict_get input_data "sessionId")) then inl InvalidSessionId
  else if negb (truthy (dict_get input_data "thought"))
          || negb (isinstance_str (dict_get input_data "thought")) then
    inl InvalidThought
  else if negb (truthy (dict_get input_data "thoughtNumber"))
          || negb (isinstance_int (dict_get input_data "thoughtNumber")) then
    inl InvalidThoughtNumber
  else if negb (truthy (dict_get input_data "totalThoughts"))
          || negb (isinstance_int (dict_get input_data "totalThoughts")) then
    inl InvalidTotalThoughts
  else if negb (isinstance_bool (dict_get input_data "nextThoughtNeeded")) then
    inl InvalidNextThoughtNeeded
  else
    inr (list_to_map
           [("sessionId", dict_get input_data "sessionId");
            ("thought", dict_get input_data "thought");
            ("thoughtNumber", dict_get input_data "thoughtNumber");
            ("totalThoughts", dict_get input_data "totalThoughts");
            ("nextThoughtNeeded", dict_get input_data "nextThoughtNeeded");
            ("isRevision", dict_get input_data "isRevision");
            ("revisesThought", dict_get input_data "revisesThought");
            ("branchFromThought", dict_get input_data "branchFromThought");
            ("branchId", dict_get input_data "branchId");
            ("needsMoreThoughts", dict_get input_data "needsMoreThoughts")]).

(** The keys of a validated thought. *)
Definition THOUGHT_KEYS : list string :=
  ["sessionId"; "thought"; "thoughtNumber"; "totalThoughts";
   "nextThoughtNeeded"; "isRevision"; "revisesThought"; "branchFromThought";
   "branchId"; "needsMoreThoughts"].

(** ** The client: [get_chroma_client] *)

(** The parsed arguments the function reads ([argparse.Namespace]); an
    argument that was not given and has no default in the environment is
    [None]. *)
Record client_args := {
  client_type : string;
  data_dir : option string;
  host : option string;
  port : option string;
  custom_auth_credentials : option string;
  tenant : option string;
  database : option string;
  api_key : option string;
  ssl : bool;
  dotenv_path : string;
}.

(** Truth value of an optional string: [None] and [''] are false. *)
Definition given (o : option string) : bool :=
  match o with
  | Some s => negb (String.eqb s "")
  | None => false
  end.

(** The clients the function asks chromadb for, with the arguments it
    passes. *)
Inductive auth_settings :=
  | DefaultSettings                       (* Settings() *)
  | BasicAuth (credentials : string).     (* BasicAuthClientProvider *)

Inductive client_request :=
  | HttpClient (host : string) (port : string + Z) (ssl : bool)
      (settings : auth_settings)
  | CloudClient (tenant database api_key : string)
      (* HttpClient(host="api.trychroma.com", ssl=True, tenant=..,
         database=.., headers={'x-chroma-token': api_key}) *)
  | PersistentClient (path : string)
  | EphemeralClient.

(** What a request comes to: a client, an [ssl.SSLError], or another
    exception. *)
Inductive connection (client : Type) :=
  | Connected (c : client)
  | SSLError
  | ConnectionError.
Arguments Connected {client} c.
Arguments SSLError {client}.
Arguments ConnectionError {client}.

(** What a call does besides returning: it loads the dotenv file, asks
    for a client, prints. *)
Inductive client_event :=
  | DotenvLoaded (path : string)
  | Request (r : client_request)
  | StdoutSSLFailed                 (* "SSL connection failed: ..." *)
  | StdoutHttpError                 (* "Error connecting to HTTP client: ..." *)
  | StdoutCloudError.               (* "Error connecting to cloud client: ..." *)

(** The exceptions of the function: its [ValueError]s, the exit of
    [parse_args] on a command line it rejects, and the exceptions of
    chromadb, which it lets through. *)
Inductive client_error :=
  | ArgumentsRejected
  | HostMissing
  | TenantMissing
  | DatabaseMissing
  | ApiKeyMissing
  | DataDirMissing
  | SSLFailed
  | ConnectFailed.

(** The module-level [_chroma_client], and the events so far. *)
Record client_state (client : Type) := {
  chroma_client : option client;
  client_events : list client_event;
}.
Arguments chroma_client {client} _.
Arguments client_events {client} _.

Section Client.
Context {client : Type}.
(** chromadb, as the function sees it; and what [create_parser().
    parse_args()] makes of the command line and the environment ([None]:
    it exits). *)
Variable connect : client_request → connection client.
Variable command_line : option client_args.

Definition client_log (e : client_event) (s : client_state client)
    : client_state client :=
  {| chroma_client := chroma_client s;
     client_events := client_events s ++ [e] |}.

(** [_chroma_client = <request>]: the request is made, and the client is
    kept if there is one. *)
Definition client_assign (r : client_request) (s : client_state client)
    : connection client * client_state client :=
  let s := client_log (Request r) s in
  match connect r with
  | Connected c =>
      (Connected c, {| chroma_client := Some c;
                       client_events := client_events s |})
  | failure => (failure, s)
  end.

(** The [try ... except ssl.SSLError ... except Exception ...] around
    the two HTTP requests; both handlers print and re-raise. *)
Definition client_guarded (r : client_request) (on_error : client_event)
    (s : client_state client) : (client_error + client) * client_state client :=
  match client_assign r s with
  | (Connected c, s) => (inr c, s)
  | (SSLError, s) => (inl SSLFailed, client_log StdoutSSLFailed s)
  | (ConnectionError, s) => (inl ConnectFailed, client_log on_error s)
  end.

(** [get_chroma_client] *)
Definition get_chroma_client (args : option client_args)
    (s : client_state client) : (client_error + client) * client_state client :=
  match chroma_client s with
  | Some c => (inr c, s)
  | None =>
      match (match args with Some a => Some a | None => command_line end) with
      | None => (inl ArgumentsRejected, s)
      | Some args =>
          (* Load environment variables from .env file if it exists *)
          let s := client_log (DotenvLoaded (dotenv_path args)) s in
          if String.eqb (client_type args) "http" then
            if negb (given (host args)) then (inl HostMissing, s)
            else
              let settings :=
                if given (custom_auth_credentials args)
                then BasicAuth (default "" (custom_auth_credentials args))
                else DefaultSettings in
              client_guarded
                (HttpClient (default "" (host args))
                   (if given (port args) then inl (default "" (port args))
                    else inr 8000%Z)
                   (ssl args) settings)
                StdoutHttpError s
          else if String.eqb (client_type args) "cloud" then
            if negb (given (tenant args)) then (inl TenantMissing, s)
            else if negb (given (database args)) then (inl DatabaseMissing, s)
            else if negb (given (api_key args)) then (inl ApiKeyMissing, s)
            else
              client_guarded
                (CloudClient (default "" (tenant args))
                   (default "" (database args)) (default "" (api_key args)))
                StdoutCloudError s
          else if String.eqb (client_type args) "persistent" then
            if negb (given (data_dir args)) then (inl DataDirMissing, s)
            else
              match client_assign
                      (PersistentClient (default "" (data_dir args))) s with
              | (Connected c, s) => (inr c, s)
              | (SSLError, s) => (inl SSLFailed, s)
              | (ConnectionError, s) => (inl ConnectFailed, s)
              end
          else (* ephemeral *)
            match client_assign EphemeralClient s with
            | (Connected c, s) => (inr c, s)
            | (SSLError, s) => (inl SSLFailed, s)
            | (ConnectionError, s) => (inl ConnectFailed, s)
            end
      end
  end.
End Client.

(** * Properties *)

Section ChunkerFacts.
Context {A : Type}.
Implicit Types (t : list A) (ws : list (Z * Z)).

Lemma chunk_loop_map {B C} (f : B → C) (emit : Z → Z → B) fuel len size ov
    start acc :
  chunk_loop (λ s e, f (emit s e)) fuel len size ov start (map f acc)
  = map f <$> chunk_loop emit fuel len size ov start acc.
Proof.
  revert start acc. induction fuel as [|fuel IH]; intros start acc; [done|].
  simpl. destruct (start <? len)%Z; [|done].
  replace (map f acc ++ [f (emit start (Z.min (start + size) len))])
    with (map f (acc ++ [emit start (Z.min (start + size) len)]))
    by (by rewrite map_app).
  destruct (_ =? _)%Z; [done|]. apply IH.
Qed.


Lemma chunk_loop_windows fuel len size ov start acc :
  (0 < size)%Z → (ov < size)%Z →
  (Z.max 0 (len - start) < Z.of_nat fuel)%Z →
  ∃ ws, chunk_loop pair fuel len size ov start acc = Some (acc ++ ws)
        ∧ windows_from len size ov start ws.
Proof.
  intros Hsize Hov. revert start acc.
  induction fuel as [|fuel IH]; intros start acc Hfuel.
  - lia.
  - simpl. destruct (Z.ltb_spec start len) as [Hlt|Hge].
    + destruct (Z.eqb_spec (Z.min (start + size) len) len) as [Heq|Hne].
      * exists [(start, len)]. split; [by rewrite Heq|].
        apply wf_last; lia.
      * destruct (IH (Z.min (start + size) len - ov)%Z
                     (acc ++ [(start, Z.min (start + size) len)]))
          as (ws & Hrun & Hws); [lia|].
        exists ((start, start + size)%Z :: ws). split.
        -- rewrite Hrun, <- app_assoc. simpl.
           by replace (Z.min (start + size) len) with (start + size)%Z by lia.
        -- apply wf_cons; [lia|].
           by replace (Z.min (start + size) len) with (start + size)%Z
             in Hws by lia.
    + exists []. split; [by rewrite app_nil_r|]. by constructor.
Qed.
End ChunkerFacts.

Section ChunkerProps.
Context {A : Type}.
Implicit Types (t : list A) (ws : list (Z * Z)).


Lemma py_slice_window t s e :
  (0 ≤ s)%Z → (s ≤ e)%Z → (e ≤ py_len t)%Z →
  py_slice t (Some s) (Some e)
  = take (Z.to_nat (e - s)) (drop (Z.to_nat s) t).
Proof.
  intros Hs Hse He. unfold py_slice, slice_index. simpl.
  destruct (Z.ltb_spec s 0), (Z.ltb_spec e 0); try lia.
  rewrite !Z.min_l by lia. done.
Qed.

Lemma length_py_slice_window t s e :
  (0 ≤ s)%Z → (s ≤ e)%Z → (e ≤ py_len t)%Z →
  py_len (py_slice t (Some s) (Some e)) = (e - s)%Z.
Proof.
  intros Hs Hse He. rewrite py_slice_window by done.
  unfold py_len in *. rewrite length_take, length_drop. lia.
Qed.

(** Every window lies inside the text, is non-empty and at most
    [size] long. *)
Lemma windows_from_bounds len size ov start ws :
  (0 < size)%Z → (0 ≤ ov < size)%Z → (0 ≤ start)%Z →
  windows_from len size ov start ws →
  Forall (λ w, 0 ≤ w.1 ∧ w.1 < w.2 ∧ w.2 ≤ len ∧ w.2 - w.1 ≤ size)%Z ws.
Proof.
  intros Hsize Hov Hstart Hws.
  induction Hws as [start _|start Hlt Hle|start ws Hlt Hws IH].
  - constructor.
  - repeat constructor; simpl; lia.
  - constructor; [simpl; lia|]. apply IH. lia.
Qed.

(** Every window but the last is exactly [size] long. *)
Lemma windows_from_full len size ov start ws i w :
  windows_from len size ov start ws →
  ws !! i = Some w → S i < length ws → (w.2 - w.1 = size)%Z.
Proof.
  intros Hws. revert i.
  induction Hws as [start _|start Hlt Hle|start ws Hlt Hws IH];
    intros i Hi Hnot_last.
  - done.
  - simpl in Hnot_last. lia.
  - destruct i as [|i]; simpl in *.
    + injection Hi as <-. simpl. lia.
    + apply (IH i); [done|lia].
Qed.

(** The chain is empty exactly when the cursor is at or past the end,
    and otherwise its last window ends at the end of the text. *)
Lemma windows_from_last len size ov start ws :
  (0 ≤ ov)%Z → windows_from len size ov start ws →
  (start < len)%Z → ∃ ws' s, ws = ws' ++ [(s, len)].
Proof.
  intros Hov.
  induction 1 as [start Hge|start Hlt Hle|start ws Hlt Hws IH]; intros Hstart.
  - lia.
  - by exists [], start.
  - destruct IH as (ws' & s & ->).
    + lia.
    + by exists ((start, start + size)%Z :: ws'), s.
Qed.

Lemma windows_from_nil len size ov start ws :
  (0 < size)%Z →
  windows_from len size ov start ws → (len ≤ start)%Z → ws = [].
Proof. intros Hsize Hws Hge. inversion Hws; subst; [done|lia..]. Qed.

Lemma windows_from_head len size ov start ws :
  windows_from len size ov start ws → (start < len)%Z →
  ∃ rest, ws = (start, Z.min (start + size) len) :: rest.
Proof.
  intros Hws Hlt. inversion Hws; subst; [lia|..].
  - exists []. do 2 f_equal. lia.
  - eexists. do 2 f_equal. lia.
Qed.

(** The pieces from cursor [start] on, glued with their overlaps
    dropped, are the text from [start] on. *)
Lemma windows_from_reconstruct t size ov start ws :
  (0 < size)%Z → (0 ≤ ov < size)%Z → (0 ≤ start)%Z →
  windows_from (py_len t) size ov start ws →
  reconstruct ov (map (window_slice t) ws) = drop (Z.to_nat start) t.
Proof.
  intros Hsize Hov Hstart Hws.
  induction Hws as [start Hge|start Hlt Hle|start ws Hlt Hws IH].
  - simpl. rewrite drop_ge; [done|]. unfold py_len in Hge. lia.
  - simpl. rewrite app_nil_r. unfold window_slice. simpl.
    rewrite py_slice_window by lia. apply take_ge.
    rewrite length_drop. unfold py_len. lia.
  - specialize (IH ltac:(lia)).
    destruct (windows_from_head _ _ _ _ _ Hws) as [rest ->]; [lia|].
    cbn [map reconstruct] in *.
    change (concat (?x :: ?l)) with (x ++ concat l).
    rewrite <- drop_app_le.
    + rewrite IH, drop_drop.
      unfold window_slice. cbn [fst snd].
      rewrite py_slice_window by lia.
      replace (Z.to_nat (start + size - ov) + Z.to_nat ov)
        with (Z.to_nat start + Z.to_nat (start + size - start)) by lia.
      rewrite <- drop_drop. apply take_drop.
    + unfold window_slice. cbn [fst snd].
      pose proof (length_py_slice_window t (start + size - ov)
        (Z.min (start + size - ov + size) (py_len t))) as Hlen.
      unfold py_len in *. lia.
Qed.
End ChunkerProps.

Section ChunkerTheorems.
Context {A : Type}.
Implicit Types (t : list A) (ws : list (Z * Z)).

(** With valid parameters and fuel beyond the length of the text, the
    loop ends, and its result is the slices of the windows it visited. *)
Lemma chunk_text_runs fuel t size ov :
  (0 < size)%Z → (0 ≤ ov < size)%Z → length t < fuel →
  ∃ ws, windows_from (py_len t) size ov 0 ws
        ∧ chunk_windows fuel t size ov = Returns ws
        ∧ chunk_text fuel t size ov = Returns (map (window_slice t) ws).
Proof.
  intros Hsize Hov Hfuel.
  destruct (chunk_loop_windows fuel (py_len t) size ov 0 [])
    as (ws & Hrun & Hws); [lia..|unfold py_len; lia|].
  exists ws. split; [done|].
  unfold chunk_windows, chunk_text, chunk_guard.
  destruct (Z.leb_spec size 0); [lia|].
  destruct (Z.ltb_spec ov 0); [lia|].
  pose proof (chunk_loop_map (window_slice t) pair fuel (py_len t)
                size ov 0 []) as Hmap.
  unfold window_slice in Hmap at 1. simpl in Hmap.
  rewrite Hmap, Hrun. done.
Qed.

(** C1, as amended: for every text [t] of length [L], every [size > 0]
    and every [0 <= overlap < size], [chunk_text] returns the slices of an
    ordered sequence of windows such that concatenating the pieces, the
    leading [overlap] characters of every piece after the first dropped,
    gives back [t]; when [t] is not empty the sequence is not empty and
    its last window ends at index [L]; when [t] is empty the sequence is
    empty. *)
Theorem chunk_text_reconstructs fuel t size ov :
  (0 < size)%Z → (0 ≤ ov < size)%Z → length t < fuel →
  ∃ ws, chunk_windows fuel t size ov = Returns ws
        ∧ chunk_text fuel t size ov = Returns (map (window_slice t) ws)
        ∧ reconstruct ov (map (window_slice t) ws) = t
        ∧ (t ≠ [] → ∃ ws' start, ws = ws' ++ [(start, py_len t)])
        ∧ (t = [] → ws = []).
Proof.
  intros Hsize Hov Hfuel.
  destruct (chunk_text_runs fuel t size ov) as (ws & Hws & Hw & Hc);
    [done..|].
  exists ws. split_and!; [done|done|..].
  - by rewrite (windows_from_reconstruct t size ov 0 ws).
  - intros Ht. apply (windows_from_last _ size ov 0); [lia|done|].
    destruct t; [done|]. unfold py_len. simpl. lia.
  - intros ->. by apply (windows_from_nil 0 size ov 0).
Qed.

(** C8: for every text, every [size > 0] and every [0 <= overlap < size],
    every element of [chunk_text]'s result is a non-empty string of
    length at most [size], and every element except the last has length
    exactly [size]. *)
Theorem chunk_text_piece_lengths fuel t size ov :
  (0 < size)%Z → (0 ≤ ov < size)%Z → length t < fuel →
  ∃ chunks, chunk_text fuel t size ov = Returns chunks
    ∧ Forall (λ c, 0 < py_len c ∧ py_len c ≤ size)%Z chunks
    ∧ ∀ i c, chunks !! i = Some c → S i < length chunks →
             py_len c = size.
Proof.
  intros Hsize Hov Hfuel.
  destruct (chunk_text_runs fuel t size ov) as (ws & Hws & _ & Hc);
    [done..|].
  exists (map (window_slice t) ws). split; [done|].
  pose proof (windows_from_bounds _ _ _ _ _ Hsize Hov (Z.le_refl 0) Hws)
    as Hbounds.
  split.
  - apply Forall_map. eapply Forall_impl; [exact Hbounds|].
    intros [s e]; simpl. intros (Hs & Hse & He & Hlen).
    unfold window_slice; simpl.
    rewrite length_py_slice_window; lia.
  - intros i c Hi Hnot_last. rewrite length_map in Hnot_last.
    rewrite list_lookup_fmap in Hi.
    destruct (ws !! i) as [[s e]|] eqn:Hw; [|done].
    injection Hi as <-.
    pose proof (windows_from_full _ _ _ _ _ _ _ Hws Hw Hnot_last) as Hfull.
    rewrite Forall_lookup in Hbounds.
    destruct (Hbounds _ _ Hw) as (Hs & Hse & He & _). simpl in *.
    unfold window_slice; simpl.
    rewrite length_py_slice_window; lia.
Qed.
End ChunkerTheorems.

Lemma chunk_text_reconstructs_witness :
  ∃ ws, chunk_windows 11 (s2t "abcdefghij") 4 1 = Returns ws
        ∧ chunk_text 11 (s2t "abcdefghij") 4 1
          = Returns (map (window_slice (s2t "abcdefghij")) ws)
        ∧ reconstruct 1 (map (window_slice (s2t "abcdefghij")) ws)
          = s2t "abcdefghij"
        ∧ (s2t "abcdefghij" ≠ [] →
           ∃ ws' start, ws = ws' ++ [(start, py_len (s2t "abcdefghij"))])
        ∧ (s2t "abcdefghij" = [] → ws = []).
Proof.
  apply (chunk_text_reconstructs 11 (s2t "abcdefghij") 4 1);
    [lia | lia | simpl; lia].
Defined.

(** The worked example of the specification. *)
Example chunk_text_worked_example :
  chunk_text 11 (s2t "abcdefghij") 4 1
  = Returns [s2t "abcd"; s2t "defg"; s2t "ghij"]
  ∧ chunk_text 11 (s2t "abcdefghij") 4 0
    = Returns [s2t "abcd"; s2t "efgh"; s2t "ij"].
Proof. split; reflexivity. Qed.

(** C1 as stated fails on the empty text: the loop guard
    [start < text_length] is false at once and no piece is produced. *)
Lemma chunk_text_empty_text :
  chunk_text 1 (s2t "") 4 1 = Returns []
  ∧ ¬ (∃ chunks, chunk_text 1 (s2t "") 4 1 = Returns chunks ∧ chunks ≠ []).
Proof.
  split; [reflexivity|]. intros (chunks & Hrun & Hne).
  vm_compute in Hrun. congruence.
Qed.

Lemma chunk_text_piece_lengths_witness :
  ∃ chunks, chunk_text 11 (s2t "abcdefghij") 4 1 = Returns chunks
    ∧ Forall (λ c, 0 < py_len c ∧ py_len c ≤ 4)%Z chunks
    ∧ ∀ i c, chunks !! i = Some c → S i < length chunks → py_len c = 4%Z.
Proof.
  apply (chunk_text_piece_lengths 11 (s2t "abcdefghij") 4 1);
    [lia | lia | simpl; lia].
Defined.

(** ** The document tools *)

Lemma py_not_true {A} (xs : list A) : py_not xs = true ↔ xs = [].
Proof. by destruct xs. Qed.

Lemma py_not_false {A} (xs : list A) : py_not xs = false ↔ xs ≠ [].
Proof. by destruct xs. Qed.

Lemma elem_of_collection_ids (c : gmap string document) (id : string) :
  id ∈ (map_to_list c).*1 ↔ is_Some (c !! id).
Proof.
  rewrite list_elem_of_fmap. split.
  - intros ([id' d] & -> & Hin). apply elem_of_map_to_list in Hin. by exists d.
  - intros [d Hd]. exists (id, d). split; [done|].
    by apply elem_of_map_to_list.
Qed.

Lemma collection_of_is_Some (st : gmap string (gmap string document))
    (name id : string) :
  is_Some (collection_of st name !! id) → is_Some (st !! name).
Proof.
  unfold collection_of. destruct (st !! name); [by eexists|].
  simpl. rewrite lookup_empty. by intros [? ?].
Qed.

(** C9: if the documents list is empty, the ids list is empty, an id is
    empty or only whitespace, the numbers of ids and of documents differ,
    or an id is already present in the collection, then
    [chroma_add_documents] raises and leaves the store, and so the
    collection's contents, as they were: the store's add operation is not
    reached. *)
Theorem chroma_add_documents_rejects (collection_name : string)
    (documents : list text) (ids : list string)
    (metadatas : option (list metadata))
    (st : gmap string (gmap string document)) :
  documents = []
  ∨ ids = []
  ∨ (∃ id, id ∈ ids ∧ strip (s2t id) = [])
  ∨ length ids ≠ length documents
  ∨ (∃ id, id ∈ ids ∧ is_Some (collection_of st collection_name !! id)) →
  ∃ e, chroma_add_documents collection_name documents ids metadatas st
       = (Raises e, st).
Proof.
  intros Hbad. unfold chroma_add_documents.
  destruct (py_not documents) eqn:Hdocs; [by eexists|].
  destruct (py_not ids) eqn:Hids; [by eexists|].
  destruct (existsb _ ids) eqn:Hblank; [by eexists|].
  destruct (length ids =? length documents) eqn:Hlen; [|by eexists].
  simpl.
  apply py_not_false in Hdocs, Hids. apply Nat.eqb_eq in Hlen.
  destruct Hbad as [?|[?|[(id & Hin & Hstrip)|[?|(id & Hin & Hpresent)]]]];
    try done.
  - (* a blank id would have been caught *)
    apply not_true_iff_false in Hblank. exfalso. apply Hblank.
    apply existsb_exists. exists id. split; [by apply list_elem_of_In|].
    by rewrite Hstrip.
  - (* an id that is already present *)
    destruct (collection_of_is_Some _ _ _ Hpresent) as [c Hc].
    unfold try_except, bind, get_or_create_collection, collection_get_ids.
    rewrite Hc.
    destruct (filter _ ids) as [|dup dups] eqn:Hdups; [|by eexists].
    exfalso.
    assert (Hid : id ∈ filter
              (λ id, id ∈ (map_to_list (collection_of st collection_name)).*1)
              ids).
    { apply list_elem_of_filter. split; [|done].
      by apply elem_of_collection_ids. }
    rewrite Hdups in Hid. by apply elem_of_nil in Hid.
Qed.

Lemma chroma_add_documents_rejects_witness :
  ∃ e, chroma_add_documents "c" [s2t "text"] ["  "] None ∅ = (Raises e, ∅).
Proof.
  apply (chroma_add_documents_rejects "c" [s2t "text"] ["  "] None ∅).
  right. right. left. exists "  ". split; [by apply list_elem_of_here|].
  reflexivity.
Defined.

(** Each of the five rejections on a concrete call. *)
Example chroma_add_documents_rejections :
  let st : gmap string (gmap string document) :=
    {[ "c" := {[ "k" := {| doc_text := s2t "old"; doc_meta := None |} ]} ]} in
  chroma_add_documents "c" [] ["a"] None st = (Raises EmptyDocuments, st)
  ∧ chroma_add_documents "c" [s2t "d"] [] None st = (Raises EmptyIds, st)
  ∧ chroma_add_documents "c" [s2t "d"] [" "] None st = (Raises BlankId, st)
  ∧ chroma_add_documents "c" [s2t "d"] ["a"; "b"] None st
    = (Raises LengthMismatch, st)
  ∧ chroma_add_documents "c" [s2t "d"; s2t "e"] ["a"; "k"] None st
    = (Raises (AddFailed (DuplicateIds ["k"])), st).
Proof. vm_compute. repeat split. Qed.

(** ** Archive extraction *)

Lemma bind_Returns {St A B} (m : M St A) (k : A → M St B) s a s' :
  m s = (Returns a, s') → bind m k s = k a s'.
Proof. unfold bind. by intros ->. Qed.

Lemma bind_Raises {St A B} (m : M St A) (k : A → M St B) s e s' :
  m s = (Raises e, s') → bind m k s = (Raises e, s').
Proof. unfold bind. by intros ->. Qed.

(** C6: [extract_archive] raises [OversizeArchive] if and only if the size
    of the archive in bytes strictly exceeds 15 * 1024 * 1024; so an
    archive of exactly 15 * 1024 * 1024 bytes passes the size check and one
    of 15 * 1024 * 1024 + 1 bytes is rejected. *)
Theorem extract_archive_oversize (fs : filesystem) (archive_path : string)
    (extract_dir : nat) (w : world) :
  ((extract_archive fs archive_path extract_dir w).1 = Raises OversizeArchive
   ↔ ∃ size, getsize fs archive_path = Some size
             ∧ (size > 15 * 1024 * 1024)%Z)
  ∧ (getsize fs archive_path = Some (15 * 1024 * 1024)%Z →
     (extract_archive fs archive_path extract_dir w).1
     ≠ Raises OversizeArchive)
  ∧ (getsize fs archive_path = Some (15 * 1024 * 1024 + 1)%Z →
     extract_archive fs archive_path extract_dir w
     = (Raises OversizeArchive, w)).
Proof.
  assert (Hpass : ∀ size, getsize fs archive_path = Some size →
            (size ≤ 15 * 1024 * 1024)%Z →
            (extract_archive fs archive_path extract_dir w).1
            ≠ Raises OversizeArchive).
  { intros size Hsize Hle. unfold extract_archive. rewrite Hsize.
    destruct (Z.gtb_spec size (15 * 1024 * 1024)); [lia|].
    destruct (fs_node fs archive_path) as [[f|dsize rglob]|]; [|done..].
    unfold bind, extractall, modify, get_state, raise, ret.
    repeat case_match; simplify_eq; done. }
  assert (Hfail : ∀ size, getsize fs archive_path = Some size →
            (size > 15 * 1024 * 1024)%Z →
            extract_archive fs archive_path extract_dir w
            = (Raises OversizeArchive, w)).
  { intros size Hsize Hgt. unfold extract_archive. rewrite Hsize.
    by destruct (Z.gtb_spec size (15 * 1024 * 1024)); [|lia]. }
  split_and!.
  - split.
    + intros Hraise. destruct (getsize fs archive_path) as [size|] eqn:Hsize.
      * exists size. split; [done|].
        destruct (Z.le_gt_cases size (15 * 1024 * 1024)) as [Hle|Hgt]; [|lia].
        by destruct (Hpass size eq_refl Hle).
      * unfold extract_archive in Hraise. by rewrite Hsize in Hraise.
    + intros (size & Hsize & Hgt). by rewrite (Hfail size).
  - intros Hsize. by apply (Hpass _ Hsize).
  - intros Hsize. apply (Hfail _ Hsize). lia.
Qed.

Lemma extract_archive_oversize_witness :
  (extract_archive example_fs "/data/huge.zip" 0 empty_world).1
  = Raises OversizeArchive
  ∧ (extract_archive example_fs "/data/exact.zip" 0 empty_world).1
    ≠ Raises OversizeArchive.
Proof.
  split.
  - apply (extract_archive_oversize example_fs "/data/huge.zip" 0 empty_world).
    exists (15 * 1024 * 1024 + 1)%Z. split; [reflexivity|lia].
  - apply (extract_archive_oversize example_fs "/data/exact.zip" 0
             empty_world).
    reflexivity.
Defined.

(** At the two boundary sizes: the archive of exactly the cap is
    extracted, the archive one byte above is rejected. *)
Example extract_archive_boundary :
  (extract_archive example_fs "/data/exact.zip" 0 empty_world).1
  = Returns [Scratch 0 "a.txt"]
  ∧ (extract_archive example_fs "/data/huge.zip" 0 empty_world).1
    = Raises OversizeArchive.
Proof. split; reflexivity. Qed.

(** ** Discovery and the scratch directories *)

Lemma foldM_app {St A T} (f : A → T → M St T) (xs ys : list A) (acc : T) s :
  foldM f (xs ++ ys) acc s
  = bind (foldM f xs acc) (λ acc, foldM f ys acc) s.
Proof.
  revert acc s. induction xs as [|x xs IH]; intros acc s; simpl.
  - reflexivity.
  - unfold bind in *. destruct (f x acc s) as [[acc'| |] s']; [|done..].
    apply IH.
Qed.


Lemma extends_refl w : extends w w.
Proof. by repeat split. Qed.

Lemma extends_trans w1 w2 w3 : extends w1 w2 → extends w2 w3 → extends w1 w3.
Proof.
  intros (Hs1 & Hn1 & Hd1) (Hs2 & Hn2 & Hd2). split_and!.
  - congruence.
  - lia.
  - intros d Hd. rewrite Hd2 by lia. by apply Hd1.
Qed.


Lemma flat_map_Scratch d t names :
  flat_map (λ f, if tree_isdir t f then Scratch d <$> tree_walk t f
                 else [Scratch d f]) names
  = Scratch d <$> flatten_names t names.
Proof.
  unfold flatten_names. induction names as [|f names IH]; [done|].
  simpl. rewrite fmap_app, IH. by destruct (tree_isdir t f).
Qed.

Lemma extract_archive_eq fs archive_path d w :
  extract_archive fs archive_path d w
  = match archive_members fs archive_path with
    | inl e => (Raises e, w)
    | inr members =>
        let t := default [] (w_scratch w !! d) ++ members in
        (Returns (Scratch d <$> flatten_names t members.*1),
         with_scratch (λ sc, <[d := t]> sc) w)
    end.
Proof.
  unfold extract_archive, archive_members.
  destruct (getsize fs archive_path) as [size|]; [|done].
  destruct (size >? _)%Z; [done|].
  destruct (fs_node fs archive_path) as [[f|dsize rglob]|]; [|done..].
  assert (Hopen : ∀ fmt,
    bind (extractall fmt f d)
      (λ extracted_files,
         let* w0 := get_state in
         ret (flat_map
                (λ f0, if tree_isdir (default [] (w_scratch w0 !! d)) f0
                       then Scratch d
                            <$> tree_walk (default [] (w_scratch w0 !! d)) f0
                       else [Scratch d f0])
                extracted_files)) w
    = match from_option inr (inl ExtractionFailed) (f_members f fmt) with
      | inl e => (Raises e, w)
      | inr members =>
          let t := default [] (w_scratch w !! d) ++ members in
          (Returns (Scratch d <$> flatten_names t members.*1),
           with_scratch (λ sc, <[d := t]> sc) w)
      end).
  { intros fmt. unfold extractall, bind, modify, get_state, ret, raise.
    destruct (f_members f fmt) as [members|]; [|done]. simpl.
    rewrite lookup_insert_eq. simpl. by rewrite flat_map_Scratch. }
  destruct (f_is_zipfile f); [apply Hopen|].
  destruct (f_is_tarfile f); [apply Hopen|].
  destruct (endswith _ (s2t ".rar")); [apply Hopen|].
  destruct (endswith _ (s2t ".7z")); [apply Hopen|]. done.
Qed.


Lemma discover_path_eq fs path all_files fr :
  discover_path fs path all_files fr
  = let r := after_path (fs_resolve fs path) (classify fs path) all_files fr in
    (Returns r.1, r.2).
Proof.
  unfold discover_path, classify.
  destruct (is_file fs (fs_resolve fs path)
            && bool_decide (lower (suffix (fs_resolve fs path))
                            ∈ ARCHIVE_SUFFIXES)) eqn:Harchive.
  - destruct (_ >? _)%Z; [by destruct fr|].
    unfold bind, try_except, in_world, append_temp_dir, modify, ret. simpl.
    rewrite extract_archive_eq. simpl. rewrite lookup_insert_eq. simpl.
    destruct (archive_members fs (fs_resolve fs path)) as [e|members]; simpl.
    + done.
    + unfold with_scratch. simpl. by rewrite insert_insert_eq.
  - unfold is_file, is_dir in *.
    destruct (fs_node fs (fs_resolve fs path)) as [[f|size rglob]|];
      by destruct fr.
Qed.

Lemma discover_cons fs path paths all_files fr :
  foldM (discover_path fs) (path :: paths) all_files fr
  = let r := after_path (fs_resolve fs path) (classify fs path) all_files fr in
    foldM (discover_path fs) paths r.1 r.2.
Proof. simpl. unfold bind. by rewrite discover_path_eq. Qed.

(** Discovery never raises. *)
Lemma discover_returns fs paths all_files fr :
  ∃ all_files', (foldM (discover_path fs) paths all_files fr).1
                = Returns all_files'.
Proof.
  revert all_files fr. induction paths as [|path paths IH]; intros all_files fr.
  - by eexists.
  - rewrite discover_cons. apply IH.
Qed.

(** The scratch directories a step creates are named from the supply, in
    order, and recorded in [temp_dirs]; the store and the older scratch
    directories are untouched. *)
Lemma after_path_extends abs_path k all_files fr :
  let fr' := (after_path abs_path k all_files fr).2 in
  extends (fr_world fr) (fr_world fr')
  ∧ fr_temp_dirs fr'
    = fr_temp_dirs fr
      ++ seq (w_next_tmp (fr_world fr))
           (w_next_tmp (fr_world fr') - w_next_tmp (fr_world fr)).
Proof.
  destruct k as [|files|[e|members]]; simpl.
  - rewrite Nat.sub_diag, app_nil_r. split; [apply extends_refl|done].
  - rewrite Nat.sub_diag, app_nil_r. split; [apply extends_refl|done].
  - split.
    + repeat split; simpl; [lia|]. intros d Hd. rewrite lookup_insert_ne; [done|lia].
    + by replace (S _ - _) with 1 by lia.
  - split.
    + repeat split; simpl; [lia|]. intros d Hd.
      rewrite !lookup_insert_ne; [done|lia..].
    + by replace (S _ - _) with 1 by lia.
Qed.

Lemma discover_extends fs paths all_files fr :
  let fr' := (foldM (discover_path fs) paths all_files fr).2 in
  extends (fr_world fr) (fr_world fr')
  ∧ fr_temp_dirs fr'
    = fr_temp_dirs fr
      ++ seq (w_next_tmp (fr_world fr))
           (w_next_tmp (fr_world fr') - w_next_tmp (fr_world fr)).
Proof.
  revert all_files fr. induction paths as [|path paths IH]; intros all_files fr.
  - simpl. rewrite Nat.sub_diag, app_nil_r. split; [apply extends_refl|done].
  - rewrite discover_cons. cbv zeta.
    destruct (after_path_extends (fs_resolve fs path) (classify fs path)
                all_files fr) as [Hext1 Htmp1].
    set (r := after_path _ _ all_files fr) in *.
    destruct (IH r.1 r.2) as [Hext2 Htmp2]. cbv zeta in *.
    split; [by eapply extends_trans|].
    rewrite Htmp2, Htmp1, <- app_assoc. f_equal.
    destruct Hext1 as (_ & Hn1 & _), Hext2 as (_ & Hn2 & _).
    set (n0 := w_next_tmp (fr_world fr)) in *.
    set (n1 := w_next_tmp (fr_world r.2)) in *.
    set (n2 := w_next_tmp (fr_world (foldM _ _ _ _).2)) in *.
    replace (n2 - n0) with ((n1 - n0) + (n2 - n1)) by lia.
    rewrite seq_app. do 2 f_equal. lia.
Qed.

(** The call, phase by phase: discovery, which always returns; then
    either [NoVectorizableInput] or the processing of the candidates, which
    acts on the store only; then the clean-up. *)

Lemma ingest_body_eq fs collection_name paths chunk_size overlap encoding fr
    all_files fr1 :
  foldM (discover_path fs) paths [] fr = (Returns all_files, fr1) →
  ingest_body fs collection_name paths chunk_size overlap encoding fr
  = if py_not (vectorizable_of all_files) then (Raises NoVectorizableInput, fr1)
    else
      let r := foldM (process_file (lookup_file fs (fr_world fr1))
                        collection_name chunk_size overlap encoding)
                 (vectorizable_of all_files) 0 (w_store (fr_world fr1)) in
      (r.1, {| fr_temp_dirs := fr_temp_dirs fr1;
               fr_world := with_store (λ _, r.2) (fr_world fr1) |}).
Proof.
  intros Hdisc. unfold ingest_body, discover.
  rewrite (bind_Returns _ _ _ _ _ Hdisc). fold (vectorizable_of all_files).
  destruct (py_not (vectorizable_of all_files)); [done|].
  unfold bind, get_state, in_world, in_store.
  by destruct (foldM _ _ 0 _) as [r st].
Qed.

Lemma foldl_cleanup_scratch ds w d :
  w_scratch (foldl (λ w tmpdir, cleanup tmpdir w) w ds) !! d
  = if bool_decide (d ∈ ds) then None else w_scratch w !! d.
Proof.
  revert w. induction ds as [|d' ds IH]; intros w; simpl; [done|].
  rewrite IH. simpl.
  destruct (decide (d = d')) as [->|Hne].
  - rewrite lookup_delete_eq. rewrite (bool_decide_eq_true_2 (d' ∈ d' :: ds));
      [by case_bool_decide|]. apply list_elem_of_here.
  - rewrite lookup_delete_ne by done.
    destruct (decide (d ∈ ds)) as [Hin|Hnotin].
    + rewrite !bool_decide_eq_true_2; [done| |done]. by apply list_elem_of_further.
    + rewrite !bool_decide_eq_false_2; [done| |done].
      by intros [?|?]%elem_of_cons.
Qed.

Lemma foldl_cleanup_rest ds w :
  w_store (foldl (λ w tmpdir, cleanup tmpdir w) w ds) = w_store w
  ∧ w_next_tmp (foldl (λ w tmpdir, cleanup tmpdir w) w ds) = w_next_tmp w
  ∧ w_stdout (foldl (λ w tmpdir, cleanup tmpdir w) w ds) = w_stdout w.
Proof.
  revert w. induction ds as [|d ds IH]; intros w; simpl; [done|].
  destruct (IH (cleanup d w)) as (-> & -> & ->). done.
Qed.

(** The world in which the [try] block of a call ends. *)
Lemma ingest_body_world fs collection_name paths chunk_size overlap encoding w :
  let fr := (ingest_body fs collection_name paths chunk_size overlap encoding
               {| fr_temp_dirs := []; fr_world := w |}).2 in
  w_next_tmp w ≤ w_next_tmp (fr_world fr)
  ∧ (∀ d, d < w_next_tmp w →
          w_scratch (fr_world fr) !! d = w_scratch w !! d)
  ∧ fr_temp_dirs fr
    = seq (w_next_tmp w) (w_next_tmp (fr_world fr) - w_next_tmp w).
Proof.
  set (fr0 := {| fr_temp_dirs := []; fr_world := w |}).
  destruct (discover_returns fs paths [] fr0) as [all_files Hret].
  destruct (discover_extends fs paths [] fr0) as [(_ & Hnext & Hold) Htmp].
  destruct (foldM (discover_path fs) paths [] fr0) as [r fr1] eqn:Hdisc.
  simpl in *. subst r.
  rewrite (ingest_body_eq _ _ _ _ _ _ _ _ _ Hdisc).
  destruct (py_not (vectorizable_of all_files)); simpl; done.
Qed.

(** C7: however a call of [chroma_add_documents_from_files] ends (it
    returns, it raises [NoVectorizableInput], or a later phase raises),
    every scratch directory created during the call is released before the
    call ends. Scratch directories are named from the supply [w_next_tmp];
    those created during the call are the ones named from [w_next_tmp w] up
    to [w_next_tmp w']; none of them exists in the final world [w'], and
    the older scratch directories are as they were. *)
Theorem scratch_directories_released (fs : filesystem)
    (collection_name : string) (file_or_dir_paths : list string)
    (chunk_size overlap : Z) (encoding : string)
    (metadatas : option (list metadata)) (w : world) :
  let w' := (chroma_add_documents_from_files fs collection_name
               file_or_dir_paths chunk_size overlap encoding metadatas w).2 in
  w_next_tmp w ≤ w_next_tmp w'
  ∧ (∀ d, w_next_tmp w ≤ d < w_next_tmp w' → w_scratch w' !! d = None)
  ∧ (∀ d, d < w_next_tmp w → w_scratch w' !! d = w_scratch w !! d).
Proof.
  unfold chroma_add_documents_from_files.
  pose proof (ingest_body_world fs collection_name file_or_dir_paths
                chunk_size overlap encoding w) as (Hnext & Hold & Htmp).
  destruct (ingest_body _ _ _ _ _ _ _) as [r fr]. simpl in *.
  destruct (foldl_cleanup_rest (fr_temp_dirs fr) (fr_world fr))
    as (_ & Hn & _).
  rewrite Hn. split_and!; [done|..].
  - intros d Hd. rewrite foldl_cleanup_scratch, Htmp.
    rewrite bool_decide_eq_true_2; [done|]. apply elem_of_seq. lia.
  - intros d Hd. rewrite foldl_cleanup_scratch, Htmp.
    rewrite bool_decide_eq_false_2; [by apply Hold|].
    rewrite elem_of_seq. lia.
Qed.

Lemma scratch_directories_released_witness :
  let w' := (chroma_add_documents_from_files example_fs "c"
               ["/data/pack.zip"; "/data/bad.zip"] 4 1 "utf-8" None
               empty_world).2 in
  w_next_tmp empty_world ≤ w_next_tmp w'
  ∧ (∀ d, w_next_tmp empty_world ≤ d < w_next_tmp w' →
          w_scratch w' !! d = None)
  ∧ (∀ d, d < w_next_tmp empty_world →
          w_scratch w' !! d = w_scratch empty_world !! d).
Proof.
  apply (scratch_directories_released example_fs "c"
           ["/data/pack.zip"; "/data/bad.zip"] 4 1 "utf-8" None empty_world).
Defined.

(** The three ways a call ends, each after an archive was extracted: it
    returns; it raises [NoVectorizableInput]; a later phase raises (here
    reading a broken CSV file, after a text file was ingested). In each
    case one scratch directory was created and none is left. *)
Example scratch_released_on_every_exit :
  let call paths :=
    chroma_add_documents_from_files example_fs "c" paths 4 1 "utf-8" None
      empty_world in
  ((call ["/data/pack.zip"]).1 = Returns 3
   ∧ w_next_tmp (call ["/data/pack.zip"]).2 = 1
   ∧ w_scratch (call ["/data/pack.zip"]).2 = ∅)
  ∧ ((call ["/data/junk.zip"]).1 = Raises NoVectorizableInput
     ∧ w_next_tmp (call ["/data/junk.zip"]).2 = 1
     ∧ w_scratch (call ["/data/junk.zip"]).2 = ∅)
  ∧ ((call ["/data/bad.zip"]).1 = Raises CsvReadFailed
     ∧ w_next_tmp (call ["/data/bad.zip"]).2 = 1
     ∧ w_scratch (call ["/data/bad.zip"]).2 = ∅
     ∧ size (collection_of (w_store (call ["/data/bad.zip"]).2) "c") = 2).
Proof. vm_compute. repeat split. Qed.

(** C10: an input archive whose size strictly exceeds 15 * 1024 * 1024
    bytes is skipped before any extraction: its iteration of the discovery
    loop returns with the candidate files and the whole frame (the list of
    scratch directories, the store, the scratch directories, the supply of
    names, what was printed) as they were, and a call behaves as the call
    without that input path. *)
Theorem oversize_archive_skipped (fs : filesystem) (path : string) (f : file)
    (all_files : list location) (fr : frame)
    (collection_name : string) (before after : list string)
    (chunk_size overlap : Z) (encoding : string)
    (metadatas : option (list metadata)) (w : world) :
  fs_node fs (fs_resolve fs path) = Some (File f) →
  lower (suffix (fs_resolve fs path)) ∈ ARCHIVE_SUFFIXES →
  (f_size f > 15 * 1024 * 1024)%Z →
  discover_path fs path all_files fr = (Returns all_files, fr)
  ∧ chroma_add_documents_from_files fs collection_name
      (before ++ path :: after) chunk_size overlap encoding metadatas w
    = chroma_add_documents_from_files fs collection_name
        (before ++ after) chunk_size overlap encoding metadatas w.
Proof.
  intros Hfile Hsuffix Hsize.
  assert (Hskip : classify fs path = Skipped).
  { unfold classify, is_file, getsize. rewrite Hfile.
    rewrite bool_decide_eq_true_2 by done. simpl.
    by destruct (Z.gtb_spec (f_size f) (15 * 1024 * 1024)); [|lia]. }
  assert (Hstep : ∀ all_files fr,
            discover_path fs path all_files fr = (Returns all_files, fr)).
  { intros all' fr'. by rewrite discover_path_eq, Hskip. }
  split; [apply Hstep|].
  unfold chroma_add_documents_from_files, ingest_body, discover.
  assert (Hsame : ∀ fr0,
    foldM (discover_path fs) (before ++ path :: after) [] fr0
    = foldM (discover_path fs) (before ++ after) [] fr0).
  { intros fr0. rewrite !foldM_app. unfold bind.
    destruct (foldM (discover_path fs) before [] fr0) as [[all'| |] fr']; [|done..].
    simpl. unfold bind. by rewrite Hstep. }
  unfold bind at 1 3. by rewrite Hsame.
Qed.

Lemma oversize_archive_skipped_witness :
  discover_path example_fs "/data/huge.zip" []
    {| fr_temp_dirs := []; fr_world := empty_world |}
  = (Returns [], {| fr_temp_dirs := []; fr_world := empty_world |})
  ∧ chroma_add_documents_from_files example_fs "c"
      (["/data/a.txt"] ++ "/data/huge.zip" :: ["/data/t.csv"]) 4 1 "utf-8"
      None empty_world
    = chroma_add_documents_from_files example_fs "c"
        (["/data/a.txt"] ++ ["/data/t.csv"]) 4 1 "utf-8" None empty_world.
Proof.
  apply (oversize_archive_skipped example_fs "/data/huge.zip"
           (zip_file (15 * 1024 * 1024 + 1)
              [("a.txt", Some (text_file "abcdefghij"))])).
  - reflexivity.
  - vm_compute. apply list_elem_of_here.
  - simpl. lia.
Defined.

(** ** Re-ingestion *)

Lemma filter_nothing {X} (P : X → Prop) `{!∀ x, Decision (P x)} (l : list X) :
  Forall (λ x, ¬ P x) l → filter P l = [].
Proof.
  induction 1 as [|x l Hx _ IH]; [done|].
  rewrite filter_cons. by destruct (decide (P x)).
Qed.

Lemma filter_everything {X} (P : X → Prop) `{!∀ x, Decision (P x)}
    (l : list X) :
  Forall P l → filter P l = l.
Proof.
  induction 1 as [|x l Hx _ IH]; [done|].
  rewrite filter_cons. destruct (decide (P x)); [by rewrite IH|done].
Qed.

Section StoreSteps.
Variable name : string.
Implicit Types (st : gmap string (gmap string document)).
Implicit Types (c : gmap string document).

Lemma elem_of_ids_in st id :
  id ∈ ids_in st name ↔ is_Some (collection_of st name !! id).
Proof. unfold ids_in. apply elem_of_dom. Qed.

Lemma ids_in_insert st c : ids_in (<[name := c]> st) name = dom c.
Proof. unfold ids_in, collection_of. by rewrite lookup_insert_eq. Qed.

Lemma snd_imap_pair {A} (l : list A) : (imap pair l).*2 = l.
Proof.
  rewrite fmap_imap. rewrite (imap_ext _ (const id)); [|done].
  by rewrite imap_const, list_fmap_id.
Qed.

Lemma dom_foldl_insert (metadatas : option (list metadata))
    (l : list (nat * (string * text))) c :
  dom (foldl (λ c '(i, (id, d)),
                <[id := {| doc_text := d; doc_meta := nth_meta metadatas i |}]> c)
         c l)
  =@{gset string} dom c ∪ list_to_set l.*2.*1.
Proof.
  revert c. induction l as [|[i [id d]] l IH]; intros c; simpl.
  - set_solver.
  - rewrite IH, dom_insert_L. set_solver.
Qed.

Lemma dom_add_records ids documents metadatas c :
  length ids = length documents →
  dom (add_records ids documents metadatas c)
  =@{gset string} dom c ∪ list_to_set ids.
Proof.
  intros Hlen. unfold add_records.
  rewrite dom_foldl_insert, snd_imap_pair, fst_zip; [done|lia].
Qed.

Lemma dom_update_records ids documents metadatas c :
  dom (update_records ids documents metadatas c) =@{gset string} dom c.
Proof.
  unfold update_records. generalize (imap pair (zip ids documents)).
  intros l. revert c. induction l as [|[i [id d]] l IH]; intros c; simpl.
  - done.
  - rewrite IH. destruct (c !! id) as [old|] eqn:Hid; [|done].
    rewrite dom_insert_L. apply elem_of_dom_2 in Hid. set_solver.
Qed.

(** [get_or_create_collection] returns, leaves the ids as they are, and
    the collection exists afterwards. *)
Lemma get_or_create_collection_spec st :
  ∃ st', get_or_create_collection name st = (Returns tt, st')
         ∧ ids_in st' name = ids_in st name
         ∧ is_Some (st' !! name)
         ∧ ∀ other, other ≠ name → st' !! other = st !! other.
Proof.
  unfold get_or_create_collection.
  destruct (st !! name) as [c|] eqn:Hc.
  - exists st. by rewrite Hc.
  - eexists. split; [done|]. split_and!.
    + rewrite ids_in_insert. unfold ids_in, collection_of. by rewrite Hc.
    + by rewrite lookup_insert_eq.
    + intros other Hother. by rewrite lookup_insert_ne.
Qed.

Lemma elem_of_collection_get_ids st id :
  id ∈ (map_to_list (collection_of st name)).*1 ↔ id ∈ ids_in st name.
Proof. by rewrite elem_of_collection_ids, elem_of_ids_in. Qed.

(** [chroma_add_documents]: other collections are untouched; when it
    returns, the ids are present and none was lost. *)
Lemma chroma_add_documents_frame documents ids metadatas st r st' :
  chroma_add_documents name documents ids metadatas st = (r, st') →
  ∀ other, other ≠ name → st' !! other = st !! other.
Proof.
  unfold chroma_add_documents.
  destruct (py_not documents); [by intros [= _ <-]|].
  destruct (py_not ids); [by intros [= _ <-]|].
  destruct (existsb _ ids); [by intros [= _ <-]|].
  destruct (negb _); [by intros [= _ <-]|].
  unfold try_except, bind, collection_get_ids, collection_add, raise, ret.
  destruct (get_or_create_collection_spec st) as (st1 & -> & _ & _ & Hother).
  destruct (negb (py_not _)); [by intros [= _ <-]|].
  repeat case_bool_decide; intros [= _ <-]; try done.
  intros other Hne. rewrite lookup_insert_ne by done. by apply Hother.
Qed.

Lemma chroma_add_documents_returns documents ids metadatas st n st' :
  chroma_add_documents name documents ids metadatas st = (Returns n, st') →
  ids_in st' name = ids_in st name ∪ list_to_set ids.
Proof.
  unfold chroma_add_documents.
  destruct (py_not documents); [done|].
  destruct (py_not ids); [done|].
  destruct (existsb _ ids); [done|].
  destruct (length ids =? length documents) eqn:Hlen; [|done].
  apply Nat.eqb_eq in Hlen. simpl.
  unfold try_except, bind, collection_get_ids, collection_add, raise, ret.
  destruct (get_or_create_collection_spec st) as (st1 & -> & Hids & _ & _).
  destruct (negb (py_not _)); [done|].
  repeat case_bool_decide; intros [= _ <-].
  rewrite ids_in_insert, dom_add_records by done. by rewrite <- Hids.
Qed.

(** [chroma_update_documents] with documents and metadata for every id:
    other collections are untouched; it returns when the collection
    exists and there is an id; the ids present stay the same. *)
Lemma chroma_update_documents_frame ids metadatas documents st r st' :
  chroma_update_documents name ids metadatas documents st = (r, st') →
  ∀ other, other ≠ name → st' !! other = st !! other.
Proof.
  unfold chroma_update_documents.
  destruct (py_not ids); [by intros [= _ <-]|].
  repeat (case_bool_decide; [by intros [= _ <-]|]).
  unfold bind, get_collection, collection_update, ret.
  destruct (st !! name); intros [= _ <-]; [|done].
  intros other Hne. by rewrite lookup_insert_ne.
Qed.

Lemma chroma_update_documents_ids ids metadatas documents st r st' :
  chroma_update_documents name ids metadatas documents st = (r, st') →
  ids_in st' name = ids_in st name.
Proof.
  unfold chroma_update_documents.
  destruct (py_not ids); [by intros [= _ <-]|].
  repeat (case_bool_decide; [by intros [= _ <-]|]).
  unfold bind, get_collection, collection_update, ret.
  destruct (st !! name); intros [= _ <-]; [|done].
  by rewrite ids_in_insert, dom_update_records.
Qed.

Lemma chroma_update_documents_returns ids metadatas documents st :
  ids ≠ [] → length metadatas = length ids → length documents = length ids →
  is_Some (st !! name) →
  ∃ st', chroma_update_documents name ids (Some metadatas) (Some documents) st
         = (Returns (length ids), st').
Proof.
  intros Hids Hmetas Hdocs [c Hc]. unfold chroma_update_documents.
  apply py_not_false in Hids. rewrite Hids.
  rewrite bool_decide_eq_false_2 by (by intros [? ?]).
  simpl. rewrite !bool_decide_eq_false_2 by (intros Hne; by apply Hne).
  unfold bind, get_collection, collection_update, ret. rewrite Hc.
  by eexists.
Qed.

(** *** Steps that insert or update *)

Lemma upserts_ret : upserts name [] (λ total, ret total).
Proof.
  split_and!.
  - by intros total st r st' [= _ <-].
  - intros total st total' st' [= _ <-]. split; [|done].
    by intros id ?%elem_of_nil.
  - intros total st _. by exists st.
Qed.

Lemma upserts_bind ids1 ids2 m1 m2 :
  upserts name ids1 m1 → upserts name ids2 m2 →
  upserts name (ids1 ++ ids2) (λ total, let* total := m1 total in m2 total).
Proof.
  intros (Hf1 & Ha1 & Hb1) (Hf2 & Ha2 & Hb2). split_and!.
  - intros total st r st' Hrun other Hother. unfold bind in Hrun.
    destruct (m1 total st) as [[t1|e|] st1] eqn:H1.
    + rewrite (Hf2 _ _ _ _ Hrun) by done. by eapply Hf1.
    + injection Hrun as _ <-. by eapply Hf1.
    + injection Hrun as _ <-. by eapply Hf1.
  - intros total st total' st' Hrun. unfold bind in Hrun.
    destruct (m1 total st) as [[t1|e|] st1] eqn:H1; [|done..].
    destruct (Ha1 _ _ _ _ H1) as [Hin1 Hsub1].
    destruct (Ha2 _ _ _ _ Hrun) as [Hin2 Hsub2].
    split; [|set_solver].
    intros id [?|?]%elem_of_app; [|by apply Hin2].
    apply Hsub2. by apply Hin1.
  - intros total st Hin.
    destruct (Hb1 total st) as (st1 & H1 & Hids1).
    { intros id ?. apply Hin, elem_of_app. by left. }
    destruct (Hb2 total st1) as (st2 & H2 & Hids2).
    { intros id ?. rewrite Hids1. apply Hin, elem_of_app. by right. }
    exists st2. unfold bind. rewrite H1. split; [done|congruence].
Qed.

Lemma upserts_elem ids ids' m :
  (∀ id, id ∈ ids ↔ id ∈ ids') → upserts name ids m → upserts name ids' m.
Proof.
  intros Hiff (Hf & Ha & Hb). split_and!; [done|..].
  - intros total st total' st' Hrun. destruct (Ha _ _ _ _ Hrun) as [Hin ?].
    split; [|done]. intros id ?. by apply Hin, Hiff.
  - intros total st Hin. apply Hb. intros id ?. by apply Hin, Hiff.
Qed.

Lemma upserts_foldM {X} (ids : X → list string) (f : X → nat → M _ nat) xs :
  (∀ x, x ∈ xs → upserts name (ids x) (f x)) →
  upserts name (flat_map ids xs) (foldM f xs).
Proof.
  induction xs as [|x xs IH]; intros Hf; simpl.
  - apply upserts_ret.
  - apply (upserts_bind (ids x) (flat_map ids xs) (f x) (foldM f xs)).
    + apply Hf, list_elem_of_here.
    + apply IH. intros y ?. by apply Hf, list_elem_of_further.
Qed.

(** *** One batch of CSV rows *)

Lemma reconcile_batch_upserts batch_docs batch_ids batch_metadatas :
  upserts name (zip batch_docs (zip batch_ids batch_metadatas)).*2.*1
    (reconcile_batch name batch_docs batch_ids batch_metadatas).
Proof.
  set (records := zip batch_docs (zip batch_ids batch_metadatas)).
  assert (Hsplit : ∀ total st,
    ∃ st1, ids_in st1 name = ids_in st name
      ∧ is_Some (st1 !! name)
      ∧ (∀ other, other ≠ name → st1 !! other = st !! other)
      ∧ reconcile_batch name batch_docs batch_ids batch_metadatas total st
        = (let new := filter (λ r, r.2.1 ∉ ids_in st1 name) records in
           let update := filter (λ r, r.2.1 ∈ ids_in st1 name) records in
           let* total_added :=
             if negb (py_not new) then
               run chroma_add_documents name new.*1 new.*2.*1
                     (Some new.*2.*2) in
               ret (total + length new)
             else ret total in
           if negb (py_not update) then
             run chroma_update_documents name update.*2.*1
                   (Some update.*2.*2) (Some update.*1) in
             ret total_added
           else ret total_added) st1).
  { intros total st.
    destruct (get_or_create_collection_spec st) as (st1 & Hgc & Hids & Hex & Hoth).
    exists st1. split_and!; [done..|].
    unfold reconcile_batch. rewrite (bind_Returns _ _ _ _ _ Hgc).
    unfold collection_get_ids at 1. unfold bind at 1. fold records.
    assert (Hset : ∀ id,
      id ∈ (list_to_set (map_to_list (collection_of st1 name)).*1 : gset string)
      ↔ id ∈ ids_in st1 name).
    { intros id. by rewrite elem_of_list_to_set, elem_of_collection_get_ids. }
    rewrite (list_filter_iff _ (λ r, r.2.1 ∉ ids_in st1 name) records)
      by (intros r; by rewrite Hset).
    rewrite (list_filter_iff (λ r, r.2.1 ∈ list_to_set _)
               (λ r, r.2.1 ∈ ids_in st1 name) records)
      by (intros r; by rewrite Hset).
    done. }
  split_and!.
  - (* other collections *)
    intros total st r st' Hrun other Hother.
    destruct (Hsplit total st) as (st1 & _ & _ & Hoth1 & Heq).
    rewrite Heq in Hrun. clear Heq. cbv zeta in Hrun.
    rewrite <- (Hoth1 other Hother).
    set (new := filter _ records) in Hrun.
    set (update := filter (λ r, r.2.1 ∈ _) records) in Hrun.
    unfold bind in Hrun.
    destruct (negb (py_not new)).
    + destruct (chroma_add_documents _ _ _ _ st1) as [[n|e|] st2] eqn:Hadd;
        pose proof (chroma_add_documents_frame _ _ _ _ _ _ Hadd other Hother)
          as Hoth2; [|by injection Hrun as _ <-..].
      unfold ret in Hrun. destruct (negb (py_not update)).
      * destruct (chroma_update_documents _ _ _ _ st2) as [[n'|e|] st3]
          eqn:Hupd;
          pose proof (chroma_update_documents_frame _ _ _ _ _ _ Hupd other
                        Hother) as Hoth3;
          injection Hrun as _ <-; congruence.
      * injection Hrun as _ <-. done.
    + unfold ret in Hrun. destruct (negb (py_not update)).
      * destruct (chroma_update_documents _ _ _ _ st1) as [[n'|e|] st3]
          eqn:Hupd;
          pose proof (chroma_update_documents_frame _ _ _ _ _ _ Hupd other
                        Hother) as Hoth3;
          injection Hrun as _ <-; congruence.
      * injection Hrun as _ <-. done.
  - (* when it returns, the ids are present *)
    intros total st total' st' Hrun.
    destruct (Hsplit total st) as (st1 & Hids1 & _ & _ & Heq).
    rewrite Heq in Hrun. clear Heq. cbv zeta in Hrun. rewrite <- Hids1.
    set (new := filter _ records) in Hrun.
    set (update := filter (λ r, r.2.1 ∈ _) records) in Hrun.
    assert (Hgoal : ∀ st2, ids_in st2 name
                           = ids_in st1 name ∪ list_to_set new.*2.*1 →
              ids_in st' name = ids_in st2 name →
              (∀ id, id ∈ records.*2.*1 → id ∈ ids_in st' name)
              ∧ ids_in st1 name ⊆ ids_in st' name).
    { intros st2 H2 H3. rewrite H3, H2. split; [|set_solver].
      intros id (ids_meta & -> & ([doc im] & -> & Hr)%list_elem_of_fmap)
        %list_elem_of_fmap. simpl.
      destruct (decide (im.1 ∈ ids_in st1 name)) as [?|Hnew]; [set_solver|].
      apply elem_of_union_r, elem_of_list_to_set.
      apply (list_elem_of_fmap_2' fst _ im); [|done].
      apply (list_elem_of_fmap_2' snd _ (doc, im)); [|done].
      apply list_elem_of_filter. by split. }
    unfold bind in Hrun.
    destruct (py_not new) eqn:Hnew; simpl in Hrun.
    + apply py_not_true in Hnew. unfold ret in Hrun.
      destruct (negb (py_not update)).
      * destruct (chroma_update_documents _ _ _ _ st1) as [[n'|e|] st3]
          eqn:Hupd; [|done..]. injection Hrun as _ <-.
        apply (Hgoal st1); [rewrite Hnew; set_solver|].
        by eapply chroma_update_documents_ids.
      * injection Hrun as _ <-. apply (Hgoal st1); [|done].
        rewrite Hnew. set_solver.
    + destruct (chroma_add_documents _ _ _ _ st1) as [[n|e|] st2] eqn:Hadd;
        [|done..].
      apply chroma_add_documents_returns in Hadd. unfold ret in Hrun.
      destruct (negb (py_not update)).
      * destruct (chroma_update_documents _ _ _ _ st2) as [[n'|e|] st3]
          eqn:Hupd; [|done..]. injection Hrun as _ <-.
        apply (Hgoal st2); [done|]. by eapply chroma_update_documents_ids.
      * injection Hrun as _ <-. by apply (Hgoal st2).
  - (* when the ids are present already, nothing is added *)
    intros total st Hin.
    destruct (Hsplit total st) as (st1 & Hids1 & Hex & _ & Heq).
    rewrite Heq. clear Heq. cbv zeta. rewrite <- Hids1.
    assert (Hall : ∀ r, r ∈ records → r.2.1 ∈ ids_in st1 name).
    { intros r Hr. rewrite Hids1. apply Hin.
      apply (list_elem_of_fmap_2' fst _ r.2); [|done].
      by apply (list_elem_of_fmap_2' snd _ r). }
    assert (Hnew : filter (λ r, r.2.1 ∉ ids_in st1 name) records = []).
    { apply filter_nothing. apply Forall_forall. intros r Hr Hnot.
      by apply Hnot, Hall. }
    assert (Hupd : filter (λ r, r.2.1 ∈ ids_in st1 name) records = records).
    { apply filter_everything. by apply Forall_forall. }
    rewrite Hnew, Hupd. simpl. unfold bind at 1. unfold ret at 1.
    destruct (py_not records) eqn:Hempty; simpl.
    + by exists st1.
    + apply py_not_false in Hempty.
      destruct (chroma_update_documents_returns records.*2.*1 records.*2.*2
                  records.*1 st1) as [st2 Hrun].
      * by destruct records.
      * by rewrite !length_fmap.
      * by rewrite !length_fmap.
      * done.
      * exists st2. unfold bind. rewrite Hrun. split; [done|].
        by eapply chroma_update_documents_ids.
Qed.

(** *** CSV files *)

Lemma csv_chunk_upserts file_path chunk :
  upserts name (ids_of_chunk (stem file_path) chunk)
    (csv_chunk (reconcile_batch name) file_path chunk).
Proof.
  unfold csv_chunk, ids_of_chunk.
  destruct chunk as [|row chunk].
  - apply upserts_ret.
  - set (rows := row :: chunk).
    change (py_not (join (s2t " ") <$> rows)) with false. cbv iota.
    rewrite !length_fmap.
    set (text_data := join (s2t " ") <$> rows).
    set (metas := (λ i, [("file", MStr file_path); ("row", MInt (Z.of_nat i))])
                  <$> seq 0 (length rows)).
    fold (row_ids (stem file_path) (length rows)).
    erewrite flat_map_ext; [apply (upserts_foldM _ (λ i acc,
      reconcile_batch name (take BATCH_SIZE (drop i text_data))
        (take BATCH_SIZE (drop i (row_ids (stem file_path) (length rows))))
        (take BATCH_SIZE (drop i metas)) acc));
      intros i _; apply reconcile_batch_upserts|].
    intros i. simpl.
    assert (Hlen : ∀ {X} (l : list X), length l = length rows →
              length (take BATCH_SIZE (drop i l))
              = BATCH_SIZE `min` (length rows - i)).
    { intros X l Hl. by rewrite length_take, length_drop, Hl. }
    rewrite snd_zip, fst_zip; [done|..].
    + rewrite !Hlen; [done|unfold metas, row_ids..];
        by rewrite length_fmap, length_seq.
    + rewrite length_zip, !Hlen; [lia|unfold text_data, metas, row_ids..];
        by rewrite length_fmap, ?length_seq.
Qed.

Lemma csv_file_upserts file_path rows :
  upserts name (ids_of_csv (stem file_path) rows)
    (csv_file (reconcile_batch name) file_path rows).
Proof.
  unfold csv_file, ids_of_csv. apply upserts_foldM.
  intros chunk _. apply csv_chunk_upserts.
Qed.

(** *** Text and log files *)

Lemma ids_in_is_Some st id : id ∈ ids_in st name → is_Some (st !! name).
Proof. rewrite elem_of_ids_in. apply collection_of_is_Some. Qed.

Lemma upsert_chunk_frame file_path (existing : gset string) chunk_idx buffer
    total st r st' :
  upsert_chunk name file_path existing chunk_idx buffer total st = (r, st') →
  ∀ other, other ≠ name → st' !! other = st !! other.
Proof.
  unfold upsert_chunk, bind, ret. case_bool_decide.
  - destruct (chroma_update_documents _ _ _ _ st) as [[n|e|] st1] eqn:Hupd;
      intros [= _ <-]; by eapply chroma_update_documents_frame.
  - destruct (chroma_add_documents _ _ _ _ st) as [[n|e|] st1] eqn:Hadd;
      intros [= _ <-]; by eapply chroma_add_documents_frame.
Qed.

Lemma upsert_chunk_returns file_path (existing : gset string) chunk_idx buffer
    total st total' st' :
  existing ⊆ ids_in st name →
  upsert_chunk name file_path existing chunk_idx buffer total st
  = (Returns total', st') →
  stem file_path +:+ "_chunk_" +:+ dec chunk_idx ∈ ids_in st' name
  ∧ ids_in st name ⊆ ids_in st' name.
Proof.
  intros Hsub. unfold upsert_chunk, bind, ret. case_bool_decide as Hin.
  - destruct (chroma_update_documents _ _ _ _ st) as [[n|e|] st1] eqn:Hupd;
      intros [= _ <-].
    apply chroma_update_documents_ids in Hupd. rewrite Hupd. set_solver.
  - destruct (chroma_add_documents _ _ _ _ st) as [[n|e|] st1] eqn:Hadd;
      intros [= _ <-].
    apply chroma_add_documents_returns in Hadd. rewrite Hadd. set_solver.
Qed.

Lemma upsert_chunk_present file_path (existing : gset string) chunk_idx buffer
    total st :
  stem file_path +:+ "_chunk_" +:+ dec chunk_idx ∈ existing →
  existing ⊆ ids_in st name →
  ∃ st', upsert_chunk name file_path existing chunk_idx buffer total st
         = (Returns total, st')
         ∧ ids_in st' name = ids_in st name.
Proof.
  intros Hin Hsub. unfold upsert_chunk, bind, ret.
  rewrite bool_decide_eq_true_2 by done.
  destruct (chroma_update_documents_returns
              [stem file_path +:+ "_chunk_" +:+ dec chunk_idx]
              [[("file", MStr file_path);
                ("chunk_index", MInt (Z.of_nat chunk_idx))]]
              [buffer] st) as [st' Hupd]; [done..| |].
  { eapply ids_in_is_Some. by apply Hsub. }
  exists st'. rewrite Hupd. split; [done|].
  by eapply chroma_update_documents_ids.
Qed.

Lemma stream_loop_frame file_path (existing : gset string) chunk_size overlap
    lines buffer chunk_idx total st r st' :
  stream_loop (upsert_chunk name file_path existing) chunk_size overlap lines
    buffer chunk_idx total st = (r, st') →
  ∀ other, other ≠ name → st' !! other = st !! other.
Proof.
  revert buffer chunk_idx total st.
  induction lines as [|line lines IH]; intros buffer chunk_idx total st; simpl.
  - destruct (negb (py_not buffer)); [apply upsert_chunk_frame|].
    by intros [= _ <-].
  - destruct (_ >=? _)%Z; [|apply IH].
    unfold bind.
    destruct (upsert_chunk _ _ _ _ _ _ st) as [[t1|e|] st1] eqn:Hup;
      pose proof (upsert_chunk_frame _ _ _ _ _ _ _ _ Hup) as Hf1.
    + intros Hrun other Hother. rewrite (IH _ _ _ _ Hrun) by done.
      by apply Hf1.
    + by intros [= _ <-].
    + by intros [= _ <-].
Qed.

Lemma stream_loop_returns file_path (existing : gset string) chunk_size
    overlap lines buffer chunk_idx total st total' st' :
  existing ⊆ ids_in st name →
  stream_loop (upsert_chunk name file_path existing) chunk_size overlap lines
    buffer chunk_idx total st = (Returns total', st') →
  (∀ id, id ∈ ids_of_stream (stem file_path) chunk_size overlap lines buffer
               chunk_idx → id ∈ ids_in st' name)
  ∧ ids_in st name ⊆ ids_in st' name.
Proof.
  revert buffer chunk_idx total st.
  induction lines as [|line lines IH]; intros buffer chunk_idx total st Hsub;
    simpl.
  - destruct (negb (py_not buffer)).
    + intros Hup. destruct (upsert_chunk_returns _ _ _ _ _ _ _ _ Hsub Hup).
      split; [|done]. by intros id ->%list_elem_of_singleton.
    + intros [= _ <-]. split; [|done]. by intros id ?%elem_of_nil.
  - destruct (_ >=? _)%Z; [|by apply IH].
    unfold bind.
    destruct (upsert_chunk _ _ _ _ _ _ st) as [[t1|e|] st1] eqn:Hup; [|done..].
    destruct (upsert_chunk_returns _ _ _ _ _ _ _ _ Hsub Hup) as [Hid Hsub1].
    intros Hrun. apply IH in Hrun as [Hin Hsub2]; [|set_solver].
    split; [|set_solver].
    intros id [->|?]%elem_of_cons; [set_solver|by apply Hin].
Qed.

Lemma stream_loop_present file_path (existing : gset string) chunk_size
    overlap lines buffer chunk_idx total st :
  (∀ id, id ∈ ids_of_stream (stem file_path) chunk_size overlap lines buffer
               chunk_idx → id ∈ existing) →
  existing ⊆ ids_in st name →
  ∃ st', stream_loop (upsert_chunk name file_path existing) chunk_size overlap
           lines buffer chunk_idx total st = (Returns total, st')
         ∧ ids_in st' name = ids_in st name.
Proof.
  revert buffer chunk_idx st.
  induction lines as [|line lines IH]; intros buffer chunk_idx st Hin Hsub;
    simpl in *.
  - destruct (negb (py_not buffer)); [|by exists st].
    apply upsert_chunk_present; [|done]. apply Hin, list_elem_of_here.
  - destruct (_ >=? _)%Z; [|by apply IH].
    destruct (upsert_chunk_present file_path existing chunk_idx
                (buffer ++ line) total st) as (st1 & Hup & Hids1); [|done|].
    { apply Hin, list_elem_of_here. }
    unfold bind. rewrite Hup.
    destruct (IH (if (overlap >? 0)%Z
                  then py_slice (buffer ++ line) (Some (- overlap)%Z) None
                  else []) (S chunk_idx) st1) as (st2 & Hrun & Hids2).
    + intros id ?. by apply Hin, list_elem_of_further.
    + by rewrite Hids1.
    + exists st2. split; [done|congruence].
Qed.

(** *** One candidate file *)

Lemma process_file_upserts read chunk_size overlap encoding file_path :
  match ids_of_file read chunk_size overlap encoding file_path with
  | Some ids =>
      upserts name ids
        (process_file read name chunk_size overlap encoding file_path)
  | None =>
      ∀ total st, ∃ e st',
        process_file read name chunk_size overlap encoding file_path total st
        = (Raises e, st')
        ∧ ∀ other, other ≠ name → st' !! other = st !! other
  end.
Proof.
  unfold ids_of_file, process_file. case_bool_decide as Hcsv.
  - (* a CSV file *)
    destruct (read file_path) as [f|]; simpl; [|by eexists _, _].
    destruct (f_csv f) as [rows|]; simpl; [|by eexists _, _].
    apply csv_file_upserts.
  - (* a text or log file *)
    destruct (read file_path) as [f|]; simpl; [|by eexists _, _].
    destruct (f_decode f (detect_encoding f encoding)) as [content|]; simpl.
    + set (lines := split_lines [] content).
      set (p := path_str file_path).
      assert (Hopen : ∀ total st,
        ∃ st1 (existing : gset string),
          (∀ id, id ∈ existing ↔ id ∈ ids_in st1 name)
          ∧ ids_in st1 name = ids_in st name
          ∧ (∀ other, other ≠ name → st1 !! other = st !! other)
          ∧ bind (get_or_create_collection name)
              (λ _, let* existing := collection_get_ids name in
                    stream_loop
                      (upsert_chunk name p (list_to_set existing))
                      chunk_size overlap lines [] 0 total) st
            = stream_loop (upsert_chunk name p existing) chunk_size overlap
                lines [] 0 total st1).
      { intros total st.
        destruct (get_or_create_collection_spec st)
          as (st1 & Hgc & Hids & _ & Hoth).
        exists st1, (list_to_set (map_to_list (collection_of st1 name)).*1).
        split_and!; [|done..|by rewrite (bind_Returns _ _ _ _ _ Hgc)].
        intros id. by rewrite elem_of_list_to_set, elem_of_collection_get_ids. }
      split_and!.
      * intros total st r st' Hrun other Hother.
        destruct (Hopen total st) as (st1 & existing & _ & _ & Hoth & Heq).
        rewrite Heq in Hrun. rewrite <- (Hoth other Hother).
        by eapply stream_loop_frame.
      * intros total st total' st' Hrun.
        destruct (Hopen total st) as (st1 & existing & Hex & Hids & _ & Heq).
        rewrite Heq in Hrun. rewrite <- Hids.
        eapply stream_loop_returns; [|done]. intros id ?. by apply Hex.
      * intros total st Hin.
        destruct (Hopen total st) as (st1 & existing & Hex & Hids & _ & Heq).
        rewrite Heq, <- Hids. apply stream_loop_present.
        -- intros id ?. apply Hex. rewrite Hids. by apply Hin.
        -- intros id ?. by apply Hex.
    + intros total st. unfold bind, collection_get_ids, raise.
      destruct (get_or_create_collection_spec st) as (st1 & -> & _ & _ & Hoth).
      by eexists _, _.
Qed.

(** *** All candidate files *)

Lemma process_files_frame read chunk_size overlap encoding files total st r
    st' :
  foldM (process_file read name chunk_size overlap encoding) files total st
  = (r, st') →
  ∀ other, other ≠ name → st' !! other = st !! other.
Proof.
  revert total st. induction files as [|file_path files IH];
    intros total st; simpl.
  - by intros [= _ <-].
  - pose proof (process_file_upserts read chunk_size overlap encoding
                  file_path) as Hfile.
    unfold bind.
    destruct (process_file _ _ _ _ _ file_path total st) as [[t1|e|] st1]
      eqn:Hrun.
    all: assert (Hoth1 : ∀ other, other ≠ name → st1 !! other = st !! other)
      by (destruct (ids_of_file _ _ _ _ file_path);
          [destruct Hfile as (Hf & _); by eapply Hf
          |destruct (Hfile total st) as (e' & st2 & Heq & Hoth);
           rewrite Hrun in Heq; by injection Heq as _ <-]).
    + intros Hrest other Hother. rewrite (IH _ _ Hrest) by done.
      by apply Hoth1.
    + by intros [= _ <-].
    + by intros [= _ <-].
Qed.

Lemma process_files_returns read chunk_size overlap encoding files total st
    total' st' :
  foldM (process_file read name chunk_size overlap encoding) files total st
  = (Returns total', st') →
  ∃ idss, Forall2 (λ file_path ids,
                     ids_of_file read chunk_size overlap encoding file_path
                     = Some ids) files idss
          ∧ (∀ id, id ∈ concat idss → id ∈ ids_in st' name)
          ∧ ids_in st name ⊆ ids_in st' name.
Proof.
  revert total st. induction files as [|file_path files IH];
    intros total st; simpl.
  - intros [= _ <-]. exists []. split_and!; [done| |done].
    by intros id ?%elem_of_nil.
  - pose proof (process_file_upserts read chunk_size overlap encoding
                  file_path) as Hfile.
    unfold bind.
    destruct (process_file _ _ _ _ _ file_path total st) as [[t1|e|] st1]
      eqn:Hrun; [|done..].
    destruct (ids_of_file _ _ _ _ file_path) as [ids|] eqn:Hids.
    + destruct Hfile as (_ & Ha & _).
      destruct (Ha _ _ _ _ Hrun) as [Hin1 Hsub1].
      intros Hrest. destruct (IH _ _ Hrest) as (idss & Hall & Hin2 & Hsub2).
      exists (ids :: idss). split_and!; [by constructor| |set_solver].
      simpl. intros id [?|?]%elem_of_app; [|by apply Hin2].
      by apply Hsub2, Hin1.
    + destruct (Hfile total st) as (e & st2 & Heq & _). congruence.
Qed.

Lemma process_files_present read chunk_size overlap encoding files idss total
    st :
  Forall2 (λ file_path ids,
             ids_of_file read chunk_size overlap encoding file_path = Some ids)
    files idss →
  (∀ id, id ∈ concat idss → id ∈ ids_in st name) →
  ∃ st', foldM (process_file read name chunk_size overlap encoding) files
           total st = (Returns total, st')
         ∧ ids_in st' name = ids_in st name.
Proof.
  intros Hall. revert st.
  induction Hall as [|file_path ids files idss Hids _ IH]; intros st Hin;
    simpl in *.
  - by exists st.
  - pose proof (process_file_upserts read chunk_size overlap encoding
                  file_path) as Hfile.
    rewrite Hids in Hfile. destruct Hfile as (_ & _ & Hb).
    destruct (Hb total st) as (st1 & Hrun & Hids1).
    { intros id ?. apply Hin, elem_of_app. by left. }
    destruct (IH st1) as (st2 & Hrest & Hids2).
    { intros id ?. rewrite Hids1. apply Hin, elem_of_app. by right. }
    exists st2. unfold bind. rewrite Hrun. split; [done|congruence].
Qed.
End StoreSteps.

(** *** The same files are discovered again *)

Lemma s2t_append (a b : string) : s2t (a +:+ b) = s2t a ++ s2t b.
Proof. induction a as [|c a IH]; simpl; [done|]. by rewrite IH. Qed.

Lemma path_name_after_separator (dir rest : text) :
  path_name (dir ++ s2t "/" ++ rest) = path_name (s2t "/" ++ rest).
Proof. unfold path_name. by rewrite fold_left_app. Qed.

(** The name of a member of a scratch directory does not depend on the
    name of the scratch directory. *)
Lemma path_name_Scratch d d' rel :
  path_name (s2t (path_str (Scratch d rel)))
  = path_name (s2t (path_str (Scratch d' rel))).
Proof.
  unfold path_str. rewrite !s2t_append.
  by rewrite !path_name_after_separator.
Qed.

Lemma same_file_names w w' l l' :
  same_file w w' l l' →
  suffix (path_str l) = suffix (path_str l')
  ∧ stem (path_str l) = stem (path_str l').
Proof.
  destruct l as [p|d rel], l' as [p'|d' rel']; intros Hsame;
    simpl in Hsame; try done.
  - by subst.
  - destruct Hsame as (-> & _). unfold suffix, stem.
    by rewrite (path_name_Scratch d d' rel').
Qed.

Lemma same_file_lookup fs w w' l l' :
  same_file w w' l l' → lookup_file fs w l = lookup_file fs w' l'.
Proof.
  destruct l as [p|d rel], l' as [p'|d' rel']; simpl; try done.
  - by intros ->.
  - by intros (-> & _ & _ & ->).
Qed.

Lemma same_file_ids fs w w' chunk_size overlap encoding l l' :
  same_file w w' l l' →
  ids_of_file (lookup_file fs w) chunk_size overlap encoding l
  = ids_of_file (lookup_file fs w') chunk_size overlap encoding l'.
Proof.
  intros Hsame. unfold ids_of_file.
  destruct (same_file_names _ _ _ _ Hsame) as [-> ->].
  by rewrite (same_file_lookup fs _ _ _ _ Hsame).
Qed.

Lemma same_file_extends w w' w1 w1' l l' :
  same_file w w' l l' → extends w w1 → extends w' w1' →
  same_file w1 w1' l l'.
Proof.
  intros Hsame (_ & Hn & Hold) (_ & Hn' & Hold').
  destruct l as [p|d rel], l' as [p'|d' rel']; simpl in *; try done.
  destruct Hsame as (-> & Hd & Hd' & Heq). split_and!; [done|lia..|].
  by rewrite Hold, Hold'.
Qed.

Lemma after_path_same abs_path k all_files all_files' fr fr' :
  Forall2 (same_file (fr_world fr) (fr_world fr')) all_files all_files' →
  Forall2 (same_file (fr_world (after_path abs_path k all_files fr).2)
             (fr_world (after_path abs_path k all_files' fr').2))
    (after_path abs_path k all_files fr).1
    (after_path abs_path k all_files' fr').1.
Proof.
  intros Hall.
  assert (Hold : Forall2
            (same_file (fr_world (after_path abs_path k all_files fr).2)
               (fr_world (after_path abs_path k all_files' fr').2))
            all_files all_files').
  { eapply Forall2_impl; [exact Hall|]. intros l l' Hsame.
    eapply same_file_extends; [exact Hsame|..]; apply after_path_extends. }
  destruct k as [|files|[e|members]]; simpl in *; [done| |done|].
  - apply Forall2_app; [done|]. apply Forall2_fmap_2, Forall_Forall2_diag.
    by apply Forall_forall.
  - apply Forall2_app; [done|]. apply Forall2_fmap_2, Forall_Forall2_diag.
    apply Forall_forall. intros rel _. simpl.
    split_and!; [done|lia..|]. by rewrite !lookup_insert_eq.
Qed.

Lemma discover_same fs paths all_files all_files' fr fr' :
  Forall2 (same_file (fr_world fr) (fr_world fr')) all_files all_files' →
  ∃ found found',
    (foldM (discover_path fs) paths all_files fr).1 = Returns found
    ∧ (foldM (discover_path fs) paths all_files' fr').1 = Returns found'
    ∧ Forall2
        (same_file (fr_world (foldM (discover_path fs) paths all_files fr).2)
           (fr_world (foldM (discover_path fs) paths all_files' fr').2))
        found found'.
Proof.
  revert all_files all_files' fr fr'.
  induction paths as [|path paths IH]; intros all_files all_files' fr fr' Hall.
  - by exists all_files, all_files'.
  - rewrite !discover_cons. cbv zeta. apply IH. by apply after_path_same.
Qed.

Lemma vectorizable_same w w' all_files all_files' :
  Forall2 (same_file w w') all_files all_files' →
  Forall2 (same_file w w') (vectorizable_of all_files)
    (vectorizable_of all_files').
Proof.
  unfold vectorizable_of. apply Forall2_filter. intros l l' Hsame.
  by destruct (same_file_names _ _ _ _ Hsame) as [-> _].
Qed.

(** *** The two runs *)

(** What a call that returns has done: the candidates it discovered, the
    store it ended with, and that all their ids are in it. *)
Lemma ingest_returns fs collection_name paths chunk_size overlap encoding
    metadatas w n w' :
  chroma_add_documents_from_files fs collection_name paths chunk_size overlap
    encoding metadatas w = (Returns n, w') →
  ∃ found fr idss,
    foldM (discover_path fs) paths [] {| fr_temp_dirs := []; fr_world := w |}
    = (Returns found, fr)
    ∧ vectorizable_of found ≠ []
    ∧ Forall2 (λ file_path ids,
                 ids_of_file (lookup_file fs (fr_world fr)) chunk_size overlap
                   encoding file_path = Some ids)
        (vectorizable_of found) idss
    ∧ (∀ id, id ∈ concat idss → id ∈ ids_in (w_store w') collection_name)
    ∧ w_next_tmp w' = w_next_tmp (fr_world fr).
Proof.
  unfold chroma_add_documents_from_files.
  set (fr0 := {| fr_temp_dirs := []; fr_world := w |}).
  destruct (discover_returns fs paths [] fr0) as [found Hret].
  destruct (foldM (discover_path fs) paths [] fr0) as [r fr] eqn:Hdisc.
  simpl in Hret. subst r.
  rewrite (ingest_body_eq _ _ _ _ _ _ _ _ _ Hdisc).
  destruct (py_not (vectorizable_of found)) eqn:Hvect; [done|].
  apply py_not_false in Hvect. cbv zeta.
  destruct (foldM (process_file _ _ _ _ _) _ 0 _) as [r st'] eqn:Hrun.
  simpl. intros [= -> <-].
  destruct (process_files_returns _ _ _ _ _ _ _ _ _ _ Hrun)
    as (idss & Hall & Hin & _).
  exists found, fr, idss. split_and!; [done..| |].
  - by destruct (foldl_cleanup_rest (fr_temp_dirs fr)
                   (with_store (λ _, st') (fr_world fr))) as (-> & _).
  - by destruct (foldl_cleanup_rest (fr_temp_dirs fr)
                   (with_store (λ _, st') (fr_world fr))) as (_ & -> & _).
Qed.

(** C3: when a call of [chroma_add_documents_from_files] has returned, the
    same call on the same, unchanged files against the store it left
    returns too, reports 0 added documents, and leaves in every collection
    the ids that were there, so the record count of the store is the same
    after the second run: each of its records is an update. *)
Theorem reingestion_adds_nothing (fs : filesystem) (collection_name : string)
    (file_or_dir_paths : list string) (chunk_size overlap : Z)
    (encoding : string) (metadatas : option (list metadata))
    (w : world) (n : nat) (w1 : world) :
  chroma_add_documents_from_files fs collection_name file_or_dir_paths
    chunk_size overlap encoding metadatas w = (Returns n, w1) →
  ∃ w2,
    chroma_add_documents_from_files fs collection_name file_or_dir_paths
      chunk_size overlap encoding metadatas w1 = (Returns 0, w2)
    ∧ (∀ name, ids_in (w_store w2) name = ids_in (w_store w1) name)
    ∧ (∀ name, size (collection_of (w_store w2) name)
               = size (collection_of (w_store w1) name)).
Proof.
  intros Hfirst.
  destruct (ingest_returns _ _ _ _ _ _ _ _ _ _ Hfirst)
    as (found & fr & idss & Hdisc & Hvect & Hall & Hin & _).
  (* the second run discovers the same files *)
  set (fr0 := {| fr_temp_dirs := []; fr_world := w |}) in *.
  set (fr0' := {| fr_temp_dirs := []; fr_world := w1 |}).
  destruct (discover_same fs file_or_dir_paths [] [] fr0 fr0')
    as (found1 & found' & Hret & Hret' & Hsame); [constructor|].
  rewrite Hdisc in Hret, Hsame. simpl in Hret, Hsame.
  injection Hret as <-.
  destruct (discover_extends fs file_or_dir_paths [] fr0') as [(Hst & _) _].
  destruct (foldM (discover_path fs) file_or_dir_paths [] fr0')
    as [r' fr'] eqn:Hdisc'.
  simpl in Hret', Hsame, Hst. subst r'.
  pose proof (vectorizable_same _ _ _ _ Hsame) as Hvsame.
  assert (Hvect' : vectorizable_of found' ≠ []).
  { intros Hnil. rewrite Hnil in Hvsame.
    by apply Forall2_nil_inv_r in Hvsame. }
  (* so the ids of its records are in the store already *)
  assert (Hall' : Forall2 (λ file_path ids,
                     ids_of_file (lookup_file fs (fr_world fr')) chunk_size
                       overlap encoding file_path = Some ids)
                    (vectorizable_of found') idss).
  { apply Forall2_flip in Hvsame.
    eapply Forall2_trans; [|exact Hvsame|exact Hall].
    intros l' l ids Hl <-. symmetry. by apply same_file_ids. }
  destruct (process_files_present collection_name (lookup_file fs (fr_world fr'))
              chunk_size overlap encoding _ _ 0 (w_store (fr_world fr'))
              Hall') as (st2 & Hrun & Hids).
  { intros id ?. rewrite Hst. by apply Hin. }
  (* the second run, phase by phase *)
  unfold chroma_add_documents_from_files. fold fr0'.
  rewrite (ingest_body_eq _ _ _ _ _ _ _ _ _ Hdisc').
  apply py_not_false in Hvect'. rewrite Hvect'. cbv zeta. rewrite Hrun.
  eexists. split; [done|]. simpl.
  destruct (foldl_cleanup_rest (fr_temp_dirs fr')
              (with_store (λ _, st2) (fr_world fr'))) as (-> & _).
  simpl.
  assert (Hsame_ids : ∀ name,
            ids_in st2 name = ids_in (w_store w1) name).
  { intros name. destruct (decide (name = collection_name)) as [->|Hne].
    - by rewrite Hids, Hst.
    - unfold ids_in, collection_of.
      rewrite (process_files_frame _ _ _ _ _ _ _ _ _ _ Hrun name Hne).
      by rewrite Hst. }
  split; [done|].
  intros name. rewrite <- !(size_dom (D := gset string)).
  apply (f_equal size (Hsame_ids name)).
Qed.

Lemma reingestion_adds_nothing_witness :
  ∃ w2,
    chroma_add_documents_from_files example_fs "c" ["/data"; "/data/pack.zip"]
      4 1 "utf-8" None first_run.2 = (Returns 0, w2)
    ∧ (∀ name, ids_in (w_store w2) name = ids_in (w_store first_run.2) name)
    ∧ (∀ name, size (collection_of (w_store w2) name)
               = size (collection_of (w_store first_run.2) name)).
Proof.
  apply (reingestion_adds_nothing example_fs "c" ["/data"; "/data/pack.zip"]
           4 1 "utf-8" None empty_world 8 first_run.2).
  change (first_run = (Returns 8, first_run.2)).
  replace (Returns 8) with first_run.1 by (vm_compute; reflexivity).
  apply surjective_pairing.
Defined.

(** The two runs on the example: the first adds 8 records, the second
    none, and the collection has 8 records after each. *)
Example reingestion_example :
  let second_run :=
    chroma_add_documents_from_files example_fs "c" ["/data"; "/data/pack.zip"]
      4 1 "utf-8" None first_run.2 in
  first_run.1 = Returns 8
  ∧ size (collection_of (w_store first_run.2) "c") = 8
  ∧ second_run.1 = Returns 0
  ∧ size (collection_of (w_store second_run.2) "c") = 8.
Proof. vm_compute. repeat split. Qed.

(** ** Where the code departs from the specification *)

(** C2: the row index in an id restarts with every 1000-row chunk that
    [pandas.read_csv] hands over, so it is not the index of the row in the
    file. A file of 1001 rows yields the id [big_row_0] twice, for its
    first and for its last row; ingested into an empty store it leaves 1000
    records, and the record [big_row_0] holds the text of the last row. *)
Theorem csv_row_ids_restart_per_chunk :
  let rows := replicate 1000 [s2t "x"] ++ [[s2t "last"]] in
  let ids := csv_row_ids "/data/big.csv" rows in
  let call := chroma_add_documents_from_files example_fs "c" ["/data/big.csv"]
               2000 200 "utf-8" None empty_world in
  length ids = 1001
  ∧ ids !! 0 = Some "big_row_0"
  ∧ ids !! 999 = Some "big_row_999"
  ∧ ids !! 1000 = Some "big_row_0"
  ∧ call.1 = Returns 1000
  ∧ size (collection_of (w_store call.2) "c") = 1000
  ∧ doc_text <$> collection_of (w_store call.2) "c" !! "big_row_0"
    = Some (s2t "last").
Proof. vm_compute. repeat split. Qed.

(** C4: the text/log path works on whole lines and emits its whole buffer,
    so its payloads are not those of [chunk_text]. On the one-line content
    "abcdefghij" with size 4 and overlap 1 it emits the whole line and then
    the overlap alone; [chunk_text] gives three pieces of four characters. *)
Theorem stream_payloads_differ_from_chunk_text :
  stream_payloads (s2t "abcdefghij") 4 1 = [s2t "abcdefghij"; s2t "j"]
  ∧ chunk_text 11 (s2t "abcdefghij") 4 1
    = Returns [s2t "abcd"; s2t "defg"; s2t "ghij"]
  ∧ Returns (stream_payloads (s2t "abcdefghij") 4 1)
    ≠ chunk_text 11 (s2t "abcdefghij") 4 1.
Proof. vm_compute. repeat split. discriminate. Qed.

(** C5: [chroma_add_documents_from_files] does not check the chunk
    parameters, which only [chunk_text] does. With chunk size 0 and overlap
    -1 the call reads the file, returns, and has added one record per line
    to the store. *)
Theorem ingest_accepts_invalid_chunk_parameters :
  let call := chroma_add_documents_from_files example_fs "c"
               ["/data/notes.log"] 0 (-1) "utf-8" None empty_world in
  call.1 = Returns 2
  ∧ w_store call.2 ≠ w_store empty_world
  ∧ size (collection_of (w_store call.2) "c") = 2
  ∧ chunk_text 11 (s2t "abcdefghij") 0 (-1) = Raises ChunkSizeNotPositive
  ∧ chunk_text 11 (s2t "abcdefghij") 4 (-1) = Raises OverlapNegative.
Proof. vm_compute. repeat split. discriminate. Qed.

(** ** The chunker beyond its valid parameters *)

Section ChunkerLimits.
Context {A : Type}.
Implicit Types (t : list A).

(** With [chunk_size <= overlap] the cursor never advances: from a cursor
    at or before the start of a text longer than [chunk_size] the loop
    uses up any fuel. *)
Lemma chunk_loop_stuck {B} (emit : Z → Z → B) fuel len size ov start acc :
  (0 < size)%Z → (size ≤ ov)%Z → (size < len)%Z → (start ≤ 0)%Z →
  chunk_loop emit fuel len size ov start acc = None.
Proof.
  intros Hsize Hov Hlen. revert start acc.
  induction fuel as [|fuel IH]; intros start acc Hstart; [done|].
  simpl. destruct (Z.ltb_spec start len); [|lia].
  destruct (Z.eqb_spec (Z.min (start + size) len) len); [lia|].
  apply IH. lia.
Qed.

(** The loop on a text that fits into one window. *)
Lemma chunk_loop_short {B} (emit : Z → Z → B) fuel len size ov :
  (0 < len)%Z → (len ≤ size)%Z →
  chunk_loop emit (S fuel) len size ov 0 [] = Some [emit 0%Z len].
Proof.
  intros Hlen Hsize. simpl. destruct (Z.ltb_spec 0 len); [|lia].
  replace (Z.min (0 + size) len) with len by lia.
  by rewrite Z.eqb_refl.
Qed.

(** X1: [chunk_text] does not terminate when [overlap >= chunk_size > 0]
    and the text is longer than [chunk_size]: whatever the fuel, the loop
    is still running when it is used up (the cursor [start = end - overlap]
    never moves forward). *)
Theorem chunk_text_diverges fuel t size ov :
  (0 < size)%Z → (size ≤ ov)%Z → (size < py_len t)%Z →
  chunk_text fuel t size ov = OutOfFuel.
Proof.
  intros Hsize Hov Hlen. unfold chunk_text, chunk_guard.
  destruct (Z.leb_spec size 0); [lia|].
  destruct (Z.ltb_spec ov 0); [lia|].
  by rewrite chunk_loop_stuck by lia.
Qed.

(** X2: for [chunk_size > 0] and [overlap >= 0], [chunk_text] terminates
    exactly when [overlap < chunk_size] or the text fits into one chunk;
    when it terminates, fuel beyond the length of the text is enough. *)
Theorem chunk_text_terminates_iff t size ov :
  (0 < size)%Z → (0 ≤ ov)%Z →
  ((∃ fuel chunks, chunk_text fuel t size ov = Returns chunks)
   ↔ (ov < size)%Z ∨ (py_len t ≤ size)%Z)
  ∧ ((ov < size)%Z ∨ (py_len t ≤ size)%Z →
     ∀ fuel, length t < fuel →
       ∃ chunks, chunk_text fuel t size ov = Returns chunks).
Proof.
  intros Hsize Hov.
  assert (Hruns : (ov < size)%Z ∨ (py_len t ≤ size)%Z →
            ∀ fuel, length t < fuel →
              ∃ chunks, chunk_text fuel t size ov = Returns chunks).
  { intros Hcase fuel Hfuel.
    destruct (decide (ov < size)%Z) as [Hlt|Hge].
    - destruct (chunk_text_runs fuel t size ov) as (ws & _ & _ & Hc);
        [lia..|]. eauto.
    - destruct Hcase as [?|Hfit]; [lia|].
      unfold chunk_text, chunk_guard.
      destruct (Z.leb_spec size 0); [lia|].
      destruct (Z.ltb_spec ov 0); [lia|].
      destruct fuel as [|fuel]; [lia|].
      destruct t as [|a t].
      + by eexists.
      + rewrite chunk_loop_short; [by eexists|unfold py_len; simpl; lia|done]. }
  split; [|done]. split.
  - intros (fuel & chunks & Hret).
    destruct (decide (ov < size)%Z); [by left|right].
    destruct (decide (py_len t ≤ size)%Z); [done|].
    unfold chunk_text, chunk_guard in Hret. destruct (Z.leb_spec size 0); [lia|]. destruct (Z.ltb_spec ov 0); [lia|]. by rewrite chunk_loop_stuck in Hret by lia.
  - intros Hcase. exists (S (length t)).
    apply Hruns; [done|lia].
Qed.
End ChunkerLimits.

Lemma chunk_text_diverges_witness :
  chunk_text 1000 (s2t "abcdefghij") 4 4 = OutOfFuel.
Proof. apply chunk_text_diverges; vm_compute; done. Defined.

Lemma chunk_text_terminates_iff_witness :
  ((∃ fuel chunks, chunk_text fuel (s2t "abcdefghij") 4 1 = Returns chunks)
   ↔ (1 < 4)%Z ∨ (py_len (s2t "abcdefghij") ≤ 4)%Z)
  ∧ ((1 < 4)%Z ∨ (py_len (s2t "abcdefghij") ≤ 4)%Z →
     ∀ fuel, length (s2t "abcdefghij") < fuel →
       ∃ chunks, chunk_text fuel (s2t "abcdefghij") 4 1 = Returns chunks).
Proof. apply chunk_text_terminates_iff; lia. Defined.

(** ** Neighbouring pieces and the number of pieces *)

Section ChunkerShape.
Context {A : Type}.
Implicit Types (t : list A) (ws : list (Z * Z)).

(** Two windows that follow each other: the second starts [ov] before
    the end of the first and does not end before it. *)
Lemma windows_from_consecutive len size ov start ws i w w' :
  (0 < size)%Z → (0 ≤ ov < size)%Z →
  windows_from len size ov start ws →
  ws !! i = Some w → ws !! S i = Some w' →
  (w.2 = w.1 + size ∧ w'.1 = w.2 - ov ∧ w.2 ≤ w'.2 ∧ w'.2 ≤ len)%Z.
Proof.
  intros Hsize Hov Hws. revert i.
  induction Hws as [start _|start Hlt Hle|start ws Hlt Hws IH];
    intros i Hi Hi'.
  - done.
  - by destruct i.
  - destruct i as [|i]; simpl in *.
    + injection Hi as <-. simpl.
      destruct (windows_from_head _ _ _ _ _ Hws) as [rest ->]; [lia|].
      simpl in Hi'. injection Hi' as <-. simpl. lia.
    + by apply (IH i).
Qed.

(** The number of windows from a cursor inside the text. *)
Lemma windows_from_length len size ov start ws :
  (0 < size)%Z → (0 ≤ ov < size)%Z →
  windows_from len size ov start ws → (start < len)%Z →
  Z.of_nat (length ws)
  = (1 + (Z.max 0 (len - start - size) + (size - ov) - 1) / (size - ov))%Z.
Proof.
  intros Hsize Hov Hws.
  induction Hws as [start Hge|start Hlt Hle|start ws Hlt Hws IH]; intros Hstart.
  - lia.
  - simpl. rewrite Z.max_l by lia.
    rewrite Z.div_small by lia. lia.
  - rewrite length_cons, Nat2Z.inj_succ, IH by lia.
    rewrite (Z.max_r 0 (len - start - size)) by lia.
    destruct (Z.le_gt_cases (len - (start + size - ov) - size) 0).
    + rewrite Z.max_l by lia.
      rewrite (Z.div_small (0 + _ - 1)) by lia.
      replace (len - start - size + (size - ov) - 1)%Z
        with ((len - start - size - 1) + 1 * (size - ov))%Z by lia.
      rewrite Z.div_add by lia.
      rewrite Z.div_small by lia. lia.
    + rewrite Z.max_r by lia.
      replace (len - start - size + (size - ov) - 1)%Z
        with ((len - (start + size - ov) - size + (size - ov) - 1)
              + 1 * (size - ov))%Z by lia.
      rewrite Z.div_add by lia. lia.
Qed.

(** X3: with valid parameters, two pieces that follow each other share
    exactly the overlap: the last [overlap] characters of a piece are the
    first [overlap] characters of the next one. *)
Theorem chunk_text_pieces_overlap fuel t size ov chunks i p p' :
  (0 < size)%Z → (0 ≤ ov < size)%Z → length t < fuel →
  chunk_text fuel t size ov = Returns chunks →
  chunks !! i = Some p → chunks !! S i = Some p' →
  drop (Z.to_nat (size - ov)) p = take (Z.to_nat ov) p'
  ∧ py_len p = size ∧ (ov ≤ py_len p')%Z.
Proof.
  intros Hsize Hov Hfuel Hret Hp Hp'.
  destruct (chunk_text_runs fuel t size ov) as (ws & Hws & _ & Hc); [done..|].
  rewrite Hc in Hret. injection Hret as <-.
  rewrite list_lookup_fmap in Hp, Hp'.
  destruct (ws !! i) as [w|] eqn:Hw; [|done].
  destruct (ws !! S i) as [w'|] eqn:Hw'; [|done].
  injection Hp as <-. injection Hp' as <-.
  pose proof (windows_from_bounds (py_len t) size ov 0 ws Hsize Hov ltac:(lia) Hws) as Hb.
  rewrite Forall_lookup in Hb.
  pose proof (Hb _ _ Hw) as (? & ? & ? & ?).
  pose proof (Hb _ _ Hw') as (? & ? & ? & ?).
  destruct (windows_from_consecutive _ _ _ _ _ _ _ _ Hsize Hov Hws Hw Hw')
    as (Hfull & Hnext & Hend & _).
  destruct w as [s e], w' as [s' e']. simpl in *. subst e s'.
  unfold window_slice. simpl.
  rewrite !length_py_slice_window by lia.
  rewrite !py_slice_window by lia.
  split; [|lia].
  rewrite take_take, skipn_firstn_comm, drop_drop.
  f_equal; [lia|f_equal; lia].
Qed.

(** X4: with valid parameters, a text of [L > 0] characters is cut into
    [1 + ceil(max(0, L - chunk_size) / (chunk_size - overlap))] pieces. *)
Theorem chunk_text_piece_count fuel t size ov chunks :
  (0 < size)%Z → (0 ≤ ov < size)%Z → length t < fuel → t ≠ [] →
  chunk_text fuel t size ov = Returns chunks →
  Z.of_nat (length chunks)
  = (1 + (Z.max 0 (py_len t - size) + (size - ov) - 1) / (size - ov))%Z.
Proof.
  intros Hsize Hov Hfuel Ht Hret.
  destruct (chunk_text_runs fuel t size ov) as (ws & Hws & _ & Hc); [done..|].
  rewrite Hc in Hret. injection Hret as <-.
  rewrite length_map.
  rewrite (windows_from_length _ _ _ _ _ Hsize Hov Hws).
  - by rewrite Z.sub_0_r.
  - unfold py_len. destruct t; [done|simpl; lia].
Qed.
End ChunkerShape.

Lemma chunk_text_pieces_overlap_witness :
  drop (Z.to_nat (4 - 1)) (s2t "abcd") = take (Z.to_nat 1) (s2t "defg")
  ∧ py_len (s2t "abcd") = 4%Z ∧ (1 ≤ py_len (s2t "defg"))%Z.
Proof.
  apply (chunk_text_pieces_overlap 11 (s2t "abcdefghij") 4 1
           [s2t "abcd"; s2t "defg"; s2t "ghij"] 0);
    [lia|lia|vm_compute; lia|reflexivity..].
Defined.

Lemma chunk_text_piece_count_witness :
  Z.of_nat (length [s2t "abcd"; s2t "defg"; s2t "ghij"])
  = (1 + (Z.max 0 (py_len (s2t "abcdefghij") - 4) + (4 - 1) - 1) / (4 - 1))%Z.
Proof.
  apply (chunk_text_piece_count 11 (s2t "abcdefghij") 4 1);
    [lia|lia|vm_compute; lia|done|reflexivity].
Defined.

(** ** The text/log streaming path *)

(** The decimal numeral of a number determines the number. *)
Lemma dec_inj (n m : nat) : dec n = dec m → n = m.
Proof.
  unfold dec. intros H.
  apply (f_equal NilZero.uint_of_string) in H.
  assert (Hnil : ∀ k, Nat.to_uint k ≠ Decimal.Nil).
  { intros k Hk. pose proof (Unsigned.of_to k) as Hof.
    rewrite Hk in Hof. simpl in Hof. subst k. done. }
  rewrite !NilZero.usu in H by apply Hnil.
  injection H as H. by apply Unsigned.to_uint_inj.
Qed.

Lemma append_inj_l (p a b : string) : p +:+ a = p +:+ b → a = b.
Proof. induction p as [|c p IH]; simpl; [done|]. intros [= H]. by apply IH. Qed.

(** The ids built from a stem, a tag and an index are distinct for
    distinct indices. *)
Lemma indexed_id_inj (file_stem tag : string) (i j : nat) :
  file_stem +:+ tag +:+ dec i = file_stem +:+ tag +:+ dec j → i = j.
Proof. intros H. by apply dec_inj, (append_inj_l tag), (append_inj_l file_stem). Qed.

Lemma NoDup_indexed_ids (file_stem tag : string) (l : list nat) :
  NoDup l → NoDup ((λ i, file_stem +:+ tag +:+ dec i) <$> l).
Proof.
  apply NoDup_fmap_2. intros i j. apply indexed_id_inj.
Qed.

(** The lines of a file, one after the other, are its content, and no
    line is empty. *)
Lemma concat_split_lines line content :
  concat (split_lines line content) = line ++ content.
Proof.
  revert line. induction content as [|c content IH]; intros line; simpl.
  - destruct line; simpl; by rewrite ?app_nil_r.
  - destruct (Ascii.eqb c "010"); simpl; rewrite IH.
    + by rewrite <- app_assoc.
    + by rewrite <- app_assoc.
Qed.

Lemma split_lines_nonempty line content :
  Forall (λ l, l ≠ []) (split_lines line content).
Proof.
  revert line. induction content as [|c content IH]; intros line; simpl.
  - destruct line; simpl; [constructor|]. by repeat constructor.
  - destruct (Ascii.eqb c "010"); [|apply IH].
    constructor; [|apply IH]. by destruct line.
Qed.

(** [buffer[-overlap:]] of a buffer that holds at least [overlap]
    characters is its last [overlap] characters. *)
Lemma py_slice_tail {A} (buffer : list A) (ov : Z) :
  (0 < ov ≤ py_len buffer)%Z →
  py_slice buffer (Some (- ov)%Z) None
  = drop (length buffer - Z.to_nat ov) buffer.
Proof.
  intros Hov. unfold py_slice, slice_index, py_len in *. simpl.
  destruct (Z.ltb_spec (- ov) 0); [|lia].
  rewrite Z.max_l by lia.
  replace (Z.to_nat (- ov + Z.of_nat (length buffer)))
    with (length buffer - Z.to_nat ov) by lia.
  apply take_ge. rewrite length_drop. lia.
Qed.

(** The streaming loop with a recording [emit] gives the trace. *)
Lemma stream_loop_trace {T} (g : nat → text → T) chunk_size overlap lines
    buffer chunk_idx acc :
  stream_loop (St := unit) (λ i b acc, ret (acc ++ [g i b]))
    chunk_size overlap lines buffer chunk_idx acc tt
  = (Returns (acc ++ (uncurry g
                        <$> stream_trace chunk_size overlap lines buffer
                              chunk_idx)), tt).
Proof.
  revert buffer chunk_idx acc.
  induction lines as [|line lines IH]; intros buffer chunk_idx acc; simpl.
  - destruct buffer; simpl; by rewrite ?app_nil_r.
  - destruct (py_len (buffer ++ line) >=? chunk_size)%Z.
    + unfold bind, ret at 1. simpl. rewrite IH. by rewrite <- app_assoc.
    + apply IH.
Qed.

Lemma stream_payloads_trace content chunk_size overlap :
  stream_payloads content chunk_size overlap
  = (stream_trace chunk_size overlap (split_lines [] content) [] 0).*2.
Proof.
  unfold stream_payloads.
  rewrite (stream_loop_trace (λ _ b, b)). simpl.
  apply list_fmap_ext. by intros ? [].
Qed.

Lemma stream_chunks_trace content chunk_size overlap :
  stream_chunks content chunk_size overlap
  = stream_trace chunk_size overlap (split_lines [] content) [] 0.
Proof.
  unfold stream_chunks.
  rewrite (stream_loop_trace pair). simpl.
  rewrite <- (list_fmap_id (stream_trace _ _ _ _ _)) at 2.
  apply list_fmap_ext. by intros ? [].
Qed.

(** The first chunk of a trace holds the whole buffer. *)
Lemma stream_trace_head chunk_size overlap lines buffer chunk_idx c rest :
  stream_trace chunk_size overlap lines buffer chunk_idx = c :: rest →
  length buffer ≤ length c.2.
Proof.
  revert buffer chunk_idx.
  induction lines as [|line lines IH]; intros buffer chunk_idx; simpl.
  - destruct buffer; simpl; [done|]. by intros [= <- <-].
  - destruct (py_len (buffer ++ line) >=? chunk_size)%Z.
    + intros [= <- <-]. simpl. rewrite length_app. lia.
    + intros H. apply IH in H. rewrite length_app in H. lia.
Qed.

(** Glued with the overlaps dropped, the chunks emitted from a point on
    are the buffer followed by the lines left. *)
Lemma stream_trace_reconstruct chunk_size overlap lines buffer chunk_idx :
  (0 ≤ overlap ≤ chunk_size)%Z →
  reconstruct overlap (stream_trace chunk_size overlap lines buffer chunk_idx).*2
  = buffer ++ concat lines.
Proof.
  intros Hov. revert buffer chunk_idx.
  induction lines as [|line lines IH]; intros buffer chunk_idx; simpl.
  - destruct buffer; simpl; by rewrite ?app_nil_r.
  - destruct (Z.geb_spec (py_len (buffer ++ line)) chunk_size) as [Hfull|Hnot];
      [|by rewrite IH, <- app_assoc].
    cbn [fmap list_fmap snd reconstruct]. rewrite <- app_assoc. do 2 f_equal.
    set (tail := if (overlap >? 0)%Z
                 then py_slice (buffer ++ line) (Some (- overlap)%Z) None
                 else []).
    assert (Htail : length tail = Z.to_nat overlap).
    { unfold tail. destruct (Z.gtb_spec overlap 0).
      - rewrite py_slice_tail by lia. rewrite length_drop.
        unfold py_len in Hfull. lia.
      - simpl. lia. }
    specialize (IH tail (S chunk_idx)).
    destruct (stream_trace chunk_size overlap lines tail (S chunk_idx))
      as [|c rest] eqn:Htrace.
    + simpl in *. symmetry in IH. by apply app_eq_nil in IH as [_ ->].
    + apply stream_trace_head in Htrace.
      cbn [fmap list_fmap reconstruct map concat] in *.
      change (list_fmap _ _ snd rest) with (rest.*2) in *.
      rewrite <- drop_app_le by lia.
      rewrite IH, drop_app_length'; done.
Qed.

(** The indices of a trace count up from the first one. *)
Lemma stream_trace_indices chunk_size overlap lines buffer chunk_idx :
  (stream_trace chunk_size overlap lines buffer chunk_idx).*1
  = seq chunk_idx
      (length (stream_trace chunk_size overlap lines buffer chunk_idx)).
Proof.
  revert buffer chunk_idx.
  induction lines as [|line lines IH]; intros buffer chunk_idx; simpl.
  - by destruct buffer.
  - destruct (py_len (buffer ++ line) >=? chunk_size)%Z; [|apply IH].
    simpl. by rewrite IH.
Qed.

(** No chunk of a trace is empty, and every chunk but the last reaches
    [chunk_size]. *)
Lemma stream_trace_sizes chunk_size overlap lines buffer chunk_idx :
  Forall (λ l, l ≠ []) lines →
  let chunks := stream_trace chunk_size overlap lines buffer chunk_idx in
  Forall (λ c, c.2 ≠ []) chunks
  ∧ ∀ i c, chunks !! i = Some c → S i < length chunks →
           (chunk_size ≤ py_len c.2)%Z.
Proof.
  intros Hlines. revert buffer chunk_idx.
  induction Hlines as [|line lines Hline Hlines IH]; intros buffer chunk_idx;
    simpl.
  - destruct buffer; simpl.
    + split; [constructor|done].
    + split; [by repeat constructor|]. intros i c _ Hi. simpl in Hi. lia.
  - destruct (Z.geb_spec (py_len (buffer ++ line)) chunk_size) as [Hfull|Hnot];
      [|apply IH].
    edestruct IH as [Hne Hsz]. split.
    + constructor; [|apply Hne]. simpl. by destruct buffer, line.
    + intros [|i] c Hc Hi; simpl in *.
      * injection Hc as <-. simpl. lia.
      * apply (Hsz i); [done|lia].
Qed.

(** X5: for [0 <= overlap <= chunk_size], the chunks the text/log path
    emits for a file lose and repeat nothing: glued together, the leading
    [overlap] characters of every chunk after the first dropped, they are
    the content of the file. *)
Theorem stream_payloads_reconstruct (content : text) (chunk_size overlap : Z) :
  (0 ≤ overlap ≤ chunk_size)%Z →
  reconstruct overlap (stream_payloads content chunk_size overlap) = content.
Proof.
  intros Hov. rewrite stream_payloads_trace, stream_trace_reconstruct by done.
  by rewrite concat_split_lines.
Qed.

Lemma stream_payloads_reconstruct_witness :
  reconstruct 1 (stream_payloads (s2t "abcdefghij") 4 1) = s2t "abcdefghij".
Proof. apply stream_payloads_reconstruct. lia. Defined.

(** X6: whatever the parameters, the chunks of a text/log file are
    numbered 0, 1, 2, ... without a gap, so the ids
    [{stem}_chunk_{chunk_idx}] of one file are pairwise distinct. *)
Theorem stream_chunks_numbered (file_path : string) (content : text)
    (chunk_size overlap : Z) :
  let chunks := stream_chunks content chunk_size overlap in
  chunks.*1 = seq 0 (length chunks)
  ∧ chunks.*2 = stream_payloads content chunk_size overlap
  ∧ NoDup ((λ i, stem file_path +:+ "_chunk_" +:+ dec i) <$> chunks.*1).
Proof.
  simpl. rewrite stream_chunks_trace, stream_payloads_trace.
  split; [apply stream_trace_indices|]. split; [done|].
  apply NoDup_indexed_ids. rewrite stream_trace_indices. apply NoDup_seq.
Qed.

(** X7: no chunk the text/log path emits is empty, and every chunk but
    the last holds at least [chunk_size] characters: a chunk is only
    emitted before the end of the file once the buffer has reached
    [chunk_size]. *)
Theorem stream_payloads_sizes (content : text) (chunk_size overlap : Z) :
  let payloads := stream_payloads content chunk_size overlap in
  Forall (λ p, p ≠ []) payloads
  ∧ ∀ i p, payloads !! i = Some p → S i < length payloads →
           (chunk_size ≤ py_len p)%Z.
Proof.
  simpl. rewrite stream_payloads_trace.
  destruct (stream_trace_sizes chunk_size overlap (split_lines [] content)
              [] 0 (split_lines_nonempty _ _)) as [Hne Hsz].
  split.
  - by apply Forall_fmap.
  - intros i p Hp Hi. rewrite list_lookup_fmap in Hp.
    destruct (_ !! i) as [c|] eqn:Hc; [|done]. injection Hp as <-.
    rewrite length_fmap in Hi. by apply (Hsz i).
Qed.

Lemma stream_payloads_sizes_witness :
  let payloads := stream_payloads (s2t "abcdefghij") 4 1 in
  Forall (λ p, p ≠ []) payloads
  ∧ ∀ i p, payloads !! i = Some p → S i < length payloads →
           (4 ≤ py_len p)%Z.
Proof. apply (stream_payloads_sizes (s2t "abcdefghij") 4 1). Defined.

(** ** The CSV path *)

(** A loop whose body appends to its accumulator appends, in all, what
    the bodies append. *)
Lemma foldM_trace {X T} (m : X → list T → M unit (list T)) (h : X → list T)
    xs acc :
  (∀ x acc, m x acc tt = (Returns (acc ++ h x), tt)) →
  foldM m xs acc tt = (Returns (acc ++ flat_map h xs), tt).
Proof.
  intros Hm. revert acc.
  induction xs as [|x xs IH]; intros acc; simpl.
  - by rewrite app_nil_r.
  - unfold bind. rewrite Hm, IH. by rewrite <- app_assoc.
Qed.

(** The batches [l[i:i+step]] for [i] in [range(0, len(l), step)],
    one after the other, are [l]. *)
Lemma batches_cover {X} (l : list X) (step : nat) :
  0 < step →
  flat_map (λ i, take step (drop i l)) (range_step (length l) step) = l.
Proof.
  intros Hstep. unfold range_step.
  assert (Hpre : ∀ j, flat_map (λ i, take step (drop i l))
                        ((λ k, k * step) <$> seq 0 j) = take (j * step) l).
  { induction j as [|j IH]; [done|].
    rewrite seq_S, fmap_app, flat_map_app, IH. simpl. rewrite app_nil_r.
    rewrite take_take_drop. f_equal. lia. }
  rewrite Hpre. apply take_ge.
  pose proof (Nat.div_mod_eq (length l + step - 1) step) as Hdiv.
  pose proof (Nat.mod_upper_bound (length l + step - 1) step) as Hmod.
  nia.
Qed.

(** The documents, ids and metadata of a chunk, zipped. *)
Lemma zip_indexed {X Y Z1 Z2} (h : X → Y) (f : nat → Z1) (g : nat → Z2)
    (l : list X) (s : nat) :
  zip (h <$> l) (zip (f <$> seq s (length l)) (g <$> seq s (length l)))
  = imap (λ i x, (h x, (f (s + i), g (s + i)))) l.
Proof.
  revert s. induction l as [|x l IH]; intros s; [done|].
  simpl. rewrite Nat.add_0_r. f_equal. rewrite IH.
  apply imap_ext. intros i y _. simpl. by rewrite Nat.add_succ_r.
Qed.

(** The chunks of [n] rows, each indexed from zero, one after the other:
    the rows indexed modulo [n]. *)
Lemma chunks_of_indexed {X Y} (F : nat → X → Y) (fuel n : nat) (rows : list X) :
  0 < n → length rows ≤ fuel →
  flat_map (imap F) (chunks_of fuel n rows) = imap (λ k, F (k mod n)) rows.
Proof.
  intros Hn. revert rows.
  induction fuel as [|fuel IH]; intros rows Hfuel.
  - destruct rows; [done|simpl in Hfuel; lia].
  - destruct rows as [|r rows]; [done|].
    cbn [chunks_of flat_map]. set (l := r :: rows) in *.
    rewrite IH by (rewrite length_drop; simpl in *; lia).
    rewrite <- (take_drop n l) at 3. rewrite imap_app. f_equal.
    + apply imap_ext. intros i x Hi. apply lookup_lt_Some in Hi.
      rewrite length_take in Hi. rewrite Nat.mod_small; [done|lia].
    + destruct (decide (length l ≤ n)) as [Hshort|Hlong].
      * by rewrite drop_ge.
      * apply imap_ext. intros i x _. simpl.
        rewrite length_take, Nat.min_l by lia.
        f_equal. replace (n + i) with (i + 1 * n) by lia.
        symmetry. apply Nat.Div0.mod_add.
Qed.

Section CsvTrace.
Context {T : Type} (g : list text → list string → list metadata → list T).

(** One chunk, with an [upload] that records [g] of each batch. *)
Lemma csv_chunk_trace file_path chunk acc :
  csv_chunk (St := unit) (λ d i m acc, ret (acc ++ g d i m)) file_path chunk
    acc tt
  = (Returns
       (acc ++
        flat_map (λ b,
          g (take BATCH_SIZE (drop b (join (s2t " ") <$> chunk)))
            (take BATCH_SIZE
               (drop b ((λ i, stem file_path +:+ "_row_" +:+ dec i)
                          <$> seq 0 (length chunk))))
            (take BATCH_SIZE
               (drop b ((λ i, [("file", MStr file_path);
                               ("row", MInt (Z.of_nat i))])
                          <$> seq 0 (length chunk)))))
          (range_step (length chunk) BATCH_SIZE)), tt).
Proof.
  unfold csv_chunk. destruct chunk as [|r chunk]; [by rewrite app_nil_r|].
  cbn [py_not fmap list_fmap]. rewrite length_cons, length_fmap.
  by apply foldM_trace.
Qed.
End CsvTrace.

Lemma BATCH_SIZE_pos : 0 < BATCH_SIZE.
Proof. unfold BATCH_SIZE. lia. Qed.

Lemma CSV_CHUNK_ROWS_pos : 0 < CSV_CHUNK_ROWS.
Proof. unfold CSV_CHUNK_ROWS. lia. Qed.

Lemma fmap_seq_imap {X Y} (f : nat → Y) (l : list X) (s : nat) :
  f <$> seq s (length l) = imap (λ i _, f (s + i)) l.
Proof.
  revert s. induction l as [|x l IH]; intros s; [done|].
  simpl. rewrite Nat.add_0_r. f_equal. rewrite IH.
  apply imap_ext. intros i y _. simpl. by rewrite Nat.add_succ_r.
Qed.

Lemma csv_row_ids_eq file_path rows :
  csv_row_ids file_path rows
  = imap (λ k _, stem file_path +:+ "_row_" +:+ dec (k mod CSV_CHUNK_ROWS))
      rows.
Proof.
  unfold csv_row_ids, csv_file.
  rewrite (foldM_trace _
    (imap (λ i _, stem file_path +:+ "_row_" +:+ dec i))).
  - simpl. unfold read_csv_chunks.
    by rewrite (chunks_of_indexed
                  (λ i _, stem file_path +:+ "_row_" +:+ dec i))
      by (apply CSV_CHUNK_ROWS_pos || done).
  - intros chunk acc. rewrite (csv_chunk_trace (λ _ i _, i)). do 3 f_equal.
    pose proof (fmap_seq_imap (λ i, stem file_path +:+ "_row_" +:+ dec i)
                  chunk 0) as Hids.
    cbn [Nat.add] in Hids. rewrite <- Hids.
    set (ids := _ <$> seq 0 (length chunk)).
    replace (length chunk) with (length ids)
      by (unfold ids; by rewrite length_fmap, length_seq).
    apply batches_cover, BATCH_SIZE_pos.
Qed.

(** X8: every row of a CSV file is uploaded exactly once and in the
    order of the file, whatever the chunking and the batching: the record
    of row [k] holds the values of the row joined by a blank, and its id
    and its [row] metadata are built from [k mod 1000], the index of the
    row within its chunk of [CSV_CHUNK_ROWS] rows. *)
Theorem csv_records_formula (file_path : string) (rows : list (list text)) :
  csv_records file_path rows
  = imap (λ k row,
            (join (s2t " ") row,
             (stem file_path +:+ "_row_" +:+ dec (k mod CSV_CHUNK_ROWS),
              [("file", MStr file_path);
               ("row", MInt (Z.of_nat (k mod CSV_CHUNK_ROWS)))])))
      rows
  ∧ (csv_records file_path rows).*2.*1 = csv_row_ids file_path rows.
Proof.
  assert (Hrec : csv_records file_path rows
    = imap (λ k row,
            (join (s2t " ") row,
             (stem file_path +:+ "_row_" +:+ dec (k mod CSV_CHUNK_ROWS),
              [("file", MStr file_path);
               ("row", MInt (Z.of_nat (k mod CSV_CHUNK_ROWS)))])))
      rows).
  { unfold csv_records, csv_file.
    rewrite (foldM_trace _
      (imap (λ i row, (join (s2t " ") row,
                       (stem file_path +:+ "_row_" +:+ dec i,
                        [("file", MStr file_path);
                         ("row", MInt (Z.of_nat i))]))))).
    - simpl. unfold read_csv_chunks.
      by rewrite (chunks_of_indexed
                    (λ i row, (join (s2t " ") row,
                       (stem file_path +:+ "_row_" +:+ dec i,
                        [("file", MStr file_path);
                         ("row", MInt (Z.of_nat i))]))))
        by (apply CSV_CHUNK_ROWS_pos || done).
    - intros chunk acc.
      rewrite (csv_chunk_trace (λ d i m, zip d (zip i m))). do 3 f_equal.
      pose proof (zip_indexed (join (s2t " "))
                    (λ i, stem file_path +:+ "_row_" +:+ dec i)
                    (λ i, [("file", MStr file_path);
                           ("row", MInt (Z.of_nat i))]) chunk 0) as Hzip.
      cbn [Nat.add] in Hzip. rewrite <- Hzip.
      set (docs := join (s2t " ") <$> chunk).
      set (ids := (λ i, stem file_path +:+ "_row_" +:+ dec i)
                    <$> seq 0 (length chunk)).
      set (metas := (λ i, [("file", MStr file_path);
                           ("row", MInt (Z.of_nat i))])
                      <$> seq 0 (length chunk)).
      assert (Hlen : length (zip docs (zip ids metas)) = length chunk).
      { unfold docs, ids, metas.
        rewrite !length_zip_with, !length_fmap, !length_seq. lia. }
      rewrite <- Hlen.
      rewrite <- (batches_cover (zip docs (zip ids metas)) BATCH_SIZE) at 2
        by apply BATCH_SIZE_pos.
      apply flat_map_ext. intros b.
      by rewrite !zip_with_drop, !zip_with_take. }
  split; [done|].
  rewrite Hrec, csv_row_ids_eq, !fmap_imap. by apply imap_ext.
Qed.

(** X9: the ids of the rows of one CSV file are pairwise distinct exactly
    when the file has at most [CSV_CHUNK_ROWS] = 1000 rows; from row 1000
    on, ids of earlier rows come again. *)
Theorem csv_row_ids_distinct_iff (file_path : string)
    (rows : list (list text)) :
  NoDup (csv_row_ids file_path rows) ↔ length rows ≤ CSV_CHUNK_ROWS.
Proof.
  rewrite csv_row_ids_eq.
  assert (Himap : imap (λ k _, stem file_path +:+ "_row_"
                                 +:+ dec (k mod CSV_CHUNK_ROWS)) rows
            = (λ k, stem file_path +:+ "_row_" +:+ dec (k mod CSV_CHUNK_ROWS))
                <$> seq 0 (length rows)).
  { symmetry.
    apply (fmap_seq_imap
             (λ k, stem file_path +:+ "_row_" +:+ dec (k mod CSV_CHUNK_ROWS))
             rows 0). }
  rewrite Himap. split.
  - intros Hnodup. destruct (decide (length rows ≤ CSV_CHUNK_ROWS)); [done|].
    rewrite NoDup_alt in Hnodup.
    specialize (Hnodup 0 CSV_CHUNK_ROWS
                  (stem file_path +:+ "_row_" +:+ dec 0)).
    pose proof CSV_CHUNK_ROWS_pos.
    rewrite !list_lookup_fmap, !lookup_seq_lt in Hnodup by lia.
    cbn [fmap option_fmap option_map Nat.add] in Hnodup.
    rewrite Nat.Div0.mod_same, Nat.Div0.mod_0_l in Hnodup.
    specialize (Hnodup eq_refl eq_refl). lia.
  - intros Hlen.
    rewrite (list_fmap_ext _ (λ k, stem file_path +:+ "_row_" +:+ dec k)).
    + apply NoDup_indexed_ids, NoDup_seq.
    + intros i k Hk. apply lookup_seq in Hk as [-> ?].
      rewrite Nat.mod_small; [done|lia].
Qed.

Lemma csv_row_ids_distinct_iff_witness :
  NoDup (csv_row_ids "/data/t.csv" [[s2t "a"]; [s2t "b"]; [s2t "c"]])
  ↔ length [[s2t "a"]; [s2t "b"]; [s2t "c"]] ≤ CSV_CHUNK_ROWS.
Proof. apply csv_row_ids_distinct_iff. Defined.

(** ** The document tools *)

Section RecordLookup.
Implicit Types (c : gmap string document).

(** The records a fold of inserts leaves: an id that is not inserted
    keeps its record; an id that is inserted once gets the record
    inserted. *)
Lemma foldl_insert_other (metadatas : option (list metadata))
    (l : list (nat * (string * text))) c id :
  id ∉ l.*2.*1 →
  foldl (λ c '(i, (id, d)),
           <[id := {| doc_text := d; doc_meta := nth_meta metadatas i |}]> c)
    c l !! id = c !! id.
Proof.
  revert c. induction l as [|[i [id' d]] l IH]; intros c Hid; [done|].
  simpl in *. rewrite IH by set_solver.
  apply lookup_insert_ne. set_solver.
Qed.

Lemma foldl_insert_elem (metadatas : option (list metadata))
    (l : list (nat * (string * text))) c i id d :
  NoDup l.*2.*1 → (i, (id, d)) ∈ l →
  foldl (λ c '(i, (id, d)),
           <[id := {| doc_text := d; doc_meta := nth_meta metadatas i |}]> c)
    c l !! id
  = Some {| doc_text := d; doc_meta := nth_meta metadatas i |}.
Proof.
  revert c. induction l as [|[i' [id' d']] l IH]; intros c Hnodup Hin.
  - by apply elem_of_nil in Hin.
  - simpl in *. apply NoDup_cons in Hnodup as [Hfresh Hnodup].
    apply elem_of_cons in Hin as [[= -> -> ->]|Hin].
    + rewrite foldl_insert_other by done. apply lookup_insert_eq.
    + by apply IH.
Qed.

Lemma elem_of_imap_zip {X Y} (xs : list X) (ys : list Y) i x y :
  (i, (x, y)) ∈ imap pair (zip xs ys) ↔ xs !! i = Some x ∧ ys !! i = Some y.
Proof.
  rewrite elem_of_lookup_imap. split.
  - intros (j & [x' y'] & [= -> -> ->] & Hj).
    by apply lookup_zip_with_Some in Hj as (? & ? & [= -> ->] & ? & ?).
  - intros [Hx Hy]. exists i, (x, y). split; [done|].
    apply lookup_zip_with_Some. eauto.
Qed.

Lemma add_records_lookup ids documents metadatas c i id d :
  NoDup ids → length ids = length documents →
  ids !! i = Some id → documents !! i = Some d →
  add_records ids documents metadatas c !! id
  = Some {| doc_text := d; doc_meta := nth_meta metadatas i |}.
Proof.
  intros Hnodup Hlen Hid Hd. unfold add_records.
  apply foldl_insert_elem.
  - rewrite snd_imap_pair, fst_zip; [done|lia].
  - by apply elem_of_imap_zip.
Qed.

Lemma add_records_other ids documents metadatas c id :
  id ∉ ids → add_records ids documents metadatas c !! id = c !! id.
Proof.
  intros Hid. unfold add_records. apply foldl_insert_other.
  rewrite snd_imap_pair. intros Hin. apply Hid.
  apply list_elem_of_fmap in Hin as ([id' d] & -> & Hin).
  apply list_elem_of_lookup in Hin as [i Hi].
  apply lookup_zip_with_Some in Hi as (? & ? & [= -> ->] & Hi & _).
  by eapply list_elem_of_lookup_2.
Qed.

(** The same for the fold of replacements. *)
Lemma foldl_update_other (metadatas : option (list metadata))
    (l : list (nat * (string * text))) c id :
  id ∉ l.*2.*1 →
  foldl (λ c '(i, (id, d)),
           match c !! id with
           | Some _ =>
               <[id := {| doc_text := d; doc_meta := nth_meta metadatas i |}]> c
           | None => c
           end)
    c l !! id = c !! id.
Proof.
  revert c. induction l as [|[i [id' d]] l IH]; intros c Hid; [done|].
  simpl in *. rewrite IH by set_solver.
  destruct (c !! id'); [|done]. apply lookup_insert_ne. set_solver.
Qed.

Lemma foldl_update_elem (metadatas : option (list metadata))
    (l : list (nat * (string * text))) c i id d :
  NoDup l.*2.*1 → (i, (id, d)) ∈ l → is_Some (c !! id) →
  foldl (λ c '(i, (id, d)),
           match c !! id with
           | Some _ =>
               <[id := {| doc_text := d; doc_meta := nth_meta metadatas i |}]> c
           | None => c
           end)
    c l !! id
  = Some {| doc_text := d; doc_meta := nth_meta metadatas i |}.
Proof.
  revert c. induction l as [|[i' [id' d']] l IH]; intros c Hnodup Hin Hc.
  - by apply elem_of_nil in Hin.
  - simpl in *. apply NoDup_cons in Hnodup as [Hfresh Hnodup].
    apply elem_of_cons in Hin as [[= -> -> ->]|Hin].
    + rewrite foldl_update_other by done. destruct Hc as [old ->].
      apply lookup_insert_eq.
    + apply IH; [done..|]. destruct (c !! id') eqn:Hid'; [|done].
      destruct (decide (id = id')) as [->|Hne].
      * rewrite lookup_insert_eq. by eexists.
      * by rewrite lookup_insert_ne.
Qed.
End RecordLookup.

(** [get_or_create_collection]: it returns; no record changes; the
    collection exists afterwards; the store is as it was unless the
    collection was missing. *)
Lemma get_or_create_collection_cases (name : string)
    (st : gmap string (gmap string document)) :
  ∃ st1, get_or_create_collection name st = (Returns tt, st1)
         ∧ (∀ other, collection_of st1 other = collection_of st other)
         ∧ (st1 = st ∨ st !! name = None ∧ st1 = <[name := ∅]> st)
         ∧ is_Some (st1 !! name).
Proof.
  unfold get_or_create_collection.
  destruct (st !! name) as [c|] eqn:Hc.
  - exists st. split_and!; [done|done|by left|by rewrite Hc].
  - exists (<[name := ∅]> st). split_and!; [done| |by right|].
    + intros other. unfold collection_of.
      destruct (decide (other = name)) as [->|Hne].
      * by rewrite lookup_insert_eq, Hc.
      * by rewrite lookup_insert_ne.
    + by rewrite lookup_insert_eq.
Qed.



(** X11: when [chroma_add_documents] returns, it returns the number of
    documents, none of the ids was present before, every id not
    passed keeps its record, and (the ids being distinct) the id at
    position [i] now holds the document and the metadata at position
    [i]. *)
Theorem chroma_add_documents_adds (collection_name : string)
    (documents : list text) (ids : list string)
    (metadatas : option (list metadata))
    (st st' : gmap string (gmap string document)) (n : nat) :
  chroma_add_documents collection_name documents ids metadatas st
  = (Returns n, st') →
  n = length documents
  ∧ length ids = length documents
  ∧ (∀ id, id ∈ ids → collection_of st collection_name !! id = None)
  ∧ (∀ id, id ∉ ids →
       collection_of st' collection_name !! id
       = collection_of st collection_name !! id)
  ∧ (NoDup ids → ∀ i id d,
       ids !! i = Some id → documents !! i = Some d →
       collection_of st' collection_name !! id
       = Some {| doc_text := d; doc_meta := nth_meta metadatas i |}).
Proof.
  unfold chroma_add_documents.
  destruct (py_not documents); [done|].
  destruct (py_not ids); [done|].
  destruct (existsb _ ids); [done|].
  destruct (length ids =? length documents) eqn:Hlen; [|done].
  apply Nat.eqb_eq in Hlen. simpl.
  unfold try_except, bind, collection_get_ids, collection_add, raise, ret.
  destruct (get_or_create_collection_cases collection_name st)
    as (st1 & -> & Hrecords & _ & _).
  destruct (negb (py_not _)); [done|].
  case_bool_decide as Hpresent; [done|].
  case_bool_decide; [done|]. intros [= <- <-].
  rewrite Hrecords in *.
  assert (Hnew : collection_of
                   (<[collection_name :=
                        add_records ids documents metadatas
                          (collection_of st collection_name)]> st1)
                   collection_name
                 = add_records ids documents metadatas
                     (collection_of st collection_name)).
  { unfold collection_of at 1. by rewrite lookup_insert_eq. }
  rewrite Hnew. split_and!; [done|done| | |].
  - intros id Hid. rewrite Exists_exists in Hpresent.
    destruct (collection_of st collection_name !! id) eqn:Hlook; [|done].
    destruct Hpresent. exists id. split; [done|by eexists].
  - intros id Hid. by apply add_records_other.
  - intros Hnodup i id d Hid Hd. by apply add_records_lookup.
Qed.

Lemma chroma_add_documents_adds_witness :
  let st' := (chroma_add_documents "c" [s2t "one"; s2t "two"] ["a"; "b"] None
                ∅).2 in
  2 = length [s2t "one"; s2t "two"]
  ∧ length ["a"; "b"] = length [s2t "one"; s2t "two"]
  ∧ (∀ id, id ∈ ["a"; "b"] → collection_of (∅ : store) "c" !! id = None)
  ∧ (∀ id, id ∉ ["a"; "b"] →
       collection_of st' "c" !! id = collection_of (∅ : store) "c" !! id)
  ∧ (NoDup ["a"; "b"] → ∀ i id d,
       ["a"; "b"] !! i = Some id → [s2t "one"; s2t "two"] !! i = Some d →
       collection_of st' "c" !! id
       = Some {| doc_text := d; doc_meta := nth_meta None i |}).
Proof.
  apply (chroma_add_documents_adds "c" [s2t "one"; s2t "two"] ["a"; "b"] None
           ∅).
  reflexivity.
Defined.

(** X12: a successful [chroma_add_documents] cannot be repeated: the
    same call against the store it left raises, wrapped, the error that
    lists exactly the ids passed, and changes nothing. *)
Theorem chroma_add_documents_twice (collection_name : string)
    (documents : list text) (ids : list string)
    (metadatas : option (list metadata))
    (st st' : gmap string (gmap string document)) (n : nat) :
  chroma_add_documents collection_name documents ids metadatas st
  = (Returns n, st') →
  chroma_add_documents collection_name documents ids metadatas st'
  = (Raises (AddFailed (DuplicateIds ids)), st').
Proof.
  intros Hfirst.
  pose proof (chroma_add_documents_returns _ _ _ _ _ _ _ Hfirst) as Hids.
  revert Hfirst. unfold chroma_add_documents.
  destruct (py_not documents); [done|].
  destruct (py_not ids) eqn:Hne; [done|].
  destruct (existsb _ ids); [done|].
  destruct (negb _); [done|]. intros _.
  unfold try_except, bind, collection_get_ids, collection_add, raise, ret.
  destruct (get_or_create_collection_cases collection_name st')
    as (st1 & -> & Hrecords & [->|[Hnone _]] & _).
  - rewrite filter_everything, Hne; [done|].
    apply Forall_forall. intros id Hid.
    apply elem_of_collection_get_ids. rewrite Hids. set_solver.
  - apply py_not_false in Hne. destruct ids as [|id ids]; [done|].
    assert (Hin : id ∈ ids_in st' collection_name) by (rewrite Hids; set_solver).
    apply ids_in_is_Some in Hin as [c Hc]. congruence.
Qed.

Lemma chroma_add_documents_twice_witness :
  chroma_add_documents "c" [s2t "one"] ["a"] None
    (chroma_add_documents "c" [s2t "one"] ["a"] None ∅).2
  = (Raises (AddFailed (DuplicateIds ["a"])),
     (chroma_add_documents "c" [s2t "one"] ["a"] None ∅).2).
Proof.
  apply (chroma_add_documents_twice "c" [s2t "one"] ["a"] None ∅ _ 1).
  reflexivity.
Defined.



(** X14: when [chroma_update_documents] is passed documents and
    metadata, as the ingestion passes them, and returns, it returns the
    number of ids; an id that was absent stays absent, an id not passed
    keeps its record, and (the ids being distinct) an id that was present
    at position [i] now holds the document and the metadata at position
    [i]. *)
Theorem chroma_update_documents_replaces (collection_name : string)
    (ids : list string) (metadatas : list metadata) (documents : list text)
    (st st' : gmap string (gmap string document)) (n : nat) :
  chroma_update_documents collection_name ids (Some metadatas)
    (Some documents) st
  = (Returns n, st') →
  n = length ids
  ∧ length documents = length ids
  ∧ length metadatas = length ids
  ∧ (∀ id, collection_of st collection_name !! id = None →
       collection_of st' collection_name !! id = None)
  ∧ (∀ id, id ∉ ids →
       collection_of st' collection_name !! id
       = collection_of st collection_name !! id)
  ∧ (NoDup ids → ∀ i id d,
       ids !! i = Some id → documents !! i = Some d →
       is_Some (collection_of st collection_name !! id) →
       collection_of st' collection_name !! id
       = Some {| doc_text := d; doc_meta := metadatas !! i |}).
Proof.
  intros Hrun.
  assert (Hdom : dom (collection_of st' collection_name)
                 = dom (collection_of st collection_name)).
  { apply (chroma_update_documents_ids _ _ _ _ _ _ _ Hrun). }
  revert Hrun. unfold chroma_update_documents.
  destruct (py_not ids); [done|].
  case_bool_decide; [done|]. case_bool_decide as Hmetas; [done|].
  case_bool_decide as Hlen; [done|].
  simpl in Hlen, Hmetas.
  unfold bind, get_collection, collection_update, ret.
  destruct (st !! collection_name) as [c|] eqn:Hc; [|done].
  intros [= <- <-]. simpl in *.
  assert (Hnew : collection_of
                   (<[collection_name :=
                        update_records ids documents (Some metadatas)
                          (collection_of st collection_name)]> st)
                   collection_name
                 = update_records ids documents (Some metadatas)
                     (collection_of st collection_name)).
  { unfold collection_of at 1. by rewrite lookup_insert_eq. }
  rewrite Hnew in *. split_and!; [done|done|done| | |].
  - intros id Hid. apply not_elem_of_dom. rewrite Hdom.
    by apply not_elem_of_dom.
  - intros id Hid. unfold update_records. apply foldl_update_other.
    rewrite snd_imap_pair. intros Hin. apply Hid.
    apply list_elem_of_fmap in Hin as ([id' d] & -> & Hin).
    apply list_elem_of_lookup in Hin as [i Hi].
    apply lookup_zip_with_Some in Hi as (? & ? & [= -> ->] & Hi & _).
    by eapply list_elem_of_lookup_2.
  - intros Hnodup i id d Hid Hd Hold. unfold update_records.
    apply (foldl_update_elem (Some metadatas));
      [|by apply elem_of_imap_zip|done].
    rewrite snd_imap_pair, fst_zip; [done|lia].
Qed.

Lemma chroma_update_documents_replaces_witness :
  let st := (chroma_add_documents "c" [s2t "one"] ["a"] None ∅).2 in
  let st' := (chroma_update_documents "c" ["a"] (Some [[]])
                (Some [s2t "uno"]) st).2 in
  1 = length ["a"]
  ∧ length [s2t "uno"] = length ["a"]
  ∧ length [[] : metadata] = length ["a"]
  ∧ (∀ id, collection_of st "c" !! id = None →
       collection_of st' "c" !! id = None)
  ∧ (∀ id, id ∉ ["a"] → collection_of st' "c" !! id = collection_of st "c" !! id)
  ∧ (NoDup ["a"] → ∀ i id d,
       ["a"] !! i = Some id → [s2t "uno"] !! i = Some d →
       is_Some (collection_of st "c" !! id) →
       collection_of st' "c" !! id
       = Some {| doc_text := d; doc_meta := [[] : metadata] !! i |}).
Proof.
  apply (chroma_update_documents_replaces "c" ["a"] [[]] [s2t "uno"]).
  reflexivity.
Defined.

(** ** Discovery and extraction *)

(** A loop that appends the elements that pass a test is a filter. *)
Lemma foldl_append_filter {X} (P : X → bool) (l acc : list X) :
  foldl (λ acc x, if P x then acc ++ [x] else acc) acc l
  = acc ++ filter (λ x, P x) l.
Proof.
  revert acc. induction l as [|x l IH]; intros acc; simpl.
  - by rewrite app_nil_r.
  - rewrite IH, filter_cons. destruct (P x); simpl.
    + by rewrite <- app_assoc.
    + done.
Qed.

(** A loop that appends, for every element, a list that depends on the
    element only. *)
Lemma foldl_append_flat_map {X Y} (step : list Y → X → list Y)
    (each : X → list Y) (l : list X) (acc : list Y) :
  (∀ acc x, step acc x = acc ++ each x) →
  foldl step acc l = acc ++ flat_map each l.
Proof.
  intros Hstep. revert acc. induction l as [|x l IH]; intros acc; simpl.
  - by rewrite app_nil_r.
  - by rewrite IH, Hstep, <- app_assoc.
Qed.

(** What a finder with a given set of suffixes returns for one path. *)
Lemma find_files_step (fs : filesystem) (suffixes : list text)
    (result_files : list string) (path : string) :
  (let abs_path := fs_resolve fs path in
   if is_file fs abs_path && bool_decide (lower (suffix abs_path) ∈ suffixes)
   then result_files ++ [abs_path]
   else if is_dir fs abs_path then
     match fs_node fs abs_path with
     | Some (Dir _ rglob) =>
         foldl (λ result_files file,
                  if is_file fs file
                     && bool_decide (lower (suffix file) ∈ suffixes)
                  then result_files ++ [file] else result_files)
           result_files rglob
     | _ => result_files
     end
   else result_files)
  = result_files
    ++ match fs_node fs (fs_resolve fs path) with
       | Some (File _) =>
           filter (λ f, lower (suffix f) ∈ suffixes) [fs_resolve fs path]
       | Some (Dir _ rglob) =>
           filter (λ f, lower (suffix f) ∈ suffixes)
             (filter (λ f, is_file fs f) rglob)
       | None => []
       end.
Proof.
  cbv zeta. unfold is_dir.
  destruct (fs_node fs (fs_resolve fs path)) as [[f|size rglob]|] eqn:Hnode.
  - unfold is_file at 1. rewrite Hnode. simpl.
    rewrite filter_cons, filter_nil. case_bool_decide.
    + by rewrite decide_True.
    + rewrite decide_False by done. by rewrite app_nil_r.
  - unfold is_file at 1. rewrite Hnode. simpl.
    rewrite (foldl_append_filter
               (λ file, is_file fs file
                        && bool_decide (lower (suffix file) ∈ suffixes))).
    f_equal. rewrite list_filter_filter. apply list_filter_iff.
    intros f. rewrite andb_True, bool_decide_spec. tauto.
  - unfold is_file at 1. rewrite Hnode. simpl. by rewrite app_nil_r.
Qed.

Lemma find_text_log_files_eq fs paths :
  find_text_log_files fs paths
  = flat_map (λ path,
       match fs_node fs (fs_resolve fs path) with
       | Some (File _) =>
           filter (λ f, lower (suffix f) ∈ s2t <$> [".txt"; ".log"])
             [fs_resolve fs path]
       | Some (Dir _ rglob) =>
           filter (λ f, lower (suffix f) ∈ s2t <$> [".txt"; ".log"])
             (filter (λ f, is_file fs f) rglob)
       | None => []
       end) paths.
Proof.
  unfold find_text_log_files.
  rewrite (foldl_append_flat_map _ _ _ _
             (λ acc x, find_files_step fs (s2t <$> [".txt"; ".log"]) acc x)).
  done.
Qed.

Lemma find_vectorizable_files_eq fs paths :
  find_vectorizable_files fs paths
  = flat_map (λ path,
       match fs_node fs (fs_resolve fs path) with
       | Some (File _) =>
           filter (λ f, lower (suffix f) ∈ VECTORIZABLE_SUFFIXES)
             [fs_resolve fs path]
       | Some (Dir _ rglob) =>
           filter (λ f, lower (suffix f) ∈ VECTORIZABLE_SUFFIXES)
             (filter (λ f, is_file fs f) rglob)
       | None => []
       end) paths.
Proof.
  unfold find_vectorizable_files.
  rewrite (foldl_append_flat_map _ _ _ _
             (λ acc x, find_files_step fs VECTORIZABLE_SUFFIXES acc x)).
  done.
Qed.

Lemma filter_flat_map {X Y} (P : Y → Prop) `{!∀ y, Decision (P y)}
    (f : X → list Y) (l : list X) :
  filter P (flat_map f l) = flat_map (λ x, filter P (f x)) l.
Proof.
  induction l as [|x l IH]; [done|]. simpl. by rewrite filter_app, IH.
Qed.

(** X15: [find_text_log_files] returns the [.txt] and [.log] files that
    [find_vectorizable_files] returns, in the same order. *)
Theorem find_text_log_files_among_vectorizable (fs : filesystem)
    (paths : list string) :
  find_text_log_files fs paths
  = filter (λ f, lower (suffix f) ∈ s2t <$> [".txt"; ".log"])
      (find_vectorizable_files fs paths).
Proof.
  rewrite find_text_log_files_eq, find_vectorizable_files_eq, filter_flat_map.
  apply flat_map_ext. intros path.
  assert (Hsub : ∀ l : list string,
            filter (λ f, lower (suffix f) ∈ s2t <$> [".txt"; ".log"])
              (filter (λ f, lower (suffix f) ∈ VECTORIZABLE_SUFFIXES) l)
            = filter (λ f, lower (suffix f) ∈ s2t <$> [".txt"; ".log"]) l).
  { intros l. rewrite list_filter_filter. apply list_filter_iff.
    intros f. unfold VECTORIZABLE_SUFFIXES. set_solver. }
  destruct (fs_node fs (fs_resolve fs path)) as [[f|size rglob]|];
    by rewrite ?Hsub.
Qed.


Lemma omap_host_path_Scratch d (names : list string) :
  omap host_path (Scratch d <$> names) = [].
Proof. by induction names. Qed.







(** ** Archives: what is extracted, and when *)





(** A path that is not an archive file leaves the frame as it is. *)
Lemma after_path_no_archive fs path all_files fr :
  ¬ (is_file fs (fs_resolve fs path) = true
     ∧ lower (suffix (fs_resolve fs path)) ∈ ARCHIVE_SUFFIXES) →
  (after_path (fs_resolve fs path) (classify fs path) all_files fr).2 = fr.
Proof.
  intros Hno. unfold classify.
  destruct (is_file fs (fs_resolve fs path)) eqn:Hfile; simpl.
  - rewrite bool_decide_eq_false_2 by tauto. done.
  - by destruct (fs_node fs (fs_resolve fs path)) as [[f|size rglob]|].
Qed.

Lemma discover_no_archive fs paths all_files fr :
  Forall (λ path, ¬ (is_file fs (fs_resolve fs path) = true
                     ∧ lower (suffix (fs_resolve fs path))
                       ∈ ARCHIVE_SUFFIXES)) paths →
  (foldM (discover_path fs) paths all_files fr).2 = fr.
Proof.
  intros Hno. revert all_files.
  induction Hno as [|path paths Hpath _ IH]; intros all_files; [done|].
  rewrite discover_cons. cbv zeta.
  rewrite after_path_no_archive by done. apply IH.
Qed.

(** X18: archives are opened only when they are passed as input paths.
    When no input path is a file with an archive suffix, the call creates
    no scratch directory and prints nothing, whatever the directories
    passed contain and however the call ends: only the store can have
    changed. *)
Theorem no_archive_no_scratch (fs : filesystem) (collection_name : string)
    (file_or_dir_paths : list string) (chunk_size overlap : Z)
    (encoding : string) (metadatas : option (list metadata)) (w : world) :
  Forall (λ path, ¬ (is_file fs (fs_resolve fs path) = true
                     ∧ lower (suffix (fs_resolve fs path))
                       ∈ ARCHIVE_SUFFIXES)) file_or_dir_paths →
  let w' := (chroma_add_documents_from_files fs collection_name
               file_or_dir_paths chunk_size overlap encoding metadatas w).2 in
  w_scratch w' = w_scratch w
  ∧ w_next_tmp w' = w_next_tmp w
  ∧ w_stdout w' = w_stdout w.
Proof.
  intros Hno. unfold chroma_add_documents_from_files.
  set (fr0 := {| fr_temp_dirs := []; fr_world := w |}).
  pose proof (discover_no_archive fs file_or_dir_paths [] fr0 Hno) as Hfr.
  destruct (discover_returns fs file_or_dir_paths [] fr0) as [all_files Hret].
  destruct (foldM (discover_path fs) file_or_dir_paths [] fr0)
    as [r fr1] eqn:Hdisc.
  simpl in Hfr, Hret. subst r fr1.
  rewrite (ingest_body_eq _ _ _ _ _ _ _ _ _ Hdisc).
  destruct (py_not (vectorizable_of all_files)); simpl; done.
Qed.

Lemma no_archive_no_scratch_witness :
  let w' := (chroma_add_documents_from_files example_fs "c" ["/data"] 4 1
               "utf-8" None empty_world).2 in
  w_scratch w' = w_scratch empty_world
  ∧ w_next_tmp w' = w_next_tmp empty_world
  ∧ w_stdout w' = w_stdout empty_world.
Proof.
  apply (no_archive_no_scratch example_fs "c" ["/data"] 4 1 "utf-8" None
           empty_world).
  repeat constructor. vm_compute. intros [? _]. done.
Defined.

(** ** The count the ingestion reports *)

(** An id that holds a character that is not white space is not blank. *)
Lemma lstrip_nil (s : text) : lstrip s = [] → Forall (λ c, is_space c = true) s.
Proof.
  induction s as [|c s IH]; simpl; [constructor|].
  destruct (is_space c) eqn:Hc; [|done]. intros H. constructor; auto.
Qed.

Lemma lstrip_head (s : text) c r : lstrip s = c :: r → is_space c = false.
Proof.
  induction s as [|c' s IH]; simpl; [done|].
  destruct (is_space c') eqn:Hc; [done|]. by intros [= <- _].
Qed.

Lemma strip_not_blank (s : text) (c : ascii) :
  c ∈ s → is_space c = false → strip s ≠ [].
Proof.
  intros Hin Hc Hstrip. unfold strip in Hstrip.
  apply (f_equal reverse) in Hstrip. rewrite reverse_involutive in Hstrip.
  change (reverse []) with (@nil ascii) in Hstrip.
  apply lstrip_nil in Hstrip. rewrite Forall_reverse in Hstrip.
  destruct (lstrip s) as [|c0 r] eqn:Hs.
  - apply lstrip_nil in Hs. rewrite Forall_forall in Hs.
    specialize (Hs c Hin). congruence.
  - apply lstrip_head in Hs. apply Forall_cons in Hstrip as [? _]. congruence.
Qed.

Lemma indexed_id_not_blank (file_stem rest : string) :
  strip (s2t (file_stem +:+ "_" +:+ rest)) ≠ [].
Proof.
  apply (strip_not_blank _ "_"%char); [|done].
  rewrite !s2t_append. set_solver.
Qed.

Section Counting.
Variable name : string.
Implicit Types (st : gmap string (gmap string document)).

Lemma size_collection_of st : size (collection_of st name) = size (ids_in st name).
Proof. unfold ids_in. by rewrite size_dom. Qed.

Lemma size_ids_added (X : gset string) (ids : list string) :
  NoDup ids → (∀ id, id ∈ ids → id ∉ X) →
  size (X ∪ list_to_set ids) = size X + length ids.
Proof.
  intros Hnodup Hfresh. rewrite size_union by set_solver.
  by rewrite size_list_to_set.
Qed.

(** [chroma_add_documents] with aligned, non-blank, fresh ids returns. *)
Lemma chroma_add_documents_succeeds documents ids metadatas st :
  documents ≠ [] → length ids = length documents →
  length metadatas = length ids →
  Forall (λ id, strip (s2t id) ≠ []) ids →
  (∀ id, id ∈ ids → id ∉ ids_in st name) →
  ∃ st', chroma_add_documents name documents ids (Some metadatas) st
         = (Returns (length documents), st').
Proof.
  intros Hdocs Hlen Hmetas Hblank Hfresh. unfold chroma_add_documents.
  apply py_not_false in Hdocs. rewrite Hdocs.
  assert (Hids : py_not ids = false).
  { destruct ids, documents; done. }
  rewrite Hids.
  assert (Hnb : existsb (λ id, py_not (strip (s2t id))) ids = false).
  { apply not_true_is_false. intros (id & Hid & Hb)%existsb_exists.
    apply list_elem_of_In in Hid. rewrite Forall_forall in Hblank.
    apply py_not_true in Hb. by apply (Hblank id). }
  rewrite Hnb. rewrite (proj2 (Nat.eqb_eq _ _) Hlen). simpl.
  unfold try_except, bind, collection_get_ids, collection_add, raise, ret.
  destruct (get_or_create_collection_spec name st)
    as (st1 & -> & Hids1 & _ & _).
  rewrite filter_nothing; simpl.
  - rewrite bool_decide_eq_false_2.
    + rewrite bool_decide_eq_false_2 by (simpl; lia). by eexists.
    + rewrite Exists_exists. intros (id & Hid & Hsome).
      apply (Hfresh id Hid). rewrite <- Hids1. by apply elem_of_ids_in.
  - apply Forall_forall. intros id Hid Hex.
    apply (Hfresh id Hid). rewrite <- Hids1.
    by apply elem_of_collection_get_ids.
Qed.

Lemma chroma_update_documents_is_Some ids metadatas documents st r st' :
  chroma_update_documents name ids metadatas documents st = (r, st') →
  is_Some (st !! name) → is_Some (st' !! name).
Proof.
  unfold chroma_update_documents.
  destruct (py_not ids); [by intros [= _ <-]|].
  repeat (case_bool_decide; [by intros [= _ <-]|]).
  unfold bind, get_collection, collection_update, ret.
  destruct (st !! name); intros [= _ <-]; [|done].
  intros _. by rewrite lookup_insert_eq.
Qed.

Lemma counts_ret : counts name (λ total, ret total).
Proof. intros total st r st' [= <- <-]. split; lia. Qed.

Lemma counts_foldM {X} (f : X → nat → M _ nat) (xs : list X) :
  (∀ x, x ∈ xs → counts name (f x)) → counts name (foldM f xs).
Proof.
  induction xs as [|x xs IH]; intros Hf; simpl; [apply counts_ret|].
  intros total st r st' Hrun. unfold bind in Hrun.
  destruct (f x total st) as [[t1|e|] st1] eqn:H1;
    apply Hf in H1; try apply list_elem_of_here.
  - apply IH in Hrun; [|intros y ?; by apply Hf, list_elem_of_further].
    destruct r as [t2|e|]; [|done..].
    destruct H1 as [Hle1 Hsize1], Hrun as [Hle2 Hsize2]. split; lia.
  - by injection Hrun as <- <-.
  - done.
Qed.

(** What [reconcile_batch] does after the existence query. *)
Lemma reconcile_batch_eq batch_docs batch_ids batch_metadatas total st :
  let records := zip batch_docs (zip batch_ids batch_metadatas) in
  ∃ st1, ids_in st1 name = ids_in st name
    ∧ is_Some (st1 !! name)
    ∧ reconcile_batch name batch_docs batch_ids batch_metadatas total st
      = (let new := filter (λ r, r.2.1 ∉ ids_in st1 name) records in
         let update := filter (λ r, r.2.1 ∈ ids_in st1 name) records in
         let* total_added :=
           if negb (py_not new) then
             run chroma_add_documents name new.*1 new.*2.*1
                   (Some new.*2.*2) in
             ret (total + length new)
           else ret total in
         if negb (py_not update) then
           run chroma_update_documents name update.*2.*1
                 (Some update.*2.*2) (Some update.*1) in
           ret total_added
         else ret total_added) st1.
Proof.
  intros records.
  destruct (get_or_create_collection_spec name st)
    as (st1 & Hgc & Hids & Hex & Hoth).
  exists st1. split_and!; [done..|].
  unfold reconcile_batch. rewrite (bind_Returns _ _ _ _ _ Hgc).
  unfold collection_get_ids at 1. unfold bind at 1. fold records.
  assert (Hset : ∀ id,
    id ∈ (list_to_set (map_to_list (collection_of st1 name)).*1 : gset string)
    ↔ id ∈ ids_in st1 name).
  { intros id. by rewrite elem_of_list_to_set, elem_of_collection_get_ids. }
  rewrite (list_filter_iff _ (λ r, r.2.1 ∉ ids_in st1 name) records)
    by (intros r; by rewrite Hset).
  rewrite (list_filter_iff (λ r, r.2.1 ∈ list_to_set _)
             (λ r, r.2.1 ∈ ids_in st1 name) records)
    by (intros r; by rewrite Hset).
  done.
Qed.

(** One batch with aligned lists and distinct, non-blank ids: it
    returns, and the count grows as the collection does. *)
Lemma reconcile_batch_counts batch_docs batch_ids batch_metadatas :
  length batch_ids = length batch_docs →
  length batch_metadatas = length batch_docs →
  NoDup batch_ids → Forall (λ id, strip (s2t id) ≠ []) batch_ids →
  counts name (reconcile_batch name batch_docs batch_ids batch_metadatas).
Proof.
  intros Hlen_ids Hlen_metas Hnodup Hblank total st r st' Hrun.
  destruct (reconcile_batch_eq batch_docs batch_ids batch_metadatas total st)
    as (st1 & Hids1 & Hex1 & Heq).
  rewrite Heq in Hrun. clear Heq. cbv zeta in Hrun.
  rewrite (size_collection_of st), <- Hids1.
  set (records := zip batch_docs (zip batch_ids batch_metadatas)) in *.
  assert (Hrec_ids : records.*2.*1 = batch_ids).
  { unfold records. rewrite snd_zip, fst_zip; [done|lia|].
    rewrite length_zip. lia. }
  set (new := filter (λ r, r.2.1 ∉ ids_in st1 name) records) in *.
  set (update := filter (λ r, r.2.1 ∈ ids_in st1 name) records) in *.
  assert (Hsub_new : new.*2.*1 `sublist_of` batch_ids).
  { rewrite <- Hrec_ids. unfold new. do 2 apply fmap_sublist.
    apply sublist_filter. }
  assert (Hfresh : ∀ id, id ∈ new.*2.*1 → id ∉ ids_in st1 name).
  { intros id (im & -> & ([d im'] & -> & Hr)%list_elem_of_fmap)
      %list_elem_of_fmap. simpl.
    by apply list_elem_of_filter in Hr as [? _]. }
  assert (Hnodup_new : NoDup new.*2.*1) by (by eapply sublist_NoDup).
  assert (Hblank_new : Forall (λ id, strip (s2t id) ≠ []) new.*2.*1).
  { rewrite Forall_forall in Hblank. apply Forall_forall. intros id Hid.
    apply Hblank. by eapply elem_of_sublist. }
  assert (Hupdate : ∀ st2 total2, is_Some (st2 !! name) →
            ∃ st3, ((if negb (py_not update) then
                       run chroma_update_documents name update.*2.*1
                             (Some update.*2.*2) (Some update.*1) in
                       ret total2
                     else ret total2) : M store nat) st2
                   = (Returns total2, st3)
                   ∧ ids_in st3 name = ids_in st2 name).
  { intros st2 total2 Hex2. destruct (py_not update) eqn:Hupd; simpl.
    - by exists st2.
    - apply py_not_false in Hupd.
      destruct (chroma_update_documents_returns name update.*2.*1
                  update.*2.*2 update.*1 st2) as [st3 Hrun3];
        [by destruct update|by rewrite !length_fmap..|done|].
      exists st3. unfold bind. rewrite Hrun3. split; [done|].
      by eapply chroma_update_documents_ids. }
  unfold bind at 1 in Hrun.
  destruct (py_not new) eqn:Hnew; simpl in Hrun.
  - destruct (Hupdate st1 total Hex1) as (st3 & Hrun3 & Hids3).
    rewrite Hrun3 in Hrun. injection Hrun as <- <-.
    rewrite size_collection_of, Hids3. split; lia.
  - apply py_not_false in Hnew.
    destruct (chroma_add_documents_succeeds new.*1 new.*2.*1 new.*2.*2 st1)
      as [st2 Hadd];
      [by destruct new|by rewrite !length_fmap..|done|done|].
    unfold bind at 1 in Hrun. rewrite Hadd in Hrun. unfold ret at 1 in Hrun.
    cbv beta iota in Hrun.
    pose proof (chroma_add_documents_returns _ _ _ _ _ _ _ Hadd) as Hids2.
    assert (Hex2 : is_Some (st2 !! name)).
    { destruct new as [|[d [id m]] new'] eqn:Hn; [done|].
      apply (ids_in_is_Some name st2 id). rewrite Hids2. set_solver. }
    destruct (Hupdate st2 (total + length new) Hex2) as (st3 & Hrun3 & Hids3).
    rewrite Hrun3 in Hrun. injection Hrun as <- <-.
    rewrite size_collection_of, Hids3, Hids2, size_ids_added by done.
    rewrite !length_fmap. split; lia.
Qed.

Lemma NoDup_row_ids file_stem n : NoDup (row_ids file_stem n).
Proof. apply NoDup_indexed_ids, NoDup_seq. Qed.

Lemma csv_chunk_counts file_path chunk :
  counts name (csv_chunk (reconcile_batch name) file_path chunk).
Proof.
  unfold csv_chunk. destruct chunk as [|row chunk]; [apply counts_ret|].
  set (rows := row :: chunk).
  change (py_not (join (s2t " ") <$> rows)) with false. cbv iota.
  rewrite !length_fmap.
  fold (row_ids (stem file_path) (length rows)).
  apply counts_foldM. intros i _.
  assert (Hlen : ∀ {X} (l : list X), length l = length rows →
            length (take BATCH_SIZE (drop i l))
            = BATCH_SIZE `min` (length rows - i)).
  { intros X l Hl. by rewrite length_take, length_drop, Hl. }
  apply reconcile_batch_counts.
  - rewrite !Hlen; [done|by rewrite length_fmap|].
    unfold row_ids. by rewrite length_fmap, length_seq.
  - rewrite !Hlen; [done|by rewrite length_fmap|].
    by rewrite length_fmap, length_seq.
  - eapply sublist_NoDup; [apply (NoDup_row_ids (stem file_path) (length rows))|].
    etrans; [apply sublist_take|apply sublist_drop].
  - apply Forall_take, Forall_drop. apply Forall_forall.
    intros id (k & -> & _)%list_elem_of_fmap.
    apply (indexed_id_not_blank (stem file_path) ("row_" +:+ dec k)).
Qed.

Lemma csv_file_counts file_path rows :
  counts name (csv_file (reconcile_batch name) file_path rows).
Proof. apply counts_foldM. intros chunk _. apply csv_chunk_counts. Qed.

(** One chunk of a text file: with the collection in place and the id
    of the chunk either in the snapshot or not yet in the collection, it
    returns and keeps the count. *)
Lemma upsert_chunk_counts file_path (existing : gset string) chunk_idx buffer
    total st :
  is_Some (st !! name) →
  (stem file_path +:+ "_chunk_" +:+ dec chunk_idx ∉ existing →
   stem file_path +:+ "_chunk_" +:+ dec chunk_idx ∉ ids_in st name) →
  ∃ total' st',
    upsert_chunk name file_path existing chunk_idx buffer total st
    = (Returns total', st')
    ∧ total ≤ total'
    ∧ size (collection_of st' name)
      = size (collection_of st name) + (total' - total)
    ∧ is_Some (st' !! name)
    ∧ ids_in st' name
      ⊆ ids_in st name ∪ {[stem file_path +:+ "_chunk_" +:+ dec chunk_idx]}.
Proof.
  intros Hex Hfresh. unfold upsert_chunk, bind, ret.
  set (id0 := stem file_path +:+ "_chunk_" +:+ dec chunk_idx) in *.
  case_bool_decide as Hin.
  - destruct (chroma_update_documents_returns name [id0]
                [[("file", MStr file_path);
                  ("chunk_index", MInt (Z.of_nat chunk_idx))]]
                [buffer] st) as [st' Hupd]; [done..|].
    rewrite Hupd. exists total, st'.
    pose proof (chroma_update_documents_ids _ _ _ _ _ _ _ Hupd) as Hids.
    split_and!; [done|lia| | |set_solver].
    + rewrite !size_collection_of, Hids. lia.
    + by eapply chroma_update_documents_is_Some.
  - destruct (chroma_add_documents_succeeds [buffer] [id0]
                [[("file", MStr file_path);
                  ("chunk_index", MInt (Z.of_nat chunk_idx))]] st)
      as [st' Hadd]; [done..| | |].
    { repeat constructor.
      apply (indexed_id_not_blank (stem file_path)
               ("chunk_" +:+ dec chunk_idx)). }
    { intros id ->%list_elem_of_singleton. by apply Hfresh. }
    rewrite Hadd. exists (total + 1), st'.
    pose proof (chroma_add_documents_returns _ _ _ _ _ _ _ Hadd) as Hids.
    split_and!; [done|lia| | |set_solver].
    + rewrite !size_collection_of, Hids, size_ids_added.
      * simpl. lia.
      * apply NoDup_singleton.
      * intros id ->%list_elem_of_singleton. by apply Hfresh.
    + apply (ids_in_is_Some name st' id0). rewrite Hids. set_solver.
Qed.

(** The loop over the lines of a text file: it always returns, and the
    count grows as the collection does. The snapshot of the ids is taken
    before the loop; what the loop has added since are ids of smaller
    indices. *)
Lemma stream_loop_counts file_path (existing : gset string) chunk_size overlap
    lines buffer chunk_idx total st :
  is_Some (st !! name) →
  (∀ id, id ∈ ids_in st name →
     id ∈ existing
     ∨ ∃ j, j < chunk_idx ∧ id = stem file_path +:+ "_chunk_" +:+ dec j) →
  ∃ total' st',
    stream_loop (upsert_chunk name file_path existing) chunk_size overlap
      lines buffer chunk_idx total st = (Returns total', st')
    ∧ total ≤ total'
    ∧ size (collection_of st' name)
      = size (collection_of st name) + (total' - total).
Proof.
  revert buffer chunk_idx total st.
  induction lines as [|line lines IH]; intros buffer chunk_idx total st Hex Hinv;
    simpl.
  - destruct (negb (py_not buffer)).
    + destruct (upsert_chunk_counts file_path existing chunk_idx buffer
                  total st Hex) as (total' & st' & Hrun & ? & ? & _).
      * intros Hnot Hin. apply Hinv in Hin as [?|(j & Hj & Heq)]; [done|].
        apply indexed_id_inj in Heq. lia.
      * by exists total', st'.
    + exists total, st. split_and!; [done|lia|lia].
  - destruct (_ >=? _)%Z; [|by apply IH].
    destruct (upsert_chunk_counts file_path existing chunk_idx
                (buffer ++ line) total st Hex)
      as (total1 & st1 & Hrun1 & Hle1 & Hsize1 & Hex1 & Hids1).
    { intros Hnot Hin. apply Hinv in Hin as [?|(j & Hj & Heq)]; [done|].
      apply indexed_id_inj in Heq. lia. }
    unfold bind. rewrite Hrun1.
    destruct (IH (if (overlap >? 0)%Z
                  then py_slice (buffer ++ line) (Some (- overlap)%Z) None
                  else []) (S chunk_idx) total1 st1 Hex1)
      as (total2 & st2 & Hrun2 & Hle2 & Hsize2).
    { intros id Hid. apply Hids1 in Hid.
      apply elem_of_union in Hid as [Hid | ->%elem_of_singleton].
      - apply Hinv in Hid as [?|(j & Hj & ->)]; [by left|].
        right. exists j. split; [lia|done].
      - right. exists chunk_idx. split; [lia|done]. }
    exists total2, st2. split_and!; [done|lia|lia].
Qed.

Lemma process_file_counts read chunk_size overlap encoding file_path :
  counts name (process_file read name chunk_size overlap encoding file_path).
Proof.
  intros total st r st'. unfold process_file. case_bool_decide.
  - destruct (read file_path) as [f|]; [|intros [= <- _]; set_solver].
    destruct (f_csv f) as [rows|]; [|intros [= <- _]; set_solver].
    apply csv_file_counts.
  - destruct (read file_path) as [f|]; [|intros [= <- _]; set_solver].
    unfold bind, collection_get_ids.
    destruct (get_or_create_collection_spec name st)
      as (st1 & -> & Hids1 & Hex1 & _).
    destruct (f_decode f _) as [content|]; [|intros [= <- _]; set_solver].
    destruct (stream_loop_counts (path_str file_path)
                (list_to_set (map_to_list (collection_of st1 name)).*1)
                chunk_size overlap (split_lines [] content) [] 0 total st1
                Hex1) as (total' & st2 & -> & Hle & Hsize).
    + intros id Hid. left.
      by rewrite elem_of_list_to_set, elem_of_collection_get_ids.
    + intros [= <- <-]. split; [done|].
      rewrite Hsize, !size_collection_of, Hids1. done.
Qed.
End Counting.

(** The whole call: either nothing vectorizable was found and the store
    is as it was, or the outcome and the store are those of processing the
    candidates from a count of zero. *)
Lemma ingest_outcome fs collection_name paths chunk_size overlap encoding
    metadatas w :
  let call := chroma_add_documents_from_files fs collection_name paths
                chunk_size overlap encoding metadatas w in
  (call.1 = Raises NoVectorizableInput ∧ w_store call.2 = w_store w)
  ∨ ∃ read files,
      (call.1, w_store call.2)
      = foldM (process_file read collection_name chunk_size overlap encoding)
          files 0 (w_store w).
Proof.
  unfold chroma_add_documents_from_files.
  set (fr0 := {| fr_temp_dirs := []; fr_world := w |}).
  destruct (discover_returns fs paths [] fr0) as [all_files Hret].
  destruct (discover_extends fs paths [] fr0) as [(Hstore & _ & _) _].
  destruct (foldM (discover_path fs) paths [] fr0) as [r fr1] eqn:Hdisc.
  simpl in Hret, Hstore. subst r.
  rewrite (ingest_body_eq _ _ _ _ _ _ _ _ _ Hdisc).
  destruct (py_not (vectorizable_of all_files)); simpl.
  - left. split; [done|].
    destruct (foldl_cleanup_rest (fr_temp_dirs fr1) (fr_world fr1))
      as (-> & _ & _). done.
  - right. exists (lookup_file fs (fr_world fr1)), (vectorizable_of all_files).
    destruct (foldl_cleanup_rest (fr_temp_dirs fr1)
                (with_store (λ _, (foldM (process_file
                   (lookup_file fs (fr_world fr1)) collection_name chunk_size
                   overlap encoding) (vectorizable_of all_files) 0
                   (w_store (fr_world fr1))).2) (fr_world fr1)))
      as (-> & _ & _).
    simpl. rewrite Hstore. symmetry. apply surjective_pairing.
Qed.

(** X19: the number [chroma_add_documents_from_files] reports is the
    number of records by which the collection has grown: rows and chunks
    that were routed to an update, because their id was present already,
    are not counted, and every record counted is a new one. *)
Theorem ingest_reports_growth (fs : filesystem) (collection_name : string)
    (file_or_dir_paths : list string) (chunk_size overlap : Z)
    (encoding : string) (metadatas : option (list metadata)) (w w' : world)
    (total_added : nat) :
  chroma_add_documents_from_files fs collection_name file_or_dir_paths
    chunk_size overlap encoding metadatas w = (Returns total_added, w') →
  size (collection_of (w_store w') collection_name)
  = size (collection_of (w_store w) collection_name) + total_added.
Proof.
  intros Hcall.
  destruct (ingest_outcome fs collection_name file_or_dir_paths chunk_size
              overlap encoding metadatas w) as [[Hno _]|(read & files & Hrun)];
    rewrite Hcall in *; simpl in *; [done|].
  symmetry in Hrun.
  apply (counts_foldM collection_name) in Hrun as [_ ->]; [lia|].
  intros file_path _. apply process_file_counts.
Qed.

Lemma ingest_reports_growth_witness :
  size (collection_of (w_store first_run.2) "c")
  = size (collection_of (w_store empty_world) "c") + 8.
Proof.
  apply (ingest_reports_growth example_fs "c" ["/data"; "/data/pack.zip"]
           4 1 "utf-8" None empty_world).
  change (first_run = (Returns 8, first_run.2)).
  replace (Returns 8) with first_run.1 by (vm_compute; reflexivity).
  apply surjective_pairing.
Defined.



(** ** Thought data *)

(** What [validate_thought_data] returns, read back key by key. *)
Lemma validated_get (input_data validated : gmap string py_value) :
  validate_thought_data input_data = inr validated →
  dom validated = list_to_set THOUGHT_KEYS
  ∧ ∀ key, dict_get validated key
           = if bool_decide (key ∈ THOUGHT_KEYS) then dict_get input_data key
             else PyNone.
Proof.
  unfold validate_thought_data.
  repeat (match goal with |- (if ?b then _ else _) = _ → _ => destruct b end;
          [done|]).
  intros [= <-]. split.
  - rewrite !dom_insert_L, dom_empty_L. unfold THOUGHT_KEYS. simpl.
    set_solver.
  - intros key. unfold dict_get at 1.
    repeat match goal with
    | |- context [<[?k := _]> _ !! key] =>
        destruct (decide (key = k)) as [->|];
          [by rewrite lookup_insert_eq|rewrite lookup_insert_ne by done]
    end.
    rewrite lookup_empty. simpl.
    rewrite bool_decide_eq_false_2; [done|]. unfold THOUGHT_KEYS. set_solver.
Qed.

(** X21: validation is idempotent, and only the ten keys of a thought
    matter: what [validate_thought_data] returns has exactly these keys,
    is accepted by [validate_thought_data] and returned as it is; and two
    inputs that agree on the ten keys are treated alike. *)
Theorem validate_thought_data_idempotent
    (input_data validated : gmap string py_value) :
  validate_thought_data input_data = inr validated →
  dom validated = list_to_set THOUGHT_KEYS
  ∧ validate_thought_data validated = inr validated
  ∧ ∀ other, (∀ key, key ∈ THOUGHT_KEYS →
                dict_get other key = dict_get input_data key) →
       validate_thought_data other = inr validated.
Proof.
  intros Hval. destruct (validated_get _ _ Hval) as [Hdom Hget].
  assert (Hsame : ∀ other,
            (∀ key, key ∈ THOUGHT_KEYS →
               dict_get other key = dict_get input_data key) →
            validate_thought_data other = inr validated).
  { intros other Hagree. rewrite <- Hval. unfold validate_thought_data.
    rewrite !Hagree by (unfold THOUGHT_KEYS; set_solver). done. }
  split_and!; [done| |done].
  apply Hsame. intros key Hkey. rewrite Hget.
  by rewrite bool_decide_eq_true_2.
Qed.

Lemma validate_thought_data_idempotent_witness :
  let input_data : gmap string py_value :=
    list_to_map [("sessionId", PyStr "s1"); ("thought", PyStr "think");
                 ("thoughtNumber", PyInt 1); ("totalThoughts", PyBool true);
                 ("nextThoughtNeeded", PyBool false); ("extra", PyInt 7)] in
  let validated : gmap string py_value :=
    list_to_map [("sessionId", PyStr "s1"); ("thought", PyStr "think");
                 ("thoughtNumber", PyInt 1); ("totalThoughts", PyBool true);
                 ("nextThoughtNeeded", PyBool false); ("isRevision", PyNone);
                 ("revisesThought", PyNone); ("branchFromThought", PyNone);
                 ("branchId", PyNone); ("needsMoreThoughts", PyNone)] in
  dom validated = list_to_set THOUGHT_KEYS
  ∧ validate_thought_data validated = inr validated
  ∧ ∀ other, (∀ key, key ∈ THOUGHT_KEYS →
                dict_get other key = dict_get input_data key) →
       validate_thought_data other = inr validated.
Proof.
  cbv zeta. apply validate_thought_data_idempotent.
  vm_compute. reflexivity.
Defined.

(** ** The client *)

Section ClientFacts.
Context {client : Type}.
Implicit Types (s : client_state client) (c : client).

Lemma client_assign_spec (connect : client_request → connection client) r s :
  chroma_client s = None →
  let res := client_assign connect r s in
  client_events res.2 = client_events s ++ [Request r]
  ∧ match res.1 with
    | Connected c => chroma_client res.2 = Some c
    | _ => chroma_client res.2 = None
    end.
Proof.
  intros Hnone. unfold client_assign. destruct (connect r); simpl; auto.
Qed.

Lemma client_guarded_spec (connect : client_request → connection client) r
    on_error s :
  chroma_client s = None →
  let res := client_guarded connect r on_error s in
  (∃ rest, client_events res.2 = client_events s ++ Request r :: rest)
  ∧ match res.1 with
    | inr c => chroma_client res.2 = Some c
    | inl e => chroma_client res.2 = None ∧ e ∈ [SSLFailed; ConnectFailed]
    end.
Proof.
  intros Hnone. unfold client_guarded.
  pose proof (client_assign_spec connect r s Hnone) as [Hev Hcl].
  destruct (client_assign connect r s) as [[c| |] s1]; simpl in *.
  - split; [exists []; done|done].
  - rewrite Hev, <- app_assoc. split; [by eexists|]. split; [done|set_solver].
  - rewrite Hev, <- app_assoc. split; [by eexists|]. split; [done|set_solver].
Qed.

(** A call made while there is no client: when it returns, the client
    it returns is the one it has kept; when it raises, it has kept none;
    and when it raises for a missing argument, it has asked chromadb for
    nothing. *)
Lemma get_chroma_client_first (connect : client_request → connection client)
    command_line args s :
  chroma_client s = None →
  let res := get_chroma_client connect command_line args s in
  match res.1 with
  | inr c => chroma_client res.2 = Some c
  | inl e =>
      chroma_client res.2 = None
      ∧ (e ∈ [ArgumentsRejected; HostMissing; TenantMissing; DatabaseMissing;
              ApiKeyMissing; DataDirMissing] →
         ∀ r, Request r ∉ drop (length (client_events s))
                            (client_events res.2))
  end.
Proof.
  intros Hnone. unfold get_chroma_client. rewrite Hnone.
  destruct (match args with Some a => Some a | None => command_line end)
    as [a|]; simpl.
  - set (s0 := client_log (DotenvLoaded (dotenv_path a)) s).
    assert (Hnone0 : chroma_client s0 = None) by done.
    assert (Hquiet : ∀ r, Request r ∉ drop (length (client_events s))
                                         (client_events s0)).
    { intros r. simpl. rewrite drop_app_length. set_solver. }
    assert (Hguard : ∀ r on_error,
      let res := client_guarded connect r on_error s0 in
      match res.1 with
      | inr c => chroma_client res.2 = Some c
      | inl e =>
          chroma_client res.2 = None
          ∧ (e ∈ [ArgumentsRejected; HostMissing; TenantMissing;
                  DatabaseMissing; ApiKeyMissing; DataDirMissing] →
             ∀ r, Request r ∉ drop (length (client_events s))
                                (client_events res.2))
      end).
    { intros r on_error.
      pose proof (client_guarded_spec connect r on_error s0 Hnone0) as [_ H].
      cbv zeta in *. destruct (client_guarded connect r on_error s0).1; [|done].
      destruct H as [? He]. split; [done|]. set_solver. }
    assert (Hassign : ∀ r,
      let res := match client_assign connect r s0 with
                 | (Connected c, s) => (inr c, s)
                 | (SSLError, s) => (inl SSLFailed, s)
                 | (ConnectionError, s) => (inl ConnectFailed, s)
                 end in
      match res.1 with
      | inr c => chroma_client res.2 = Some c
      | inl e =>
          chroma_client res.2 = None
          ∧ (e ∈ [ArgumentsRejected; HostMissing; TenantMissing;
                  DatabaseMissing; ApiKeyMissing; DataDirMissing] →
             ∀ r, Request r ∉ drop (length (client_events s))
                                (client_events res.2))
      end).
    { intros r.
      pose proof (client_assign_spec connect r s0 Hnone0) as [_ H].
      cbv zeta in *.
      destruct (client_assign connect r s0) as [[c| |] s1]; simpl in *;
        [done|split; [done|set_solver]..]. }
    destruct (String.eqb (client_type a) "http").
    { destruct (negb (given (host a))); [by split|apply Hguard]. }
    destruct (String.eqb (client_type a) "cloud").
    { destruct (negb (given (tenant a))); [by split|].
      destruct (negb (given (database a))); [by split|].
      destruct (negb (given (api_key a))); [by split|apply Hguard]. }
    destruct (String.eqb (client_type a) "persistent").
    { destruct (negb (given (data_dir a))); [by split|apply Hassign]. }
    apply Hassign.
  - split; [done|]. intros _ r. rewrite drop_ge by done. set_solver.
Qed.

(** X22: the client is a singleton. Once a call of [get_chroma_client]
    has returned a client, every later call returns that same client,
    whatever arguments it is passed and whatever chromadb would answer, and
    does nothing else: it loads no dotenv file and asks for no client. *)
Theorem get_chroma_client_singleton
    (connect connect' : client_request → connection client)
    (command_line command_line' : option client_args)
    (args args' : option client_args) s s1 c :
  get_chroma_client connect command_line args s = (inr c, s1) →
  chroma_client s1 = Some c
  ∧ get_chroma_client connect' command_line' args' s1 = (inr c, s1).
Proof.
  intros Hcall.
  assert (Hkept : chroma_client s1 = Some c).
  { destruct (chroma_client s) as [c0|] eqn:Hs.
    - unfold get_chroma_client in Hcall. rewrite Hs in Hcall.
      injection Hcall as <- <-. done.
    - pose proof (get_chroma_client_first connect command_line args s Hs) as H.
      cbv zeta in H. by rewrite Hcall in H. }
  split; [done|]. unfold get_chroma_client. by rewrite Hkept.
Qed.

(** X23: a call of [get_chroma_client] that raises keeps no client, so
    that a later call tries again; and when it raises because an argument
    its client type needs is missing (or the command line was rejected), it
    has asked chromadb for nothing. *)
Theorem get_chroma_client_failure
    (connect : client_request → connection client)
    (command_line args : option client_args) s s1 e :
  get_chroma_client connect command_line args s = (inl e, s1) →
  chroma_client s = None
  ∧ chroma_client s1 = None
  ∧ (e ∈ [ArgumentsRejected; HostMissing; TenantMissing; DatabaseMissing;
          ApiKeyMissing; DataDirMissing] →
     ∀ r, Request r ∉ drop (length (client_events s)) (client_events s1)).
Proof.
  intros Hcall.
  destruct (chroma_client s) as [c0|] eqn:Hs.
  - unfold get_chroma_client in Hcall. by rewrite Hs in Hcall.
  - pose proof (get_chroma_client_first connect command_line args s Hs) as H.
    cbv zeta in H. rewrite Hcall in H. simpl in H. by split.
Qed.
End ClientFacts.

Lemma get_chroma_client_singleton_witness :
  let args := {| client_type := "persistent"; data_dir := Some "/db";
                 host := None; port := None;
                 custom_auth_credentials := None; tenant := None;
                 database := None; api_key := None; ssl := true;
                 dotenv_path := ".chroma_env" |} in
  let s1 := {| chroma_client := Some 1;
               client_events := [DotenvLoaded ".chroma_env";
                                 Request (PersistentClient "/db")] |} in
  chroma_client s1 = Some 1
  ∧ get_chroma_client (λ _, SSLError) None None s1 = (inr 1, s1).
Proof.
  cbv zeta.
  apply (get_chroma_client_singleton (λ _, Connected 1) (λ _, SSLError)
           None None
           (Some {| client_type := "persistent"; data_dir := Some "/db";
                    host := None; port := None;
                    custom_auth_credentials := None; tenant := None;
                    database := None; api_key := None; ssl := true;
                    dotenv_path := ".chroma_env" |})
           None {| chroma_client := None; client_events := [] |}).
  reflexivity.
Defined.

Lemma get_chroma_client_failure_witness :
  let s := {| chroma_client := @None nat; client_events := [] |} in
  let s1 := {| chroma_client := @None nat;
               client_events := [DotenvLoaded ".chroma_env"] |} in
  chroma_client s = None
  ∧ chroma_client s1 = None
  ∧ (HostMissing ∈ [ArgumentsRejected; HostMissing; TenantMissing;
                    DatabaseMissing; ApiKeyMissing; DataDirMissing] →
     ∀ r, Request r ∉ drop (length (client_events s)) (client_events s1)).
Proof.
  cbv zeta.
  apply (get_chroma_client_failure (λ _, Connected 1) None
           (Some {| client_type := "http"; data_dir := None;
                    host := Some ""; port := None;
                    custom_auth_credentials := None; tenant := None;
                    database := None; api_key := None; ssl := true;
                    dotenv_path := ".chroma_env" |})).
  reflexivity.
Defined.

